(** * ulab [poly] module: polyval, polyfit, interp

    A shallow embedding of [src/code/poly.c] and the properties of its three
    entry points.

    Conventions of the embedding.
    - [mp_float_t] is the field of real numbers: the statements below are
      about the arithmetic the code performs, read over the reals.
    - C integers are [Z]; the narrowing conversions to [uint8_t] and
      [uint16_t] are written out as reductions modulo 2^8 and 2^16.
    - A heap block is a [list] of cells; an access outside the block is the
      outcome [Fault] (undefined behaviour in C).
    - Counting loops are run with fuel, their counter wrapped to its C
      type at each increment; a loop that exhausts its fuel yields
      [Timeout].
    - [m_new]/[m_del] are recorded in a ledger of live blocks that every
      entry point threads through.
    - Calls into the host (allocation, iteration, conversion of an item to
      a float) succeed: the exceptions the host may raise inside them are
      not part of this file. *)

From Stdlib Require Import String.
From Stdlib Require Import Reals ZArith List Lia Lra Bool Arith.
From Equations Require Import Equations.
Import ListNotations.

Local Open Scope string_scope.
Local Open Scope list_scope.
Local Open Scope Z_scope.

(* ================================================================== *)
(** * Part I: the embedding                                            *)
(* ================================================================== *)

(** ** Machine integers *)

Abbreviation mp_float_t := R (only parsing).

(** [(uint8_t) z] and [(uint16_t) z]. *)
Definition u8 (z : Z) : Z := z mod 256.
Definition u16 (z : Z) : Z := z mod 65536.
(** [size_t]; 32 bits on the microcontroller targets.  Every [size_t]
    counter of this file runs against a 16-bit bound. *)
Definition usize (z : Z) : Z := z mod 4294967296.

(** ** Outcomes *)

Inductive exn : Type :=
| ValueError (msg : string).

Inductive result (A : Type) : Type :=
| Ok (a : A)
| Raise (e : exn)
| Fault
| Timeout.

Arguments Ok {A} a.
Arguments Raise {A} e.
Arguments Fault {A}.
Arguments Timeout {A}.

Definition rbind {A B : Type} (r : result A) (f : A -> result B) : result B :=
  match r with
  | Ok a => f a
  | Raise e => Raise e
  | Fault => Fault
  | Timeout => Timeout
  end.

Declare Scope res_scope.
Delimit Scope res_scope with res.
Notation "x <- r ;; k" := (rbind r (fun x => k))
  (at level 61, r at next level, right associativity) : res_scope.

(** ** Heap blocks *)

Definition buffer : Type := list mp_float_t.

Definition len (b : buffer) : Z := Z.of_nat (length b).

Definition in_bounds (b : buffer) (i : Z) : bool :=
  (0 <=? i) && (i <? len b).

Fixpoint upd (k : nat) (v : mp_float_t) (b : buffer) : buffer :=
  match b, k with
  | [], _ => []
  | _ :: t, O => v :: t
  | h :: t, S k' => h :: upd k' v t
  end.

(** [b[i]] as an rvalue. *)
Definition load (b : buffer) (i : Z) : result mp_float_t :=
  if in_bounds b i then Ok (nth (Z.to_nat i) b 0%R) else Fault.

(** [b[i] = v]. *)
Definition store (b : buffer) (i : Z) (v : mp_float_t) : result buffer :=
  if in_bounds b i then Ok (upd (Z.to_nat i) v b) else Fault.

(** ** Counting loops

    [for (T i = i0; i < bound; i++) body], where [wrap] is the conversion
    to the counter's type [T]; the comparison is done in a type that holds
    both sides. *)
Fixpoint for_loop {S : Type} (wrap : Z -> Z) (fuel : nat) (i bound : Z)
         (body : Z -> S -> result S) (s : S) : result S :=
  match fuel with
  | O => Timeout
  | Datatypes.S fuel' =>
      if i <? bound
      then (s' <- body i s ;;
            for_loop wrap fuel' (wrap (i + 1)) bound body s')%res
      else Ok s
  end.

(** ** Walking an iterable

    [while ((item = mp_iternext(it)) != STOP) buf[i++] = f(item);], where
    [wrap] is the conversion to the type of the index [i]. *)
Fixpoint store_each (wrap : Z -> Z) (f : mp_float_t -> result mp_float_t)
         (buf : buffer) (i : Z) (items : list mp_float_t) : result buffer :=
  match items with
  | [] => Ok buf
  | c :: rest =>
      (v <- f c ;;
       buf' <- store buf i v ;;
       store_each wrap f buf' (wrap (i + 1)) rest)%res
  end.

(** ** The allocation ledger *)

Definition ledger : Type := list (string * Z).

Definition M (A : Type) : Type := ledger -> result A * ledger.

Definition ret {A : Type} (a : A) : M A := fun h => (Ok a, h).

Definition bind {A B : Type} (m : M A) (f : A -> M B) : M B :=
  fun h =>
    match m h with
    | (Ok a, h') => f a h'
    | (Raise e, h') => (Raise e, h')
    | (Fault, h') => (Fault, h')
    | (Timeout, h') => (Timeout, h')
    end.

Definition lift {A : Type} (r : result A) : M A := fun h => (r, h).

Declare Scope mem_scope.
Delimit Scope mem_scope with mem.
Notation "x <- m ;; k" := (bind m (fun x => k))
  (at level 61, m at next level, right associativity) : mem_scope.
Notation "m ;;; k" := (bind m (fun _ => k))
  (at level 61, right associativity) : mem_scope.

Definition mp_raise_ValueError {A : Type} (msg : string) : M A :=
  lift (Raise (ValueError msg)).

(** [m_new(mp_float_t, n)]: a fresh block of [n] cells.  C leaves its
    contents unspecified; the code writes every cell before reading it, and
    the model starts the block at zero. *)
Definition m_new (name : string) (n : Z) : M buffer :=
  fun h => (Ok (repeat 0%R (Z.to_nat n)), (name, n) :: h).

Fixpoint release (name : string) (h : ledger) : ledger :=
  match h with
  | [] => []
  | (k, n) :: t => if String.eqb k name then t else (k, n) :: release name t
  end.

(** [m_del(mp_float_t, ptr, n)]. *)
Definition m_del (name : string) : M unit :=
  fun h => (Ok tt, release name h).

(** ** Arrays of the host *)

Record ndarray : Type := mk_ndarray
  { nd_m : Z;              (* rows *)
    nd_n : Z;              (* columns *)
    nd_items : buffer }.   (* array->items, array->len cells *)

(** Modelled from the spec: [create_new_ndarray(m, n, NDARRAY_FLOAT)] of
    ndarray.c, the allocation facility of section 6: a new array of the
    given shape, with [m * n] items.  Section 6 does not say what the items
    hold at first; as for [m_new] the model starts them at zero, and no
    statement below is about a cell the code has not written. *)
Definition create_new_ndarray (name : string) (m n : Z) : M ndarray :=
  fun h => (Ok (mk_ndarray m n (repeat 0%R (Z.to_nat (m * n)))),
            (name, m * n) :: h).

(** ** [poly_polyval] *)

(** Lines 60-64: [while (item = next(p_iterable)) { p[i] = item; i++; }]
    with [uint16_t i]. *)
Definition read_coefficients (p : buffer) (items : list mp_float_t)
  : result buffer :=
  store_each u16 (fun c => Ok c) p 0 items.

(** Lines 68-72: Horner's scheme at one point. *)
Definition horner (fuel : nat) (p : buffer) (plen : Z) (x : mp_float_t)
  : result mp_float_t :=
  (y0 <- load p 0 ;;
   for_loop u8 fuel 0 (plen - 1)
     (fun j y => c <- load p (j + 1) ;; Ok (y * x + c)%R) y0)%res.

(** Lines 65-74: one result per item of the points iterable, written at
    [outf[i++]] with [uint16_t i]. *)
Definition eval_points (fuel : nat) (p : buffer) (plen : Z) (outf : buffer)
           (xs : list mp_float_t) : result buffer :=
  store_each u16 (horner fuel p plen) outf 0 xs.

(** The points argument [o_x] as lines 37-50 read it.  Of an ndarray the
    code reads the shape, [ndx->m] and [ndx->n]; any other object it casts
    to [mp_obj_array_t] and reads the word [ix->len] of it, which is the
    number of items only for the objects laid out that way.  In both cases
    [items] are the numbers its iterator yields. *)
Inductive points : Type :=
| nd_points (m n : Z) (items : list mp_float_t)
| other_points (ix_len : Z) (items : list mp_float_t).

(** Lines 36-45: the shape [m], [n] of the result. *)
Definition points_m (o_x : points) : Z :=
  match o_x with
  | nd_points m _ _ => m
  | other_points _ _ => 1
  end.

Definition points_n (o_x : points) : Z :=
  match o_x with
  | nd_points _ n _ => n
  | other_points ix_len _ => ix_len
  end.

Definition points_items (o_x : points) : list mp_float_t :=
  match o_x with
  | nd_points _ _ items => items
  | other_points _ items => items
  end.

(** Lines 32-77. *)
Definition poly_polyval (fuel : nat) (o_p : list mp_float_t) (o_x : points)
  : M ndarray :=
  (let m := points_m o_x in
   let n := points_n o_x in
   out <- create_new_ndarray "out" m n ;;
   let plen := u8 (Z.of_nat (length o_p)) in
   p <- m_new "p" plen ;;
   p <- lift (read_coefficients p o_p) ;;
   outf <- lift (eval_points fuel p plen (nd_items out) (points_items o_x)) ;;
   m_del "p" ;;;
   ret (mk_ndarray m n outf))%mem.

(** The polynomial as the specification writes it: the sum over [k] of
    [c[k] * x^(degree - k)]. *)
Fixpoint direct_sum (c : list mp_float_t) (x : mp_float_t) : mp_float_t :=
  match c with
  | [] => 0%R
  | a :: t => (a * x ^ length t + direct_sum t x)%R
  end.

(** ** [linalg_invert_matrix]

    The inverter lives in linalg.c, outside the sources at hand; this
    section follows its description in section 4.2 of the specification. *)

Definition matrix : Type := nat -> nat -> mp_float_t.

Definition of_flat (N : nat) (d : buffer) : matrix :=
  fun r c => nth (r * N + c) d 0%R.

Definition to_flat (N : nat) (A : matrix) : buffer :=
  flat_map (fun r => map (fun c => A r c) (seq 0 N)) (seq 0 N).

Definition identity : matrix :=
  fun r c => if Nat.eqb r c then 1%R else 0%R.

(** Row [r <> m] of [T] loses [A r m / A m m] times row [m] of [T]. *)
Definition eliminate (m : nat) (A T : matrix) : matrix :=
  fun r c =>
    if Nat.eqb r m then T r c else (T r c - A r m / A m m * T m c)%R.

(** The test of section 4.2 for a pivot that is "(numerically) zero".  Its
    threshold belongs to linalg.c, so the embedding leaves the test open:
    all it asks is that a pivot that is exactly zero is refused. *)
Class pivot_test : Type :=
  { numerically_zero : mp_float_t -> bool;
    zero_is_rejected : numerically_zero 0%R = true }.

(** Modelled from the spec: the elimination pass of [linalg_invert_matrix],
    column by column on the matrix [A] and the augmented identity [U]; it
    stops with [None] at the first pivot the test refuses. *)
Fixpoint gauss_jordan {T : pivot_test} (cols : list nat) (A U : matrix)
  : option (matrix * matrix) :=
  match cols with
  | [] => Some (A, U)
  | m :: rest =>
      if numerically_zero (A m m) then None
      else gauss_jordan rest (eliminate m A A) (eliminate m A U)
  end.

(** Each row of the augmented matrix divided by its pivot. *)
Definition normalise (A U : matrix) : matrix :=
  fun r c => (U r c / A r r)%R.

(** Modelled from the spec: [linalg_invert_matrix] of linalg.c, which is not
    among the sources.  Section 4.2: the matrix is inverted in
    place by Gauss-Jordan elimination with an augmented identity, column by
    column, the diagonal element at each step used as it is (no pivot
    search); the call reports failure when a diagonal pivot is
    (numerically) zero.  The result is the success flag and the contents of
    the block afterwards. *)
Definition linalg_invert_matrix {T : pivot_test} (data : buffer) (N : Z)
  : bool * buffer :=
  let n := Z.to_nat N in
  match gauss_jordan (seq 0 n) (of_flat n data) identity with
  | None => (false, data)
  | Some (A, U) => (true, to_flat n (normalise A U))
  end.

(** The test with no threshold: only the exact zero is refused. *)
Definition exactly_zero : pivot_test.
Proof.
  refine {| numerically_zero :=
              fun p => if Req_dec_T p 0 then true else false |}.
  destruct (Req_dec_T 0 0); [reflexivity|contradiction].
Defined.

(** ** [poly_polyfit] *)

(** Modelled from the spec: [fill_array_iterable] of ndarray.c, the
    conversion of a sequence into a flat numeric buffer (section 6): the
    items are copied in order from the start of the block. *)
Definition fill_array_iterable (array : buffer) (items : list mp_float_t)
  : result buffer :=
  store_each (fun z => z) (fun c => Ok c) array 0 items.

(** The two calling conventions; every sequence argument is one of the
    iterables [object_is_nditerable] accepts. *)
Inductive fit_args : Type :=
| Fit2 (ys : list mp_float_t) (degree : Z)
| Fit3 (xs ys : list mp_float_t) (degree : Z).

Record samples : Type := mk_samples
  { s_lenx : Z; s_leny : Z; s_deg : Z; s_x : buffer; s_y : buffer }.

Definition msg_degrees : string := "more degrees of freedom than data points".
Definition msg_lengths : string := "input vectors must be of equal length".
Definition msg_singular : string := "could not invert Vandermonde matrix".

(** Lines 101-104: [for (size_t i = 0; i < lenx; i++) x[i] = i;] *)
Definition fill_indices (fuel : nat) (lenx : Z) (x : buffer) : result buffer :=
  for_loop usize fuel 0 lenx (fun i x => store x i (IZR i)) x.

(** Lines 92-124. *)
Definition fit_prologue (fuel : nat) (args : fit_args) : M samples :=
  match args with
  | Fit2 ys degree =>
      let leny := u16 (Z.of_nat (length ys)) in
      let deg := u8 degree in
      if leny <? deg then mp_raise_ValueError msg_degrees
      else
        (let lenx := leny in
         x <- m_new "x" lenx ;;
         x <- lift (fill_indices fuel lenx x) ;;
         y <- m_new "y" leny ;;
         y <- lift (fill_array_iterable y ys) ;;
         ret (mk_samples lenx leny deg x y))%mem
  | Fit3 xs ys degree =>
      let lenx := u16 (Z.of_nat (length xs)) in
      let leny := u16 (Z.of_nat (length ys)) in
      if negb (lenx =? leny) then mp_raise_ValueError msg_lengths
      else
        let deg := u8 degree in
        if leny <? deg then mp_raise_ValueError msg_degrees
        else
          (x <- m_new "x" lenx ;;
           x <- lift (fill_array_iterable x xs) ;;
           y <- m_new "y" leny ;;
           y <- lift (fill_array_iterable y ys) ;;
           ret (mk_samples lenx leny deg x y))%mem
  end.

(** Lines 129-134, counters [uint8_t i] and [uint8_t j]. *)
Definition build_XT (fuel : nat) (x : buffer) (lenx leny deg : Z)
           (XT : buffer) : result buffer :=
  for_loop u8 fuel 0 leny
    (fun i XT =>
       XT <- store XT (i + 0 * lenx) 1%R ;;
       for_loop u8 fuel 1 (deg + 1)
         (fun j XT =>
            a <- load XT (i + (j - 1) * leny) ;;
            b <- load x i ;;
            store XT (i + j * leny) (a * b)%R) XT)%res XT.

(** Lines 138-149, counters [uint16_t i], [uint16_t j], [size_t k]. *)
Definition build_prod (fuel : nat) (XT : buffer) (lenx deg : Z)
           (prod : buffer) : result buffer :=
  for_loop u16 fuel 0 (deg + 1)
    (fun i prod =>
       for_loop u16 fuel 0 (deg + 1)
         (fun j prod =>
            sum <- for_loop usize fuel 0 lenx
                     (fun k sum =>
                        a <- load XT (j * lenx + k) ;;
                        b <- load XT (i * lenx + k) ;;
                        Ok (sum + a * b)%R) 0%R ;;
            store prod (j * (deg + 1) + i) sum) prod)%res prod.

(** Lines 162-168. *)
Definition build_XTy (fuel : nat) (XT y : buffer) (lenx deg : Z)
           (x : buffer) : result buffer :=
  for_loop u16 fuel 0 (deg + 1)
    (fun i x =>
       sum <- for_loop u16 fuel 0 lenx
                (fun j sum =>
                   a <- load XT (i * lenx + j) ;;
                   b <- load y j ;;
                   Ok (sum + a * b)%R) 0%R ;;
       store x i sum)%res x.

(** Lines 178-184. *)
Definition build_beta (fuel : nat) (prod x : buffer) (deg : Z)
           (betav : buffer) : result buffer :=
  for_loop u16 fuel 0 (deg + 1)
    (fun i betav =>
       sum <- for_loop u16 fuel 0 (deg + 1)
                (fun j sum =>
                   a <- load prod (i * (deg + 1) + j) ;;
                   b <- load x j ;;
                   Ok (sum + a * b)%R) 0%R ;;
       store betav i sum)%res betav.

(** Lines 187-190: [SWAP(mp_float_t, betav[i], betav[deg-i])]. *)
Definition reverse_beta (fuel : nat) (deg : Z) (betav : buffer)
  : result buffer :=
  for_loop u8 fuel 0 ((deg + 1) / 2)
    (fun i betav =>
       tmp <- load betav i ;;
       b <- load betav (deg - i) ;;
       betav <- store betav i b ;;
       store betav (deg - i) tmp)%res betav.

(** Lines 128-191. *)
Definition fit_solve {T : pivot_test} (fuel : nat) (s : samples)
  : M ndarray :=
  (let lenx := s_lenx s in
   let leny := s_leny s in
   let deg := s_deg s in
   XT <- m_new "XT" ((deg + 1) * leny) ;;
   XT <- lift (build_XT fuel (s_x s) lenx leny deg XT) ;;
   prod <- m_new "prod" ((deg + 1) * (deg + 1)) ;;
   prod <- lift (build_prod fuel XT lenx deg prod) ;;
   let inv := linalg_invert_matrix prod (deg + 1) in
   if negb (fst inv) then
     m_del "XT" ;;; m_del "x" ;;; m_del "y" ;;; m_del "prod" ;;;
     mp_raise_ValueError msg_singular
   else
     let prod := snd inv in
     x <- lift (build_XTy fuel XT (s_y s) lenx deg (s_x s)) ;;
     m_del "XT" ;;;
     beta <- create_new_ndarray "beta" (deg + 1) 1 ;;
     m_del "y" ;;;
     betav <- lift (build_beta fuel prod x deg (nd_items beta)) ;;
     m_del "x" ;;;
     m_del "prod" ;;;
     betav <- lift (reverse_beta fuel deg betav) ;;
     ret (mk_ndarray (deg + 1) 1 betav))%mem.

Definition poly_polyfit {T : pivot_test} (fuel : nat) (args : fit_args)
  : M ndarray :=
  (s <- fit_prologue fuel args ;; fit_solve fuel s)%mem.

(** ** [poly_interp] *)

(** [array->len]. *)
Definition alen (a : ndarray) : Z := len (nd_items a).

(** Lines 239-248: the search loop, on [size_t] indices with
    [left_index <= right_index]. *)
Equations? bsearch (xp : buffer) (x_value : mp_float_t)
          (left_index right_index : Z) : result (Z * Z)
  by wf (Z.to_nat (right_index - left_index)) lt :=
  bsearch xp x_value left_index right_index
    with Z_lt_dec 1 (right_index - left_index) => {
    | right _ := Ok (left_index, right_index)
    | left _
        with load xp (left_index + (right_index - left_index) / 2) => {
        | Ok xp_middle with Rle_dec x_value xp_middle => {
            | left _ :=
                bsearch xp x_value left_index
                        (left_index + (right_index - left_index) / 2)
            | right _ :=
                bsearch xp x_value
                        (left_index + (right_index - left_index) / 2)
                        right_index }
        | Raise e := Raise e
        | Fault := Fault
        | Timeout := Timeout } }.
Proof.
  all: assert (H2 := Z.div_lt (right_index - left_index) 2);
    assert (H3 := Z.div_str_pos (right_index - left_index) 2); lia.
Qed.

(** Lines 231-254: the value at one query point. *)
Definition interp_point (xp fp : buffer) (xp_left xp_right : mp_float_t)
           (left_value right_value : mp_float_t) (x_value : mp_float_t)
  : result mp_float_t :=
  if Rle_dec x_value xp_left then Ok left_value
  else if Rge_dec x_value xp_right then Ok right_value
  else
    (lr <- bsearch xp x_value 0 (len xp - 1) ;;
     let left_index := fst lr in
     let right_index := snd lr in
     xp_left_ <- load xp left_index ;;
     xp_right_ <- load xp right_index ;;
     fp_left <- load fp left_index ;;
     fp_right <- load fp right_index ;;
     Ok (fp_left + (x_value - xp_left_) * (fp_right - fp_left)
                   / (xp_right_ - xp_left_))%R)%res.

(** Line 230: [for (size_t i = 0; i < x->array->len; i++, yarray++)]; the
    counter and its bound have the same type, so the loop is the walk over
    the items of [x]. *)
Definition interp_points (xp fp : buffer) (xp_left xp_right : mp_float_t)
           (left_value right_value : mp_float_t)
           (yarray : buffer) (xs : list mp_float_t) : result buffer :=
  store_each (fun z => z)
             (interp_point xp fp xp_left xp_right left_value right_value)
             yarray 0 xs.

Definition msg_interp : string :=
  "interp is defined for 1D arrays of equal length".

(** Line 211-212: the condition under which [poly_interp] raises. *)
Definition interp_rejects (xp fp : ndarray) : bool :=
  (negb (nd_m xp =? 1) && negb (nd_n xp =? 1))
  || (negb (nd_m fp =? 1) && negb (nd_n fp =? 1))
  || (alen xp <? 2) || (alen fp <? 2)
  || negb (alen xp =? alen fp).

(** [x], [xp], [fp] are the arrays [ndarray_from_mp_obj] returns; [left]
    and [right] are [None] for [mp_const_none].  The read access of
    section 6, [ndarray_get_float_value(items, typecode, i)], is the [load]
    of cell [i]. *)
Definition poly_interp (x xp fp : ndarray) (left right : option mp_float_t)
  : M ndarray :=
  if interp_rejects xp fp then mp_raise_ValueError msg_interp
  else
    (y <- create_new_ndarray "y" (nd_m x) (nd_n x) ;;
     xp_left <- lift (load (nd_items xp) 0) ;;
     xp_right <- lift (load (nd_items xp) (alen xp - 1)) ;;
     left_value <- match left with
                   | None => lift (load (nd_items fp) 0)
                   | Some v => ret v
                   end ;;
     right_value <- match right with
                    | None => lift (load (nd_items fp) (alen fp - 1))
                    | Some v => ret v
                    end ;;
     yarray <- lift (interp_points (nd_items xp) (nd_items fp)
                                   xp_left xp_right left_value right_value
                                   (nd_items y) (nd_items x)) ;;
     ret (mk_ndarray (nd_m x) (nd_n x) yarray))%mem.

(** An array whose item count is the product of its dimensions. *)
Definition well_formed (a : ndarray) : Prop :=
  0 <= nd_m a /\ 0 <= nd_n a /\ alen a = nd_m a * nd_n a.

(** ** Notions used by the statements *)

(** The cell [b[i]], zero outside the block. *)
Definition get (b : buffer) (i : Z) : mp_float_t := nth (Z.to_nat i) b 0%R.

(** The outcome of a call, beside the ledger it leaves. *)
Definition outcome {A : Type} (r : result A * ledger) : result A := fst r.

(** The sum of [f 0], ..., [f (n-1)], accumulated from the left as the
    loops do. *)
Fixpoint sum_n (f : nat -> mp_float_t) (n : nat) : mp_float_t :=
  match n with
  | O => 0%R
  | S n' => (sum_n f n' + f n')%R
  end.

Definition sumZ (f : Z -> mp_float_t) (n : Z) : mp_float_t :=
  sum_n (fun k => f (Z.of_nat k)) (Z.to_nat n).

(** The matrices of section 4.3: the entry [(j, i)] of the product of the
    design matrix with its transpose, and the entry [i] of its product
    with [y]. *)
Definition gram (x : buffer) (n : Z) (j i : Z) : mp_float_t :=
  sumZ (fun k => get x k ^ Z.to_nat j * get x k ^ Z.to_nat i)%R n.

Definition moment (x y : buffer) (n : Z) (i : Z) : mp_float_t :=
  sumZ (fun k => get x k ^ Z.to_nat i * get y k)%R n.

(** The block [prod] when the inverter is called: row [j], column [i] at
    [j * (deg+1) + i]. *)
Definition gram_flat (x : buffer) (n deg : Z) : buffer :=
  map (fun c => gram x n (Z.of_nat c / (deg + 1)) (Z.of_nat c mod (deg + 1)))
      (seq 0 (Z.to_nat ((deg + 1) * (deg + 1)))).

(** The coefficients [fit] returns when the inversion succeeds: the rows of
    the inverse applied to the moments, last row first. *)
Definition fit_beta {T : pivot_test} (x y : buffer) (n deg : Z) : buffer :=
  let inv := snd (linalg_invert_matrix (gram_flat x n deg) (deg + 1)) in
  map (fun i => sumZ (fun j => get inv ((deg - Z.of_nat i) * (deg + 1) + j)
                               * moment x y n j)%R (deg + 1))
      (seq 0 (Z.to_nat (deg + 1))).

(** The sample points of the two-argument mode: [0, 1, ..., n-1]. *)
Definition indices (n : Z) : buffer :=
  map (fun k => IZR (Z.of_nat k)) (seq 0 (Z.to_nat n)).

(** [v] is in the kernel of the leading [N] by [N] block of [A]. *)
Definition kills (N : nat) (A : matrix) (v : nat -> mp_float_t) : Prop :=
  forall r, (r < N)%nat -> sum_n (fun c => A r c * v c)%R N = 0%R.

(** The first [m] columns of the leading [N] by [N] block of [A] are reduced:
    a nonzero diagonal entry and zeros elsewhere. *)
Definition cleared (N : nat) (A : matrix) (m : nat) : Prop :=
  forall c, (c < m)%nat ->
    A c c <> 0%R /\ forall r, (r < N)%nat -> r <> c -> A r c = 0%R.

(** A call that exhausts every amount of fuel: one of its loops never
    ends. *)
Definition never_returns {A : Type} (run : nat -> result A * ledger) : Prop :=
  forall fuel, outcome (run fuel) = Timeout.

(** A computation that raises no exception. *)
Definition quiet {A : Type} (r : result A) : Prop := forall e, r <> Raise e.

(** The number of samples and the degree a call of [polyfit] is given. *)
Definition fit_count (args : fit_args) : Z :=
  match args with
  | Fit2 ys _ => len ys
  | Fit3 xs ys _ => Z.max (len xs) (len ys)
  end.

Definition fit_degree (args : fit_args) : Z :=
  match args with
  | Fit2 _ degree => degree
  | Fit3 _ _ degree => degree
  end.

(** Noise-free samples of the line [a * i + b] at [i = 0, ..., n-1]. *)
Definition linear_samples (a b : mp_float_t) (n : Z) : buffer :=
  map (fun k => (a * IZR (Z.of_nat k) + b)%R) (seq 0 (Z.to_nat n)).

(** Strictly ascending knots. *)
Definition ascending (xp : buffer) : Prop :=
  forall i, 0 <= i -> i + 1 < len xp -> (get xp i < get xp (i + 1))%R.

(** The knots the interpolator is specified to refuse. *)
Definition invalid_knots (xp fp : ndarray) : Prop :=
  alen xp <> alen fp \/ alen xp < 2 \/ alen fp < 2 \/
  (1 < nd_m xp /\ 1 < nd_n xp) \/ (1 < nd_m fp /\ 1 < nd_n fp).

Definition default (o : option mp_float_t) (d : mp_float_t) : mp_float_t :=
  match o with
  | Some v => v
  | None => d
  end.

(** [lo, lo+1] brackets [x]: [xp[lo] < x <= xp[lo+1]]. *)
Definition bracket (xp : buffer) (x : mp_float_t) (lo : Z) : Prop :=
  0 <= lo /\ lo + 1 < len xp /\
  (get xp lo < x)%R /\ (x <= get xp (lo + 1))%R.

(** The value the specification assigns to a query point [x]. *)
Definition interpolates (xp fp : buffer) (left right : option mp_float_t)
           (x v : mp_float_t) : Prop :=
  ((x <= get xp 0)%R -> v = default left (get fp 0)) /\
  ((x >= get xp (len xp - 1))%R ->
   v = default right (get fp (len fp - 1))) /\
  ((get xp 0 < x)%R -> (x < get xp (len xp - 1))%R ->
   exists lo,
     bracket xp x lo /\
     (forall lo', bracket xp x lo' -> lo' = lo) /\
     bsearch xp x 0 (len xp - 1) = Ok (lo, lo + 1) /\
     v = (get fp lo + (x - get xp lo) * (get fp (lo + 1) - get fp lo)
                      / (get xp (lo + 1) - get xp lo))%R).

(** The value [poly_interp] stores for a query point. *)
Definition interp_value (xp fp : buffer) (left right : option mp_float_t)
           (x : mp_float_t) : mp_float_t :=
  match interp_point xp fp (get xp 0) (get xp (len xp - 1))
                     (default left (get fp 0))
                     (default right (get fp (len fp - 1))) x with
  | Ok v => v
  | _ => 0%R
  end.

(** ** The type test and the entry of [poly_polyfit] *)

(** The types [object_is_nditerable] tells apart; [mp_type_other] stands
    for every other type of the host. *)
Inductive mp_type : Type :=
| ulab_ndarray_type
| mp_type_tuple
| mp_type_list
| mp_type_range
| mp_type_other.

(** An argument of the host: its type and the numbers its iterator
    yields. *)
Record mp_obj : Type := mk_obj
  { ob_type : mp_type; ob_items : list mp_float_t }.

(** Lines 22-30. *)
Definition object_is_nditerable (o_in : mp_obj) : bool :=
  match ob_type o_in with
  | ulab_ndarray_type => true
  | mp_type_tuple => true
  | mp_type_list => true
  | mp_type_range => true
  | mp_type_other => false
  end.

Definition msg_nargs : string := "number of arguments must be 2, or 3".
Definition msg_iterable : string := "input data must be an iterable".

(** Lines 81-87 and 108-110 in front of the rest of [poly_polyfit]:
    [arg0] is [args[0]], [arg1] is [args[1]] of a call with three
    arguments, and [degree] is the integer of the last argument. *)
Definition poly_polyfit_entry {T : pivot_test} (fuel : nat) (n_args : Z)
           (arg0 arg1 : mp_obj) (degree : Z) : M ndarray :=
  if negb (n_args =? 2) && negb (n_args =? 3)
  then mp_raise_ValueError msg_nargs
  else if negb (object_is_nditerable arg0)
  then mp_raise_ValueError msg_iterable
  else if n_args =? 2
  then poly_polyfit fuel (Fit2 (ob_items arg0) degree)
  else if negb (object_is_nditerable arg1)
  then mp_raise_ValueError msg_iterable
  else poly_polyfit fuel (Fit3 (ob_items arg0) (ob_items arg1) degree).

(** The mean of the values of a block. *)
Definition mean (ys : buffer) : mp_float_t :=
  (sumZ (fun k => get ys k) (len ys) / IZR (len ys))%R.

(** The product of the leading [N] by [N] blocks of two matrices. *)
Definition mprod (N : nat) (A B : matrix) : matrix :=
  fun r c => sum_n (fun k => A r k * B k c)%R N.

(** The coefficient of [x^s] in a vector that lists the highest power
    first, as [polyfit] returns it and [polyval] reads it. *)
Definition coef (c : list mp_float_t) (s : nat) : mp_float_t :=
  nth (length c - 1 - s) c 0%R.

(** The sum over the samples of the squared distance between [y] and the
    polynomial of coefficients [c] at [x]. *)
Definition squared_error (c : list mp_float_t) (x y : buffer) : mp_float_t :=
  sumZ (fun k => (get y k - direct_sum c (get x k))
                 * (get y k - direct_sum c (get x k)))%R (len x).

(** Values that never decrease from one knot to the next. *)
Definition nondecreasing (fp : buffer) : Prop :=
  forall i, 0 <= i -> i + 1 < len fp -> (get fp i <= get fp (i + 1))%R.

(* ================================================================== *)
(** * Part II: properties                                              *)
(* ================================================================== *)

(** ** Blocks *)

Lemma length_upd k v b : length (upd k v b) = length b.
Proof.
  revert k; induction b as [|a b IH]; intros [|k]; simpl; auto.
Qed.

Lemma len_upd k v b : len (upd k v b) = len b.
Proof. unfold len; now rewrite length_upd. Qed.

Lemma nth_upd_same k v b d : (k < length b)%nat -> nth k (upd k v b) d = v.
Proof.
  revert k; induction b as [|a b IH]; intros [|k] H; simpl in *;
    try lia; auto.
  apply IH; lia.
Qed.

Lemma nth_upd_other k k' v b d : k <> k' -> nth k' (upd k v b) d = nth k' b d.
Proof.
  revert k k'; induction b as [|a b IH]; intros [|k] [|k'] H; simpl;
    auto; try lia.
Qed.

Lemma len_nonneg b : 0 <= len b.
Proof. unfold len; lia. Qed.

Lemma len_repeat (v : mp_float_t) n : len (repeat v n) = Z.of_nat n.
Proof. unfold len; now rewrite repeat_length. Qed.

Lemma in_bounds_true b i : 0 <= i < len b -> in_bounds b i = true.
Proof. unfold in_bounds; intros; apply andb_true_intro; split; lia. Qed.

Lemma in_bounds_false b i : i < 0 \/ len b <= i -> in_bounds b i = false.
Proof.
  unfold in_bounds; intros [H|H].
  - replace (0 <=? i) with false by lia. reflexivity.
  - replace (i <? len b) with false by lia. apply andb_false_r.
Qed.

Lemma load_ok b i : 0 <= i < len b -> load b i = Ok (get b i).
Proof. intros H; unfold load; now rewrite in_bounds_true. Qed.

Lemma store_ok b i v :
  0 <= i < len b -> store b i v = Ok (upd (Z.to_nat i) v b).
Proof. intros H; unfold store; now rewrite in_bounds_true. Qed.

Lemma store_fault b i v : i < 0 \/ len b <= i -> store b i v = Fault.
Proof. intros H; unfold store; now rewrite in_bounds_false. Qed.

Lemma load_fault b i : i < 0 \/ len b <= i -> load b i = Fault.
Proof. intros H; unfold load; now rewrite in_bounds_false. Qed.


Lemma get_upd_same b i v :
  0 <= i < len b -> get (upd (Z.to_nat i) v b) i = v.
Proof. unfold get, len; intros; apply nth_upd_same; lia. Qed.

Lemma get_upd_other b i k v :
  0 <= i -> 0 <= k -> k <> i -> get (upd (Z.to_nat i) v b) k = get b k.
Proof. unfold get; intros; apply nth_upd_other; lia. Qed.

Lemma get_upd b i k v :
  0 <= i < len b -> 0 <= k ->
  get (upd (Z.to_nat i) v b) k = if k =? i then v else get b k.
Proof.
  intros Hi Hk. destruct (Z.eqb_spec k i) as [->|Hne].
  - now apply get_upd_same.
  - apply get_upd_other; lia.
Qed.

Lemma buffer_ext (a b : buffer) :
  len a = len b -> (forall k, 0 <= k < len a -> get a k = get b k) -> a = b.
Proof.
  unfold len, get; intros Hl H.
  apply (nth_ext a b 0%R 0%R); [lia|].
  intros n Hn. specialize (H (Z.of_nat n)).
  rewrite Nat2Z.id in H. apply H; lia.
Qed.

Lemma get_cons_0 a b : get (a :: b) 0 = a.
Proof. reflexivity. Qed.

Lemma get_cons_succ a b k : 0 <= k -> get (a :: b) (k + 1) = get b k.
Proof.
  intros Hk; unfold get.
  replace (Z.to_nat (k + 1)) with (S (Z.to_nat k)) by lia.
  reflexivity.
Qed.

Lemma get_map_seq (f : nat -> mp_float_t) n k :
  0 <= k < Z.of_nat n -> get (map f (seq 0 n)) k = f (Z.to_nat k).
Proof.
  intros Hk; unfold get.
  rewrite (nth_indep _ 0%R (f 0%nat)) by (rewrite length_map, length_seq; lia).
  rewrite map_nth, seq_nth by lia. reflexivity.
Qed.

(** ** Counting loops *)

Lemma for_loop_exit {S : Type} wrap fuel i bound body (s : S) :
  bound <= i -> for_loop wrap (Datatypes.S fuel) i bound body s = Ok s.
Proof. intros H; simpl. now replace (i <? bound) with false by lia. Qed.

(** A loop whose counter never wraps below its bound runs to the bound and
    carries an invariant there. *)
Lemma for_loop_inv {S : Type} (wrap : Z -> Z) (Inv : Z -> S -> Prop)
      (bound : Z) (body : Z -> S -> result S) (i0 : Z) :
  (forall z, i0 < z <= bound -> wrap z = z) ->
  (forall i s, i0 <= i < bound -> Inv i s ->
               exists s', body i s = Ok s' /\ Inv (i + 1) s') ->
  forall fuel i s,
    i0 <= i <= bound -> Inv i s -> (Z.to_nat (bound - i) < fuel)%nat ->
    exists s', for_loop wrap fuel i bound body s = Ok s' /\ Inv bound s'.
Proof.
  intros Hwrap Hbody fuel.
  induction fuel as [|fuel IH]; intros i s Hi HInv Hfuel; [lia|].
  destruct (Z.eq_dec i bound) as [->|Hne].
  - exists s. split; [apply for_loop_exit; lia|assumption].
  - simpl. replace (i <? bound) with true by lia.
    destruct (Hbody i s) as [s' [Hb HI]]; [lia|assumption|].
    rewrite Hb; simpl. rewrite Hwrap by lia.
    apply IH; [lia|assumption|lia].
Qed.

(** A loop whose counter always wraps back below its bound never ends. *)
Lemma for_loop_spin {S : Type} (wrap : Z -> Z) (Inv : S -> Prop)
      (bound : Z) (body : Z -> S -> result S) :
  (forall z, 0 <= wrap z < bound) ->
  (forall i s, 0 <= i < bound -> Inv s ->
               body i s = Timeout \/ exists s', body i s = Ok s' /\ Inv s') ->
  forall fuel i s,
    0 <= i < bound -> Inv s -> for_loop wrap fuel i bound body s = Timeout.
Proof.
  intros Hwrap Hbody fuel.
  induction fuel as [|fuel IH]; intros i s Hi HInv; [reflexivity|].
  simpl. replace (i <? bound) with true by lia.
  destruct (Hbody i s Hi HInv) as [Hb|[s' [Hb HI]]]; rewrite Hb; simpl; auto.
Qed.

(** A loop with fewer rounds of fuel than it has iterations runs out. *)
Lemma for_loop_starve {S : Type} (wrap : Z -> Z) (Inv : Z -> S -> Prop)
      (bound : Z) (body : Z -> S -> result S) (i0 : Z) :
  (forall z, i0 < z <= bound -> wrap z = z) ->
  (forall i s, i0 <= i < bound -> Inv i s ->
               exists s', body i s = Ok s' /\ Inv (i + 1) s') ->
  forall fuel i s,
    i0 <= i -> i + Z.of_nat fuel <= bound -> Inv i s ->
    for_loop wrap fuel i bound body s = Timeout.
Proof.
  intros Hwrap Hbody fuel.
  induction fuel as [|fuel IH]; intros i s Hi Hf HInv; [reflexivity|].
  simpl. replace (i <? bound) with true by lia.
  destruct (Hbody i s) as [s' [Hb HI]]; [lia|assumption|].
  rewrite Hb; simpl. rewrite Hwrap by lia.
  apply IH; [lia|lia|assumption].
Qed.

(** A loop whose counter does not wrap before its bound ends there or runs
    out of fuel. *)
Lemma for_loop_runs {S : Type} (wrap : Z -> Z) (Inv : Z -> S -> Prop)
      (bound : Z) (body : Z -> S -> result S) (i0 : Z) :
  (forall z, i0 < z <= bound -> wrap z = z) ->
  (forall i s, i0 <= i < bound -> Inv i s ->
               exists s', body i s = Ok s' /\ Inv (i + 1) s') ->
  forall fuel i s,
    i0 <= i <= bound -> Inv i s ->
    for_loop wrap fuel i bound body s = Timeout \/
    exists s', for_loop wrap fuel i bound body s = Ok s' /\ Inv bound s'.
Proof.
  intros Hw Hb fuel i s Hi HI.
  destruct (le_lt_dec fuel (Z.to_nat (bound - i))) as [Hs|Hl].
  - left. apply (for_loop_starve wrap Inv bound body i0); auto; lia.
  - right. apply (for_loop_inv wrap Inv bound body i0); auto.
Qed.

(** A loop runs its first rounds as long as its counter does not wrap. *)
Lemma for_loop_prefix {S : Type} (wrap : Z -> Z) (Inv : Z -> S -> Prop)
      (bound : Z) (body : Z -> S -> result S) (i0 mid : Z) :
  mid <= bound ->
  (forall z, i0 < z <= mid -> wrap z = z) ->
  (forall i s, i0 <= i < mid -> Inv i s ->
               exists s', body i s = Ok s' /\ Inv (i + 1) s') ->
  forall k fuel i s,
    i0 <= i -> i + Z.of_nat k = mid -> Inv i s ->
    exists s', Inv mid s' /\
      for_loop wrap (k + fuel) i bound body s
      = for_loop wrap fuel mid bound body s'.
Proof.
  intros Hm Hw Hb k. induction k as [|k IH]; intros fuel i s Hi Hk HI.
  - exists s. replace mid with i by lia. auto.
  - cbn [Nat.add for_loop]. replace (i <? bound) with true by lia.
    destruct (Hb i s) as [s1 [E1 HI1]]; [lia|assumption|].
    rewrite E1. cbn [rbind]. rewrite Hw by lia.
    apply IH; [lia|lia|assumption].
Qed.

Lemma for_loop_step {S : Type} wrap fuel i bound body (s : S) :
  i < bound ->
  for_loop wrap (Datatypes.S fuel) i bound body s
  = (s' <- body i s ;; for_loop wrap fuel (wrap (i + 1)) bound body s')%res.
Proof. intros H; simpl. now replace (i <? bound) with true by lia. Qed.

Lemma u8_small z : 0 <= z < 256 -> u8 z = z.
Proof. intros; unfold u8; now apply Z.mod_small. Qed.

Lemma u16_small z : 0 <= z < 65536 -> u16 z = z.
Proof. intros; unfold u16; now apply Z.mod_small. Qed.

Lemma usize_small z : 0 <= z < 4294967296 -> usize z = z.
Proof. intros; unfold usize; now apply Z.mod_small. Qed.

Lemma u8_range z : 0 <= u8 z < 256.
Proof. unfold u8; apply Z.mod_pos_bound; lia. Qed.

Lemma u16_range_lt z : 0 <= u16 z < 65536.
Proof. unfold u16; apply Z.mod_pos_bound; lia. Qed.

(** ** Walking an iterable *)

Lemma store_each_spec wrap (f : R -> result R) (g : R -> R) items :
  (forall c, In c items -> f c = Ok (g c)) ->
  forall buf i,
    0 <= i -> i + len items <= len buf ->
    (forall z, i < z <= i + len items -> wrap z = z) ->
    exists buf', store_each wrap f buf i items = Ok buf' /\
      len buf' = len buf /\
      forall k, 0 <= k ->
        get buf' k = if (i <=? k) && (k <? i + len items)
                     then g (get items (k - i)) else get buf k.
Proof.
  induction items as [|c rest IH]; intros Hf buf i Hi Hb Hw.
  - exists buf; simpl; repeat split; auto.
    intros k Hk. change (len []) with 0.
    destruct (Z.leb_spec i k), (Z.ltb_spec k (i + 0)); simpl; auto; lia.
  - assert (Hlen : len (c :: rest) = len rest + 1)
      by (unfold len; simpl length; lia).
    rewrite Hlen in *. pose proof (len_nonneg rest) as Hr.
    simpl. rewrite Hf by (now left). simpl.
    rewrite store_ok by lia. simpl.
    rewrite Hw by lia.
    destruct (IH (fun c0 H => Hf c0 (or_intror H))
                 (upd (Z.to_nat i) (g c) buf) (i + 1))
      as [p' [E [L G]]]; try (rewrite ?len_upd; lia).
    { intros z Hz; apply Hw; lia. }
    exists p'; split; [exact E|]. split; [now rewrite L, len_upd|].
    intros k Hk. rewrite G by assumption.
    rewrite get_upd by lia.
    destruct (Z.eqb_spec k i) as [->|Hne].
    + replace (i + 1 <=? i) with false by lia.
      replace (i <=? i) with true by lia.
      replace (i <? i + (len rest + 1)) with true by lia.
      cbn [andb]. rewrite Z.sub_diag; reflexivity.
    + destruct (Z.leb_spec (i + 1) k), (Z.leb_spec i k),
        (Z.ltb_spec k (i + 1 + len rest)),
        (Z.ltb_spec k (i + (len rest + 1)));
        cbn [andb]; auto; try lia.
      replace (k - i) with (k - (i + 1) + 1) by lia.
      rewrite get_cons_succ by lia. reflexivity.
Qed.

Lemma get_map (g : R -> R) (l : list R) k :
  0 <= k < len l -> get (map g l) k = g (get l k).
Proof.
  unfold get, len; intros Hk.
  rewrite (nth_indep _ 0%R (g 0%R)) by (rewrite length_map; lia).
  apply map_nth.
Qed.

Lemma len_map (g : R -> R) (l : list R) : len (map g l) = len l.
Proof. unfold len; now rewrite length_map. Qed.

(** Filling a block of exactly the right size leaves the images of the
    items, in order. *)
Lemma store_each_all wrap (f : R -> result R) (g : R -> R) items buf :
  (forall c, In c items -> f c = Ok (g c)) ->
  len buf = len items ->
  (forall z, 0 < z <= len items -> wrap z = z) ->
  store_each wrap f buf 0 items = Ok (map g items).
Proof.
  intros Hf Hl Hw.
  destruct (store_each_spec wrap f g items Hf buf 0) as [b' [E [L G]]];
    try lia.
  { intros z Hz; apply Hw; lia. }
  rewrite E; f_equal.
  apply buffer_ext; [rewrite len_map; lia|].
  intros k Hk. rewrite G by lia.
  replace (0 <=? k) with true by lia.
  replace (k <? 0 + len items) with true by lia. simpl.
  rewrite Z.sub_0_r, get_map by lia. reflexivity.
Qed.

(** ** The evaluator *)

Lemma direct_sum_snoc l a x :
  direct_sum (l ++ [a]) x = (direct_sum l x * x + a)%R.
Proof.
  induction l as [|b l IH]; simpl.
  - ring.
  - rewrite IH, length_app; simpl.
    replace (length l + 1)%nat with (S (length l)) by lia. simpl. ring.
Qed.

Lemma firstn_succ_get (c : buffer) k :
  0 <= k < len c ->
  firstn (Z.to_nat (k + 1)) c = firstn (Z.to_nat k) c ++ [get c k].
Proof.
  unfold len, get; intros Hk.
  replace (Z.to_nat (k + 1)) with (S (Z.to_nat k)) by lia.
  assert (Hn : (Z.to_nat k < length c)%nat) by lia.
  revert Hn. generalize (Z.to_nat k). clear.
  intros n; revert n; induction c as [|a c IH]; intros [|n] H;
    simpl in *; try lia; auto.
  f_equal. apply IH; lia.
Qed.

Lemma horner_direct_sum fuel (c : buffer) x :
  1 <= len c <= 255 -> (Z.to_nat (len c) <= fuel)%nat ->
  horner fuel c (len c) x = Ok (direct_sum c x).
Proof.
  intros Hc Hfuel. unfold horner.
  rewrite load_ok by lia. simpl.
  destruct (for_loop_inv u8
              (fun j y => y = direct_sum (firstn (Z.to_nat (j + 1)) c) x)
              (len c - 1)
              (fun j y => c0 <- load c (j + 1) ;; Ok (y * x + c0)%R)%res 0)
    with (fuel := fuel) (i := 0) (s := get c 0) as [y [E Hy]].
  - intros z Hz; apply u8_small; lia.
  - intros j y Hj ->. rewrite load_ok by lia. simpl.
    eexists; split; [reflexivity|].
    rewrite (firstn_succ_get c (j + 1)) by lia.
    now rewrite direct_sum_snoc.
  - lia.
  - destruct c as [|a c]; [unfold len in Hc; simpl in Hc; lia|].
    simpl. rewrite get_cons_0. ring.
  - lia.
  - rewrite E, Hy. f_equal. f_equal.
    replace (len c - 1 + 1) with (len c) by lia.
    unfold len; rewrite Nat2Z.id. apply firstn_all.
Qed.

Lemma read_coefficients_all c :
  len c <= 255 ->
  read_coefficients (repeat 0%R (Z.to_nat (len c))) c = Ok c.
Proof.
  intros Hc. unfold read_coefficients.
  rewrite (store_each_all u16 _ (fun a => a)).
  - now rewrite map_id.
  - reflexivity.
  - rewrite len_repeat. pose proof (len_nonneg c). lia.
  - intros z Hz; apply u16_small; lia.
Qed.

(** On at most 255 coefficients and fewer than 2^16 points, as many as
    the result has cells, [polyval] returns the polynomial at each point and
    leaves only its result allocated. *)
Lemma poly_polyval_spec fuel c o_x h :
  1 <= len c <= 255 ->
  len (points_items o_x) = points_m o_x * points_n o_x ->
  len (points_items o_x) <= 65535 -> (Z.to_nat (len c) <= fuel)%nat ->
  poly_polyval fuel c o_x h
  = (Ok (mk_ndarray (points_m o_x) (points_n o_x)
                    (map (direct_sum c) (points_items o_x))),
     ("out", points_m o_x * points_n o_x) :: h).
Proof.
  intros Hc Hmn Hx Hfuel.
  unfold poly_polyval, bind, create_new_ndarray, m_new, lift, m_del, ret.
  fold (len c). rewrite (u8_small (len c)) by lia.
  rewrite read_coefficients_all by lia.
  unfold eval_points. cbn [nd_items].
  rewrite (store_each_all u16 _ (direct_sum c)).
  - reflexivity.
  - intros x _. now apply horner_direct_sum.
  - rewrite len_repeat. pose proof (len_nonneg (points_items o_x)). lia.
  - intros z Hz; apply u16_small; lia.
Qed.

(** [2 x^2 + 1] at [x = 3], the point in a list of one item. *)
Example polyval_at_3 :
  poly_polyval 3 [2; 0; 1]%R (other_points 1 [3%R]) []
  = (Ok (mk_ndarray 1 1 [19%R]), [("out", 1)]).
Proof.
  rewrite poly_polyval_spec by (unfold len; simpl; lia).
  cbn [map direct_sum length points_m points_n points_items].
  do 3 f_equal. simpl. f_equal. ring.
Qed.

(** C1: the claim fails at degree 255.  With 256 coefficients the 8-bit
    count [plen] of line 57 is 0, the block [p] has no cell, and the first
    [p[i] = item] of line 62 is written outside it. *)
Theorem polyval_256_coefficients_fault :
  outcome (poly_polyval 300 (repeat 1%R 256) (other_points 1 [1%R]) [])
  = Fault.
Proof. reflexivity. Qed.

(** C4: an empty coefficient sequence raises nothing, whatever the points
    argument.  With a point to evaluate, line 68 reads [p[0]] from a block
    of no cells; with no point, the call returns its result array, which
    for an empty sequence of points is the empty array. *)
Theorem polyval_empty_coefficients_not_rejected :
  forall (fuel : nat) (o_x : points) (h : ledger),
    (forall x xs, points_items o_x = x :: xs ->
                  outcome (poly_polyval fuel [] o_x h) = Fault) /\
    (points_items o_x = [] ->
     exists items,
       outcome (poly_polyval fuel [] o_x h)
       = Ok (mk_ndarray (points_m o_x) (points_n o_x) items) /\
       len items = Z.max 0 (points_m o_x * points_n o_x)) /\
    outcome (poly_polyval fuel [] (other_points 0 []) h)
    = Ok (mk_ndarray 1 0 []).
Proof.
  intros fuel o_x h. split; [|split].
  - intros x xs E.
    unfold poly_polyval, outcome, bind, create_new_ndarray, m_new, lift.
    rewrite E. reflexivity.
  - intros E.
    unfold poly_polyval, outcome, bind, create_new_ndarray, m_new, lift,
      m_del, ret.
    rewrite E. cbn [fst]. eexists. split; [reflexivity|].
    cbn [nd_items]. rewrite len_repeat. lia.
  - reflexivity.
Qed.

(** ** The interpolator *)

Lemma bsearch_bracket xp x : forall l r,
  0 <= l -> l < r -> r < len xp ->
  exists lo, bsearch xp x l r = Ok (lo, lo + 1) /\ l <= lo /\ lo + 1 <= r /\
    ((get xp l < x)%R -> (x <= get xp r)%R ->
     (get xp lo < x)%R /\ (x <= get xp (lo + 1))%R).
Proof.
  intros l r. funelim (bsearch xp x l r); intros Hl Hlr Hr.
  - exists left_index. replace (left_index + 1) with right_index by lia.
    repeat split; auto; lia.
  - rewrite load_ok in Heq; [discriminate|].
    pose proof (Z.div_pos (right_index - left_index) 2).
    pose proof (Z.div_lt (right_index - left_index) 2). lia.
  - rewrite load_ok in Heq; [discriminate|].
    pose proof (Z.div_pos (right_index - left_index) 2).
    pose proof (Z.div_lt (right_index - left_index) 2). lia.
  - rewrite load_ok in Heq; [discriminate|].
    pose proof (Z.div_pos (right_index - left_index) 2).
    pose proof (Z.div_lt (right_index - left_index) 2). lia.
  - pose proof (Z.div_str_pos (right_index - left_index) 2).
    pose proof (Z.div_lt (right_index - left_index) 2).
    rewrite load_ok in Heq0 by lia. injection Heq0 as <-.
    destruct H as [lo [E [B1 [B2 B3]]]]; try lia.
    exists lo. repeat split; auto; try lia; apply B3; auto.
  - pose proof (Z.div_str_pos (right_index - left_index) 2).
    pose proof (Z.div_lt (right_index - left_index) 2).
    rewrite load_ok in Heq0 by lia. injection Heq0 as <-.
    destruct H as [lo [E [B1 [B2 B3]]]]; try lia.
    exists lo. repeat split; auto; try lia; apply B3; auto; lra.
Qed.

Lemma ascending_lt xp : ascending xp ->
  forall d i, 0 <= i -> i + 1 + Z.of_nat d < len xp ->
              (get xp i < get xp (i + 1 + Z.of_nat d))%R.
Proof.
  intros Ha d; induction d as [|d IH]; intros i Hi Hd.
  - rewrite Z.add_0_r. apply Ha; lia.
  - apply Rlt_trans with (get xp (i + 1 + Z.of_nat d)).
    + apply IH; lia.
    + replace (i + 1 + Z.of_nat (S d)) with (i + 1 + Z.of_nat d + 1) by lia.
      apply Ha; lia.
Qed.

Lemma ascending_pair xp i j :
  ascending xp -> 0 <= i -> i < j -> j < len xp ->
  (get xp i < get xp j)%R.
Proof.
  intros Ha Hi Hij Hj.
  replace j with (i + 1 + Z.of_nat (Z.to_nat (j - i - 1))) by lia.
  apply ascending_lt; auto; lia.
Qed.

Lemma bracket_unique xp x lo lo' :
  ascending xp -> bracket xp x lo -> bracket xp x lo' -> lo' = lo.
Proof.
  intros Ha (H1 & H2 & H3 & H4) (H1' & H2' & H3' & H4').
  destruct (Z_lt_dec lo lo') as [Hlt|Hge].
  - destruct (Z.eq_dec (lo + 1) lo') as [E|N].
    + rewrite E in H4. lra.
    + assert (get xp (lo + 1) < get xp lo')%R
        by (apply ascending_pair; auto; lia).
      lra.
  - destruct (Z_lt_dec lo' lo) as [Hlt|Hge']; [|lia].
    destruct (Z.eq_dec (lo' + 1) lo) as [E|N].
    + rewrite E in H4'. lra.
    + assert (get xp (lo' + 1) < get xp lo)%R
        by (apply ascending_pair; auto; lia).
      lra.
Qed.

Lemma interp_point_spec xp fp left right x :
  2 <= len xp -> len fp = len xp -> ascending xp ->
  exists v,
    interp_point xp fp (get xp 0) (get xp (len xp - 1))
                 (default left (get fp 0))
                 (default right (get fp (len fp - 1))) x = Ok v /\
    interpolates xp fp left right x v.
Proof.
  intros Hn Hfp Ha. unfold interp_point, interpolates.
  assert (Hends : (get xp 0 < get xp (len xp - 1))%R)
    by (apply ascending_pair; auto; lia).
  destruct (Rle_dec x (get xp 0)) as [Hle|Hgt].
  { eexists; split; [reflexivity|]. repeat split; intros; auto; lra. }
  destruct (Rge_dec x (get xp (len xp - 1))) as [Hge|Hlt].
  { eexists; split; [reflexivity|]. repeat split; intros; auto; lra. }
  destruct (bsearch_bracket xp x 0 (len xp - 1)) as [lo [E [H1 [H2 H3]]]];
    try lia.
  rewrite E. cbn [rbind fst snd].
  rewrite !load_ok by lia. cbn [rbind].
  eexists; split; [reflexivity|].
  split; [intros; lra|]. split; [intros; lra|].
  intros _ _. exists lo.
  assert (Hb : bracket xp x lo).
  { unfold bracket. destruct H3; try lra. repeat split; auto; lia. }
  split; [exact Hb|]. split; [|split; reflexivity].
  intros lo' Hb'. now apply (bracket_unique xp x lo lo').
Qed.

Lemma interp_point_total xp fp xl xr lv rv x :
  2 <= len xp -> len fp = len xp ->
  exists v, interp_point xp fp xl xr lv rv x = Ok v.
Proof.
  intros Hn Hfp. unfold interp_point.
  destruct (Rle_dec x xl); [eexists; reflexivity|].
  destruct (Rge_dec x xr); [eexists; reflexivity|].
  destruct (bsearch_bracket xp x 0 (len xp - 1)) as [lo [E [H1 [H2 H3]]]];
    try lia.
  rewrite E. cbn [rbind fst snd].
  rewrite !load_ok by lia. cbn [rbind].
  eexists; reflexivity.
Qed.

Lemma store_each_no_raise wrap (f : R -> result R) items :
  (forall c, exists v, f c = Ok v) ->
  forall buf i e, store_each wrap f buf i items <> Raise e.
Proof.
  intros Hf; induction items as [|c rest IH]; intros buf i e; simpl.
  - discriminate.
  - destruct (Hf c) as [v ->]. simpl. unfold store.
    destruct (in_bounds buf i); simpl; [apply IH|discriminate].
Qed.

Lemma interp_rejects_spec xp fp :
  well_formed xp -> well_formed fp ->
  (interp_rejects xp fp = true <-> invalid_knots xp fp).
Proof.
  unfold well_formed, interp_rejects, invalid_knots.
  intros (Hm & Hn & Hl) (Hm' & Hn' & Hl').
  rewrite !orb_true_iff, !andb_true_iff, !negb_true_iff.
  rewrite !Z.eqb_neq, !Z.ltb_lt.
  split.
  - intros [[[[[H1 H2]|[H1 H2]]|H]|H]|H]; try tauto.
    + destruct (Z_lt_dec (alen xp) 2); [tauto|].
      right; right; right; left. nia.
    + destruct (Z_lt_dec (alen fp) 2); [tauto|].
      right; right; right; right. nia.
  - intros [H|[H|[H|[[H1 H2]|[H1 H2]]]]]; try tauto.
    + left; left; left; left. lia.
    + left; left; left; right. lia.
Qed.

Lemma poly_interp_accepts x xp fp left right h :
  interp_rejects xp fp = false ->
  poly_interp x xp fp left right h
  = ((yarray <- interp_points (nd_items xp) (nd_items fp)
                  (get (nd_items xp) 0) (get (nd_items xp) (alen xp - 1))
                  (default left (get (nd_items fp) 0))
                  (default right (get (nd_items fp) (alen fp - 1)))
                  (repeat 0%R (Z.to_nat (nd_m x * nd_n x))) (nd_items x) ;;
      Ok (mk_ndarray (nd_m x) (nd_n x) yarray))%res,
     ("y", nd_m x * nd_n x) :: h).
Proof.
  intros Hrej. unfold poly_interp. rewrite Hrej.
  unfold interp_rejects in Hrej.
  rewrite !orb_false_iff, !negb_false_iff, !Z.ltb_ge, Z.eqb_eq in Hrej.
  destruct Hrej as [[[[_ _] H1] H2] H3]. unfold alen in *.
  unfold bind, create_new_ndarray, lift, ret. cbn [nd_items].
  rewrite !load_ok by lia.
  destruct left, right; cbn [default]; rewrite ?load_ok by lia;
    match goal with
    | |- context [interp_points ?a ?b ?c ?d ?e ?f ?g ?i] =>
        destruct (interp_points a b c d e f g i); reflexivity
    end.
Qed.

(** On valid knots in ascending order and a well-formed query array,
    [interp] returns an array of the query's shape whose items are the
    interpolated values, and leaves only that array allocated. *)
Lemma poly_interp_spec x xp fp left right h :
  well_formed x -> interp_rejects xp fp = false ->
  poly_interp x xp fp left right h
  = (Ok (mk_ndarray (nd_m x) (nd_n x)
           (map (interp_value (nd_items xp) (nd_items fp) left right)
                (nd_items x))),
     ("y", nd_m x * nd_n x) :: h).
Proof.
  intros (Hm & Hn & Hl) Hrej.
  rewrite poly_interp_accepts by assumption.
  unfold interp_rejects in Hrej.
  rewrite !orb_false_iff, !negb_false_iff, !Z.ltb_ge, Z.eqb_eq in Hrej.
  destruct Hrej as [[[[_ _] H1] H2] H3]. unfold alen in *.
  unfold interp_points.
  rewrite (store_each_all _ _
             (interp_value (nd_items xp) (nd_items fp) left right)).
  - reflexivity.
  - intros c _. unfold interp_value.
    destruct (interp_point_total (nd_items xp) (nd_items fp)
                (get (nd_items xp) 0)
                (get (nd_items xp) (len (nd_items xp) - 1))
                (default left (get (nd_items fp) 0))
                (default right (get (nd_items fp) (len (nd_items fp) - 1)))
                c) as [v Hv]; try lia.
    now rewrite Hv.
  - rewrite len_repeat. lia.
  - reflexivity.
Qed.

Lemma interp_value_spec xp fp left right x :
  2 <= len xp -> len fp = len xp -> ascending xp ->
  interpolates xp fp left right x (interp_value xp fp left right x).
Proof.
  intros Hn Hfp Ha. unfold interp_value.
  destruct (interp_point_spec xp fp left right x Hn Hfp Ha) as [v [E Hv]].
  now rewrite E.
Qed.

(** The monotonic segment of section 8: halfway between the knots [0] and
    [10], with values [0] and [100], the result is [50]. *)
Example interp_midpoint :
  poly_interp (mk_ndarray 1 1 [5%R]) (mk_ndarray 1 2 [0; 10]%R)
              (mk_ndarray 1 2 [0; 100]%R) None None []
  = (Ok (mk_ndarray 1 1 [50%R]), [("y", 1)]).
Proof.
  rewrite poly_interp_spec;
    [|unfold well_formed, alen, len; simpl; lia|reflexivity].
  cbn [nd_items nd_m nd_n map]. do 3 f_equal.
  destruct (interp_value_spec [0; 10]%R [0; 100]%R None None 5%R)
    as (_ & _ & Hmid).
  - unfold len; simpl; lia.
  - reflexivity.
  - unfold ascending, len; simpl. intros i H0 H1.
    assert (i = 0) as -> by lia. unfold get; simpl. lra.
  - destruct Hmid as (lo & (Hlo0 & Hlo1 & _) & _ & _ & Hv).
    + unfold get; simpl; lra.
    + unfold get, len; simpl; lra.
    + unfold len in Hlo1; simpl in Hlo1.
      assert (lo = 0) by lia. subst lo.
      rewrite Hv. unfold get; simpl. f_equal. lra.
Qed.

(** C7: on well-formed knot arrays, [interp] raises its [ValueError] with
    nothing allocated exactly when the lengths of [xp] and [fp] differ, or
    one of them is below 2, or one of the two arrays has both dimensions
    above 1; otherwise the call raises nothing. *)
Theorem interp_validation :
  forall (x xp fp : ndarray) (left right : option R) (h : ledger),
    well_formed xp -> well_formed fp ->
    (invalid_knots xp fp ->
     poly_interp x xp fp left right h = (Raise (ValueError msg_interp), h)) /\
    (~ invalid_knots xp fp ->
     forall e, outcome (poly_interp x xp fp left right h) <> Raise e).
Proof.
  intros x xp fp left right h Hxp Hfp.
  pose proof (interp_rejects_spec xp fp Hxp Hfp) as Hrej.
  split.
  - intros Hinv. apply Hrej in Hinv.
    unfold poly_interp. now rewrite Hinv.
  - intros Hval e.
    destruct (interp_rejects xp fp) eqn:Hr; [exfalso; tauto|].
    rewrite poly_interp_accepts by assumption.
    unfold interp_rejects in Hr.
    rewrite !orb_false_iff, !negb_false_iff, !Z.ltb_ge, Z.eqb_eq in Hr.
    destruct Hr as [[[[_ _] H1] H2] H3]. unfold alen in *.
    unfold outcome; cbn [fst]. unfold interp_points.
    match goal with
    | |- context [store_each ?w ?f ?b ?i ?l] =>
        pose proof (store_each_no_raise w f l) as Hno;
        destruct (store_each w f b i l) eqn:Hs
    end; cbn [rbind]; try discriminate.
    exfalso. eapply Hno; [|exact Hs].
    intros c; apply interp_point_total; lia.
Qed.

Lemma interp_validation_witness :
  (invalid_knots (mk_ndarray 1 2 [0; 10]%R) (mk_ndarray 1 2 [0; 100]%R) ->
   poly_interp (mk_ndarray 1 1 [5%R]) (mk_ndarray 1 2 [0; 10]%R)
               (mk_ndarray 1 2 [0; 100]%R) None None []
   = (Raise (ValueError msg_interp), [])) /\
  (~ invalid_knots (mk_ndarray 1 2 [0; 10]%R) (mk_ndarray 1 2 [0; 100]%R) ->
   forall e,
     outcome (poly_interp (mk_ndarray 1 1 [5%R]) (mk_ndarray 1 2 [0; 10]%R)
                          (mk_ndarray 1 2 [0; 100]%R) None None [])
     <> Raise e).
Proof.
  refine (interp_validation (mk_ndarray 1 1 [5%R]) (mk_ndarray 1 2 [0; 10]%R)
            (mk_ndarray 1 2 [0; 100]%R) None None [] _ _);
    unfold well_formed, alen, len; simpl; lia.
Defined.

(** C2: on valid knots in strictly ascending order, every item of the result
    is the value the boundary policy assigns to the query point at its
    index: [left] (or [fp[0]]) at or below [xp[0]], [right] (or [fp[n-1]])
    at or above [xp[n-1]], and in between the linear interpolant on the one
    pair [lo, lo+1] with [xp[lo] < x <= xp[lo+1]], which is the pair the
    search loop ends on. *)
Theorem interp_piecewise_linear :
  forall (x xp fp : ndarray) (left right : option R) (h : ledger),
    well_formed x -> well_formed xp -> well_formed fp ->
    ~ invalid_knots xp fp -> ascending (nd_items xp) ->
    exists ys,
      outcome (poly_interp x xp fp left right h)
      = Ok (mk_ndarray (nd_m x) (nd_n x) ys) /\
      len ys = alen x /\
      forall i, 0 <= i < alen x ->
                interpolates (nd_items xp) (nd_items fp) left right
                             (get (nd_items x) i) (get ys i).
Proof.
  intros x xp fp left right h Hx Hxp Hfp Hval Ha.
  pose proof (interp_rejects_spec xp fp Hxp Hfp) as Hrej.
  destruct (interp_rejects xp fp) eqn:Hr; [exfalso; tauto|].
  rewrite poly_interp_spec by assumption.
  eexists; split; [reflexivity|]. split; [apply len_map|].
  intros i Hi. unfold alen in Hi. rewrite get_map by assumption.
  unfold interp_rejects in Hr.
  rewrite !orb_false_iff, !negb_false_iff, !Z.ltb_ge, Z.eqb_eq in Hr.
  destruct Hr as [[[[_ _] H1] H2] H3]. unfold alen in *.
  apply interp_value_spec; auto; lia.
Qed.

Lemma interp_piecewise_linear_witness :
  exists ys,
    outcome (poly_interp (mk_ndarray 1 1 [5%R]) (mk_ndarray 1 2 [0; 10]%R)
                         (mk_ndarray 1 2 [0; 100]%R) None None [])
    = Ok (mk_ndarray 1 1 ys) /\
    len ys = 1 /\
    forall i, 0 <= i < 1 ->
              interpolates [0; 10]%R [0; 100]%R None None
                           (get [5%R] i) (get ys i).
Proof.
  refine (interp_piecewise_linear
            (mk_ndarray 1 1 [5%R]) (mk_ndarray 1 2 [0; 10]%R)
            (mk_ndarray 1 2 [0; 100]%R) None None [] _ _ _ _ _).
  - unfold well_formed, alen, len; simpl; lia.
  - unfold well_formed, alen, len; simpl; lia.
  - unfold well_formed, alen, len; simpl; lia.
  - unfold invalid_knots, alen, len; simpl; lia.
  - unfold ascending, len; simpl. intros i H0 H1.
    assert (i = 0) as -> by lia. unfold get; simpl. lra.
Defined.

(** C8: with no [left]/[right] override, querying valid, strictly ascending
    knots at the knots themselves returns the items of [fp], one for one. *)
Theorem interp_at_knots_returns_fp :
  forall (xp fp : ndarray) (h : ledger),
    well_formed xp -> well_formed fp ->
    ~ invalid_knots xp fp -> ascending (nd_items xp) ->
    outcome (poly_interp xp xp fp None None h)
    = Ok (mk_ndarray (nd_m xp) (nd_n xp) (nd_items fp)).
Proof.
  intros xp fp h Hxp Hfp Hval Ha.
  pose proof (interp_rejects_spec xp fp Hxp Hfp) as Hrej.
  destruct (interp_rejects xp fp) eqn:Hr; [exfalso; tauto|].
  rewrite poly_interp_spec by assumption.
  unfold outcome; cbn [fst]. do 2 f_equal.
  unfold interp_rejects in Hr.
  rewrite !orb_false_iff, !negb_false_iff, !Z.ltb_ge, Z.eqb_eq in Hr.
  destruct Hr as [[[[_ _] H1] H2] H3]. unfold alen in *.
  set (kn := nd_items xp) in *. set (fv := nd_items fp) in *.
  apply buffer_ext; [rewrite len_map; lia|].
  intros k Hk. rewrite len_map in Hk. rewrite get_map by assumption.
  destruct (interp_value_spec kn fv None None (get kn k))
    as (Hlow & Hhigh & Hmid); auto; try lia.
  destruct (Z.eq_dec k 0) as [->|Hk0].
  { rewrite Hlow by lra. reflexivity. }
  destruct (Z.eq_dec k (len kn - 1)) as [->|Hkn].
  { rewrite Hhigh by lra. cbn [default]. now rewrite <- H3. }
  assert (Hprev : (get kn (k - 1) < get kn k)%R)
    by (apply ascending_pair; auto; lia).
  destruct Hmid as (lo & Hb & Huniq & _ & Hv).
  { apply ascending_pair; auto; lia. }
  { apply ascending_pair; auto; lia. }
  assert (Hlo : k - 1 = lo).
  { apply Huniq. unfold bracket.
    replace (k - 1 + 1) with k by lia. repeat split; try lia; lra. }
  subst lo. rewrite Hv. replace (k - 1 + 1) with k by lia.
  field. lra.
Qed.

Lemma interp_at_knots_returns_fp_witness :
  outcome (poly_interp (mk_ndarray 1 3 [0; 1; 3]%R)
                       (mk_ndarray 1 3 [0; 1; 3]%R)
                       (mk_ndarray 1 3 [7; 5; 9]%R) None None [])
  = Ok (mk_ndarray 1 3 [7; 5; 9]%R).
Proof.
  refine (interp_at_knots_returns_fp
            (mk_ndarray 1 3 [0; 1; 3]%R) (mk_ndarray 1 3 [7; 5; 9]%R) []
            _ _ _ _).
  - unfold well_formed, alen, len; simpl; lia.
  - unfold well_formed, alen, len; simpl; lia.
  - unfold invalid_knots, alen, len; simpl; lia.
  - unfold ascending, len; simpl. intros i H0 H1.
    assert (i = 0 \/ i = 1) as [-> | ->] by lia; unfold get; simpl; lra.
Defined.

(** ** Sums and the loops that accumulate or store them *)

Lemma sumZ_0 f : sumZ f 0 = 0%R.
Proof. reflexivity. Qed.

Lemma sumZ_succ f k : 0 <= k -> sumZ f (k + 1) = (sumZ f k + f k)%R.
Proof.
  intros Hk; unfold sumZ.
  replace (Z.to_nat (k + 1)) with (S (Z.to_nat k)) by lia.
  simpl. now rewrite Z2Nat.id.
Qed.

Lemma sumZ_ext f g n :
  (forall k, 0 <= k < n -> f k = g k) -> sumZ f n = sumZ g n.
Proof.
  intros H; unfold sumZ.
  assert (Hn : forall k, (k < Z.to_nat n)%nat ->
                         f (Z.of_nat k) = g (Z.of_nat k))
    by (intros; apply H; lia).
  revert Hn; generalize (Z.to_nat n); intros m; induction m as [|m IH];
    intros Hn; simpl; auto.
  rewrite IH, Hn; auto.
Qed.

Lemma sumZ_plus f g n :
  sumZ (fun k => f k + g k)%R n = (sumZ f n + sumZ g n)%R.
Proof.
  unfold sumZ; induction (Z.to_nat n) as [|m IH]; simpl; [ring|].
  rewrite IH; ring.
Qed.

Lemma sumZ_scale a f n : sumZ (fun k => a * f k)%R n = (a * sumZ f n)%R.
Proof.
  unfold sumZ; induction (Z.to_nat n) as [|m IH]; simpl; [ring|].
  rewrite IH; ring.
Qed.

(** [sum = 0; for (k = 0; k < n; k++) sum += A[ia k] * B[ib k];] *)
Lemma sum_loop wrap fuel (A B : buffer) (ia ib : Z -> Z) n :
  0 <= n -> (forall z, 0 < z <= n -> wrap z = z) ->
  (Z.to_nat n < fuel)%nat ->
  (forall k, 0 <= k < n -> 0 <= ia k < len A /\ 0 <= ib k < len B) ->
  for_loop wrap fuel 0 n
    (fun k sum => a <- load A (ia k) ;; b <- load B (ib k) ;;
                  Ok (sum + a * b)%R)%res 0%R
  = Ok (sumZ (fun k => get A (ia k) * get B (ib k))%R n).
Proof.
  intros Hn Hw Hfuel Hb.
  destruct (for_loop_inv wrap
              (fun k s => s = sumZ (fun k => get A (ia k) * get B (ib k))%R k)
              n
              (fun k sum => a <- load A (ia k) ;; b <- load B (ib k) ;;
                            Ok (sum + a * b)%R)%res 0 Hw)
    with (fuel := fuel) (i := 0) (s := 0%R) as [s [E Hs]]; try lia.
  - intros k s Hk ->. destruct (Hb k Hk) as [Ha Hb'].
    rewrite !load_ok by assumption. cbn [rbind].
    eexists; split; [reflexivity|]. rewrite sumZ_succ by lia. reflexivity.
  - reflexivity.
  - now rewrite E, Hs.
Qed.

(** [for (i = 0; i < n; i++) buf[idx i] = compute i;] on distinct cells. *)
Lemma store_loop wrap fuel (compute : Z -> result R) (g : Z -> R)
      (idx : Z -> Z) n buf :
  0 <= n -> (forall z, 0 < z <= n -> wrap z = z) ->
  (Z.to_nat n < fuel)%nat ->
  (forall i, 0 <= i < n -> compute i = Ok (g i)) ->
  (forall i, 0 <= i < n -> 0 <= idx i < len buf) ->
  (forall i i', 0 <= i < n -> 0 <= i' < n -> idx i = idx i' -> i = i') ->
  exists buf',
    for_loop wrap fuel 0 n
      (fun i b => v <- compute i ;; store b (idx i) v)%res buf = Ok buf' /\
    len buf' = len buf /\
    (forall i, 0 <= i < n -> get buf' (idx i) = g i) /\
    (forall k, 0 <= k -> (forall i, 0 <= i < n -> idx i <> k) ->
               get buf' k = get buf k).
Proof.
  intros Hn Hw Hfuel Hc Hidx Hinj.
  destruct (for_loop_inv wrap
              (fun i b => len b = len buf /\
                          (forall i', 0 <= i' < i -> get b (idx i') = g i') /\
                          (forall k, 0 <= k ->
                                     (forall i', 0 <= i' < i -> idx i' <> k) ->
                                     get b k = get buf k))
              n (fun i b => v <- compute i ;; store b (idx i) v)%res 0 Hw)
    with (fuel := fuel) (i := 0) (s := buf) as [s [E (L & G & O)]]; try lia.
  - intros i b Hi (L & G & O).
    rewrite Hc by assumption. cbn [rbind].
    pose proof (Hidx i Hi) as Hii.
    rewrite store_ok by lia.
    eexists; split; [reflexivity|].
    split; [now rewrite len_upd|]. split.
    + intros i' Hi'. rewrite get_upd by (try apply Hidx; lia).
      destruct (Z.eqb_spec (idx i') (idx i)) as [Heq|Hne].
      * apply Hinj in Heq; try lia. now subst.
      * apply G. destruct (Z.eq_dec i' i); [now subst|lia].
    + intros k Hk Hk'. rewrite get_upd by lia.
      destruct (Z.eqb_spec k (idx i)) as [Heq|Hne].
      * exfalso. apply (Hk' i); [lia|now symmetry].
      * apply O; auto. intros i' Hi'. apply Hk'. lia.
  - repeat split; auto. intros; lia.
  - exists s. repeat split; auto.
Qed.

(** ** The loops of the fitter *)

Lemma cell_inj n i j i' j' :
  0 <= i < n -> 0 <= i' < n -> i + j * n = i' + j' * n -> i = i' /\ j = j'.
Proof.
  intros Hi Hi' E.
  assert (j = j') by nia. subst. lia.
Qed.

Lemma cell_bound n N i j :
  0 <= i < n -> 0 <= j < N -> 0 <= i + j * n < N * n.
Proof. intros; nia. Qed.

Lemma build_XT_spec fuel x n deg XT0 :
  0 <= n <= 255 -> 0 <= deg <= 254 ->
  len x = n -> len XT0 = (deg + 1) * n ->
  (Z.to_nat n < fuel)%nat -> (Z.to_nat (deg + 1) < fuel)%nat ->
  exists XT,
    build_XT fuel x n n deg XT0 = Ok XT /\ len XT = (deg + 1) * n /\
    forall i j, 0 <= i < n -> 0 <= j <= deg ->
                get XT (i + j * n) = (get x i ^ Z.to_nat j)%R.
Proof.
  intros Hn Hdeg Hx HXT Hf1 Hf2. unfold build_XT.
  match goal with
  | |- exists XT, for_loop _ _ _ _ ?body _ = _ /\ _ =>
      destruct (for_loop_inv u8
        (fun i XT => len XT = (deg + 1) * n /\
           forall i' j, 0 <= i' < i -> 0 <= j <= deg ->
                        get XT (i' + j * n) = (get x i' ^ Z.to_nat j)%R)
        n body 0) with (fuel := fuel) (i := 0) (s := XT0)
        as [XT [E [L G]]]
  end; try lia.
  - intros z Hz; apply u8_small; lia.
  - intros i XT Hi [L G].
    pose proof (cell_bound n (deg + 1) i 0 Hi ltac:(lia)) as Hb0.
    rewrite store_ok by lia. cbn [rbind].
    match goal with
    | |- exists s', for_loop _ _ _ _ ?body ?s0 = _ /\ _ =>
        destruct (for_loop_inv u8
          (fun j XT => len XT = (deg + 1) * n /\
             (forall i' j', 0 <= i' < i -> 0 <= j' <= deg ->
                get XT (i' + j' * n) = (get x i' ^ Z.to_nat j')%R) /\
             (forall j', 0 <= j' < j ->
                get XT (i + j' * n) = (get x i ^ Z.to_nat j')%R))
          (deg + 1) body 1) with (fuel := fuel) (i := 1) (s := s0)
          as [XT' [E' (L' & G1 & G2)]]
    end; try lia.
    + intros z Hz; apply u8_small; lia.
    + intros j XT1 Hj (L1 & G1 & G2).
      pose proof (cell_bound n (deg + 1) i (j - 1) Hi ltac:(lia)).
      pose proof (cell_bound n (deg + 1) i j Hi ltac:(lia)).
      rewrite !load_ok by lia. cbn [rbind]. rewrite store_ok by lia.
      eexists; split; [reflexivity|].
      split; [now rewrite len_upd|]. split.
      * intros i' j' Hi' Hj'.
        pose proof (cell_bound n (deg + 1) i' j' ltac:(lia) ltac:(lia)).
        rewrite get_upd by lia.
        destruct (Z.eqb_spec (i' + j' * n) (i + j * n)) as [Heq|Hne];
          [apply cell_inj in Heq; lia|].
        now apply G1.
      * intros j' Hj'.
        pose proof (cell_bound n (deg + 1) i j' ltac:(lia) ltac:(lia)).
        rewrite get_upd by lia.
        destruct (Z.eqb_spec (i + j' * n) (i + j * n)) as [Heq|Hne].
        -- apply cell_inj in Heq; try lia.
           replace j' with j by lia. rewrite G2 by lia.
           replace (Z.to_nat j) with (S (Z.to_nat (j - 1))) by lia.
           simpl. ring.
        -- apply G2. destruct (Z.eq_dec j' j); [subst; lia|lia].
    + split; [now rewrite len_upd|]. split.
      * intros i' j' Hi' Hj'.
        pose proof (cell_bound n (deg + 1) i' j' ltac:(lia) ltac:(lia)).
        rewrite get_upd by lia.
        destruct (Z.eqb_spec (i' + j' * n) (i + 0 * n)) as [Heq|Hne];
          [apply cell_inj in Heq; lia|].
        now apply G.
      * intros j' Hj'. assert (j' = 0) as -> by lia.
        rewrite get_upd_same by lia. reflexivity.
    + exists XT'. split; [exact E'|]. split; [exact L'|].
      intros i' j' Hi' Hj'.
      destruct (Z.eq_dec i' i) as [->|Hne].
      * apply G2; lia.
      * apply G1; lia.
  - split; [assumption|]. intros; lia.
  - exists XT. auto.
Qed.

Lemma row_inj n i j i' j' :
  0 <= i < n -> 0 <= i' < n -> j * n + i = j' * n + i' -> i = i' /\ j = j'.
Proof. intros Hi Hi' E. apply (cell_inj n); lia. Qed.

Lemma row_bound n N i j :
  0 <= i < n -> 0 <= j < N -> 0 <= j * n + i < N * n.
Proof. intros; nia. Qed.

Lemma build_prod_spec fuel XT n deg prod0 :
  0 <= n <= 65535 -> 0 <= deg <= 255 ->
  len XT = (deg + 1) * n -> len prod0 = (deg + 1) * (deg + 1) ->
  (Z.to_nat n < fuel)%nat -> (Z.to_nat (deg + 1) < fuel)%nat ->
  exists prod,
    build_prod fuel XT n deg prod0 = Ok prod /\
    len prod = (deg + 1) * (deg + 1) /\
    forall i j, 0 <= i <= deg -> 0 <= j <= deg ->
      get prod (j * (deg + 1) + i)
      = sumZ (fun k => get XT (j * n + k) * get XT (i * n + k))%R n.
Proof.
  intros Hn Hdeg HXT Hp Hf1 Hf2. unfold build_prod.
  match goal with
  | |- exists p, for_loop _ _ _ _ ?body _ = _ /\ _ =>
      destruct (for_loop_inv u16
        (fun i prod => len prod = (deg + 1) * (deg + 1) /\
           forall i' j, 0 <= i' < i -> 0 <= j <= deg ->
             get prod (j * (deg + 1) + i')
             = sumZ (fun k => get XT (j * n + k) * get XT (i' * n + k))%R n)
        (deg + 1) body 0) with (fuel := fuel) (i := 0) (s := prod0)
        as [prod [E [L G]]]
  end; try lia.
  - intros z Hz; apply u16_small; lia.
  - intros i prod Hi [L G].
    destruct (store_loop u16 fuel
                (fun j => for_loop usize fuel 0 n
                   (fun k sum => a <- load XT (j * n + k) ;;
                                 b <- load XT (i * n + k) ;;
                                 Ok (sum + a * b)%R)%res 0%R)
                (fun j => sumZ (fun k => get XT (j * n + k)
                                         * get XT (i * n + k))%R n)
                (fun j => j * (deg + 1) + i) (deg + 1) prod)
      as [prod' (E' & L' & G1 & G2)]; try lia.
    + intros z Hz; apply u16_small; lia.
    + intros j Hj.
      apply (sum_loop usize fuel XT XT (fun k => j * n + k)
                      (fun k => i * n + k)); try lia.
      * intros z Hz; apply usize_small; lia.
      * intros k Hk.
        pose proof (row_bound n (deg + 1) k j ltac:(lia) ltac:(lia)).
        pose proof (row_bound n (deg + 1) k i ltac:(lia) ltac:(lia)). lia.
    + intros j Hj. rewrite L.
      apply (row_bound (deg + 1) (deg + 1)); lia.
    + intros j j' Hj Hj' Heq. apply row_inj in Heq; lia.
    + exists prod'. split; [exact E'|]. split; [lia|].
      intros i' j Hi' Hj.
      destruct (Z.eq_dec i' i) as [->|Hne].
      * apply G1; lia.
      * rewrite G2.
        -- apply G; lia.
        -- pose proof (row_bound (deg + 1) (deg + 1) i' j). lia.
        -- intros j' Hj' Heq. apply row_inj in Heq; lia.
  - split; [assumption|]. intros; lia.
  - exists prod. split; [exact E|]. split; [exact L|].
    intros i j Hi Hj. apply G; lia.
Qed.

Lemma build_XTy_spec fuel XT y n deg x :
  0 <= n <= 65535 -> 0 <= deg < n -> deg <= 255 ->
  len XT = (deg + 1) * n -> len y = n -> len x = n ->
  (Z.to_nat n < fuel)%nat ->
  exists x',
    build_XTy fuel XT y n deg x = Ok x' /\ len x' = n /\
    forall i, 0 <= i <= deg ->
              get x' i = sumZ (fun j => get XT (i * n + j) * get y j)%R n.
Proof.
  intros Hn Hdeg Hd HXT Hy Hx Hf. unfold build_XTy.
  destruct (store_loop u16 fuel
              (fun i => for_loop u16 fuel 0 n
                 (fun j sum => a <- load XT (i * n + j) ;;
                               b <- load y j ;;
                               Ok (sum + a * b)%R)%res 0%R)
              (fun i => sumZ (fun j => get XT (i * n + j) * get y j)%R n)
              (fun i => i) (deg + 1) x)
    as [x' (E' & L' & G1 & G2)]; try lia.
  - intros z Hz; apply u16_small; lia.
  - intros i Hi.
    apply (sum_loop u16 fuel XT y (fun j => i * n + j) (fun j => j));
      try lia.
    + intros z Hz; apply u16_small; lia.
    + intros k Hk.
      pose proof (row_bound n (deg + 1) k i ltac:(lia) ltac:(lia)). lia.
  - exists x'. split; [exact E'|]. split; [lia|].
    intros i Hi. apply G1; lia.
Qed.

Lemma build_beta_spec fuel prod x deg betav :
  0 <= deg <= 255 ->
  len prod = (deg + 1) * (deg + 1) -> deg + 1 <= len x ->
  len betav = deg + 1 ->
  (Z.to_nat (deg + 1) < fuel)%nat ->
  exists betav',
    build_beta fuel prod x deg betav = Ok betav' /\ len betav' = deg + 1 /\
    forall i, 0 <= i <= deg ->
      get betav' i
      = sumZ (fun j => get prod (i * (deg + 1) + j) * get x j)%R (deg + 1).
Proof.
  intros Hdeg Hp Hx Hb Hf. unfold build_beta.
  destruct (store_loop u16 fuel
              (fun i => for_loop u16 fuel 0 (deg + 1)
                 (fun j sum => a <- load prod (i * (deg + 1) + j) ;;
                               b <- load x j ;;
                               Ok (sum + a * b)%R)%res 0%R)
              (fun i => sumZ (fun j => get prod (i * (deg + 1) + j)
                                       * get x j)%R (deg + 1))
              (fun i => i) (deg + 1) betav)
    as [b' (E' & L' & G1 & G2)]; try lia.
  - intros z Hz; apply u16_small; lia.
  - intros i Hi.
    apply (sum_loop u16 fuel prod x (fun j => i * (deg + 1) + j)
                    (fun j => j)); try lia.
    + intros z Hz; apply u16_small; lia.
    + intros k Hk.
      pose proof (row_bound (deg + 1) (deg + 1) k i ltac:(lia) ltac:(lia)).
      lia.
  - exists b'. split; [exact E'|]. split; [lia|].
    intros i Hi. apply G1; lia.
Qed.

Lemma reverse_beta_spec fuel deg betav :
  0 <= deg <= 255 -> len betav = deg + 1 ->
  (Z.to_nat (deg + 1) < fuel)%nat ->
  exists betav',
    reverse_beta fuel deg betav = Ok betav' /\ len betav' = deg + 1 /\
    forall k, 0 <= k <= deg -> get betav' k = get betav (deg - k).
Proof.
  intros Hdeg Hb Hf. unfold reverse_beta.
  pose proof (Z.div_mod (deg + 1) 2 ltac:(lia)) as Hdm.
  pose proof (Z.mod_pos_bound (deg + 1) 2 ltac:(lia)) as Hmod.
  match goal with
  | |- exists b, for_loop _ _ _ _ ?body _ = _ /\ _ =>
      destruct (for_loop_inv u8
        (fun i b => len b = deg + 1 /\
           forall k, 0 <= k <= deg ->
             get b k = if (k <? i) || (deg - i <? k)
                       then get betav (deg - k) else get betav k)
        ((deg + 1) / 2) body 0) with (fuel := fuel) (i := 0) (s := betav)
        as [b' [E [L G]]]
  end; try lia.
  - intros z Hz; apply u8_small; lia.
  - intros i b Hi [L G].
    rewrite !load_ok by lia. cbn [rbind].
    rewrite store_ok by lia. cbn [rbind].
    rewrite store_ok by (rewrite len_upd; lia).
    eexists; split; [reflexivity|].
    split; [now rewrite !len_upd|].
    intros k Hk.
    rewrite get_upd by (rewrite ?len_upd; lia).
    rewrite get_upd by lia.
    rewrite (G i), (G (deg - i)), (G k) by lia.
    destruct (Z.eqb_spec k (deg - i)) as [->|N1];
      [|destruct (Z.eqb_spec k i) as [->|N2]];
      repeat match goal with
        | |- context [?a <? ?b] => destruct (Z.ltb_spec a b)
        end; cbn [orb]; try lia; try reflexivity;
      f_equal; lia.
  - split; [assumption|]. intros k Hk.
    destruct (Z.ltb_spec k 0), (Z.ltb_spec (deg - 0) k); cbn [orb];
      try lia; reflexivity.
  - exists b'. split; [exact E|]. split; [exact L|].
    intros k Hk. rewrite G by assumption.
    destruct (Z.ltb_spec k ((deg + 1) / 2)),
      (Z.ltb_spec (deg - (deg + 1) / 2) k); cbn [orb];
      try reflexivity.
    f_equal; lia.
Qed.

(** ** The fitter, step by step *)

Lemma len_map_seq (f : nat -> R) n : len (map f (seq 0 n)) = Z.of_nat n.
Proof. unfold len; now rewrite length_map, length_seq. Qed.

Lemma len_indices n : 0 <= n -> len (indices n) = n.
Proof. intros; unfold indices; rewrite len_map_seq; lia. Qed.

Lemma get_indices n k : 0 <= k < n -> get (indices n) k = IZR k.
Proof.
  intros Hk; unfold indices. rewrite get_map_seq by lia.
  now rewrite Z2Nat.id by lia.
Qed.

Lemma fill_indices_spec fuel n :
  0 <= n <= 65535 -> (Z.to_nat n < fuel)%nat ->
  fill_indices fuel n (repeat 0%R (Z.to_nat n)) = Ok (indices n).
Proof.
  intros Hn Hf. unfold fill_indices.
  destruct (store_loop usize fuel (fun i => Ok (IZR i)) IZR (fun i => i) n
                       (repeat 0%R (Z.to_nat n)))
    as [x (E & L & G1 & G2)]; rewrite ?len_repeat; try lia; auto.
  - intros z Hz; apply usize_small; lia.
  - cbn [rbind] in E. rewrite E. f_equal.
    rewrite len_repeat in L.
    apply buffer_ext; [rewrite len_indices; lia|].
    intros k Hk. rewrite G1, get_indices by lia. reflexivity.
Qed.

Lemma fill_array_iterable_spec items :
  fill_array_iterable (repeat 0%R (Z.to_nat (len items))) items = Ok items.
Proof.
  unfold fill_array_iterable.
  rewrite (store_each_all _ _ (fun a => a)).
  - now rewrite map_id.
  - reflexivity.
  - rewrite len_repeat. pose proof (len_nonneg items). lia.
  - reflexivity.
Qed.

Lemma fit_prologue_fit2 fuel ys degree h :
  len ys <= 65535 -> u8 degree <= len ys ->
  (Z.to_nat (len ys) < fuel)%nat ->
  fit_prologue fuel (Fit2 ys degree) h
  = (Ok (mk_samples (len ys) (len ys) (u8 degree) (indices (len ys)) ys),
     ("y", len ys) :: ("x", len ys) :: h).
Proof.
  intros Hn Hd Hf. pose proof (len_nonneg ys) as H0.
  unfold fit_prologue. fold (len ys). rewrite (u16_small (len ys)) by lia.
  replace (len ys <? u8 degree) with false by lia.
  unfold bind, m_new, lift, ret.
  rewrite fill_indices_spec by lia.
  now rewrite fill_array_iterable_spec.
Qed.

Lemma fit_prologue_fit3 fuel xs ys degree h :
  len ys <= 65535 -> len xs = len ys -> u8 degree <= len ys ->
  fit_prologue fuel (Fit3 xs ys degree) h
  = (Ok (mk_samples (len ys) (len ys) (u8 degree) xs ys),
     ("y", len ys) :: ("x", len ys) :: h).
Proof.
  intros Hn Hx Hd. pose proof (len_nonneg ys) as H0.
  unfold fit_prologue. fold (len ys). fold (len xs). rewrite Hx.
  rewrite (u16_small (len ys)) by lia.
  rewrite Z.eqb_refl. cbn [negb].
  replace (len ys <? u8 degree) with false by lia.
  unfold bind, m_new, lift, ret.
  rewrite <- Hx at 1. rewrite fill_array_iterable_spec.
  now rewrite fill_array_iterable_spec.
Qed.

Lemma get_gram_flat x n deg i j :
  0 <= i <= deg -> 0 <= j <= deg ->
  get (gram_flat x n deg) (j * (deg + 1) + i) = gram x n j i.
Proof.
  intros Hi Hj. unfold gram_flat.
  pose proof (row_bound (deg + 1) (deg + 1) i j ltac:(lia) ltac:(lia)).
  rewrite get_map_seq by lia. rewrite Z2Nat.id by lia.
  rewrite Z.div_add_l, Z.div_small, Z.add_0_r by lia.
  rewrite Z.add_comm, Z.mod_add, Z.mod_small by lia.
  reflexivity.
Qed.

Lemma len_gram_flat x n deg :
  0 <= deg -> len (gram_flat x n deg) = (deg + 1) * (deg + 1).
Proof. intros; unfold gram_flat; rewrite len_map_seq; nia. Qed.

(** Lines 128-149: the design matrix and the product handed to the
    inverter. *)
Lemma fit_design fuel x n deg :
  0 <= n <= 255 -> 0 <= deg <= 254 -> len x = n ->
  (Z.to_nat n < fuel)%nat -> (Z.to_nat (deg + 1) < fuel)%nat ->
  exists XT,
    build_XT fuel x n n deg (repeat 0%R (Z.to_nat ((deg + 1) * n))) = Ok XT /\
    len XT = (deg + 1) * n /\
    (forall i j, 0 <= i < n -> 0 <= j <= deg ->
                 get XT (j * n + i) = (get x i ^ Z.to_nat j)%R) /\
    build_prod fuel XT n deg
               (repeat 0%R (Z.to_nat ((deg + 1) * (deg + 1))))
    = Ok (gram_flat x n deg).
Proof.
  intros Hn Hdeg Hx Hf1 Hf2.
  destruct (build_XT_spec fuel x n deg
              (repeat 0%R (Z.to_nat ((deg + 1) * n))))
    as [XT (E & L & G)]; rewrite ?len_repeat; try lia; try nia.
  assert (G' : forall i j, 0 <= i < n -> 0 <= j <= deg ->
                 get XT (j * n + i) = (get x i ^ Z.to_nat j)%R).
  { intros i j Hi Hj. rewrite Z.add_comm. now apply G. }
  exists XT. split; [exact E|]. split; [exact L|]. split; [exact G'|].
  destruct (build_prod_spec fuel XT n deg
              (repeat 0%R (Z.to_nat ((deg + 1) * (deg + 1)))))
    as [prod (E' & L' & P)]; rewrite ?len_repeat; try lia; try nia.
  rewrite E'. f_equal.
  apply buffer_ext; [rewrite len_gram_flat; lia|].
  intros k Hk. rewrite L' in Hk.
  assert (Hq : 0 <= k / (deg + 1) <= deg).
  { split; [apply Z.div_pos; lia|].
    apply Z.lt_succ_r, Z.div_lt_upper_bound; lia. }
  pose proof (Z.mod_pos_bound k (deg + 1) ltac:(lia)) as Hr.
  rewrite (Z.div_mod k (deg + 1)) at 1 2 by lia.
  rewrite (Z.mul_comm (deg + 1)).
  rewrite P, get_gram_flat by lia.
  unfold gram. apply sumZ_ext. intros c Hc. now rewrite !G' by lia.
Qed.

(** Lines 150-159: when the inverter reports failure, the four blocks are
    released and the error is raised. *)
Lemma fit_solve_singular {T : pivot_test} fuel x y n deg h :
  0 <= n <= 255 -> 0 <= deg <= 254 -> len x = n ->
  (Z.to_nat n < fuel)%nat -> (Z.to_nat (deg + 1) < fuel)%nat ->
  fst (linalg_invert_matrix (gram_flat x n deg) (deg + 1)) = false ->
  fit_solve fuel (mk_samples n n deg x y) (("y", n) :: ("x", n) :: h)
  = (Raise (ValueError msg_singular), h).
Proof.
  intros Hn Hdeg Hx Hf1 Hf2 Hinv.
  destruct (fit_design fuel x n deg) as [XT (E & L & G & P)]; auto.
  unfold fit_solve. cbn [s_lenx s_leny s_deg s_x s_y].
  unfold bind, m_new, lift. rewrite E, P, Hinv. cbn [negb].
  reflexivity.
Qed.

(** Lines 160-191: when the inverter succeeds and there are more samples
    than the degree, the call returns the coefficients and leaves only its
    result allocated. *)
Lemma fit_solve_regular {T : pivot_test} fuel x y n deg h :
  0 <= n <= 255 -> 0 <= deg <= 254 -> deg < n -> len x = n -> len y = n ->
  (Z.to_nat n < fuel)%nat -> (Z.to_nat (deg + 1) < fuel)%nat ->
  fst (linalg_invert_matrix (gram_flat x n deg) (deg + 1)) = true ->
  fit_solve fuel (mk_samples n n deg x y) (("y", n) :: ("x", n) :: h)
  = (Ok (mk_ndarray (deg + 1) 1 (fit_beta x y n deg)),
     ("beta", (deg + 1) * 1) :: h).
Proof.
  intros Hn Hdeg Hdn Hx Hy Hf1 Hf2 Hinv.
  destruct (fit_design fuel x n deg) as [XT (E & L & G & P)]; auto.
  unfold fit_solve. cbn [s_lenx s_leny s_deg s_x s_y].
  unfold bind, m_new, lift. rewrite E, P, Hinv. cbn [negb].
  destruct (build_XTy_spec fuel XT y n deg x) as [x' (E1 & L1 & G1)];
    try lia.
  rewrite E1. unfold m_del, create_new_ndarray. cbn [nd_items].
  set (inv := snd (linalg_invert_matrix (gram_flat x n deg) (deg + 1))).
  assert (Linv : len inv = (deg + 1) * (deg + 1)).
  { subst inv. unfold linalg_invert_matrix in *.
    destruct (gauss_jordan _ _ _) as [[A U]|]; cbn [fst snd] in *;
      [|discriminate].
    unfold to_flat, len.
    rewrite (flat_map_constant_length (c := Z.to_nat (deg + 1))).
    - rewrite length_seq. nia.
    - intros r _. now rewrite length_map, length_seq. }
  destruct (build_beta_spec fuel inv x' deg
              (repeat 0%R (Z.to_nat ((deg + 1) * 1))))
    as [b (E2 & L2 & G2)]; rewrite ?len_repeat; try lia.
  rewrite E2.
  destruct (reverse_beta_spec fuel deg b) as [b' (E3 & L3 & G3)]; try lia.
  rewrite E3. unfold ret. cbn [release].
  replace (String.eqb "prod" "XT") with false by reflexivity.
  replace (String.eqb "XT" "XT") with true by reflexivity.
  cbn [release].
  replace (String.eqb "beta" "y") with false by reflexivity.
  replace (String.eqb "prod" "y") with false by reflexivity.
  replace (String.eqb "y" "y") with true by reflexivity.
  cbn [release].
  replace (String.eqb "beta" "x") with false by reflexivity.
  replace (String.eqb "prod" "x") with false by reflexivity.
  replace (String.eqb "x" "x") with true by reflexivity.
  cbn [release].
  replace (String.eqb "beta" "prod") with false by reflexivity.
  replace (String.eqb "prod" "prod") with true by reflexivity.
  do 3 f_equal.
  apply buffer_ext.
  { unfold fit_beta. rewrite len_map_seq. lia. }
  intros k Hk. unfold fit_beta. fold inv.
  rewrite get_map_seq by lia. rewrite Z2Nat.id by lia.
  rewrite G3, G2 by lia.
  apply sumZ_ext. intros j Hj. f_equal.
  rewrite G1 by lia. unfold moment.
  apply sumZ_ext. intros c Hc. now rewrite G by lia.
Qed.

(** ** Finite sums *)

Lemma sum_n_ext f g n :
  (forall k, (k < n)%nat -> f k = g k) -> sum_n f n = sum_n g n.
Proof.
  induction n as [|n IH]; intros H; simpl; auto.
  rewrite IH, H; auto.
Qed.

Lemma sum_n_plus f g n :
  sum_n (fun k => f k + g k)%R n = (sum_n f n + sum_n g n)%R.
Proof. induction n as [|n IH]; simpl; [ring|rewrite IH; ring]. Qed.

Lemma sum_n_scale a f n : sum_n (fun k => a * f k)%R n = (a * sum_n f n)%R.
Proof. induction n as [|n IH]; simpl; [ring|rewrite IH; ring]. Qed.

Lemma sum_n_zero n : sum_n (fun _ => 0%R) n = 0%R.
Proof. induction n as [|n IH]; simpl; [ring|rewrite IH; ring]. Qed.

Lemma sum_n_single f n r :
  (r < n)%nat -> (forall c, (c < n)%nat -> c <> r -> f c = 0%R) ->
  sum_n f n = f r.
Proof.
  induction n as [|n IH]; intros Hr H; [lia|]. simpl.
  destruct (Nat.eq_dec r n) as [->|Hne].
  - rewrite (sum_n_ext f (fun _ => 0%R)) by (intros; apply H; lia).
    rewrite sum_n_zero. ring.
  - rewrite IH by (try lia; intros; apply H; lia).
    rewrite (H n) by lia. ring.
Qed.

Lemma sum_n_swap (f : nat -> nat -> R) n m :
  sum_n (fun r => sum_n (fun c => f r c) m) n
  = sum_n (fun c => sum_n (fun r => f r c) n) m.
Proof.
  induction n as [|n IH]; simpl.
  - now rewrite sum_n_zero.
  - rewrite IH, <- sum_n_plus. reflexivity.
Qed.

Lemma sumZ_const a n : 0 <= n -> sumZ (fun _ => a) n = (IZR n * a)%R.
Proof.
  intros Hn. rewrite <- (Z2Nat.id n) at 2 by assumption.
  unfold sumZ. induction (Z.to_nat n) as [|m IH].
  - simpl. ring.
  - cbn [sum_n]. rewrite IH, Nat2Z.inj_succ, succ_IZR. ring.
Qed.

(** ** Elimination without pivot search *)

(** A pivot the test lets through is not zero, and with the test that has
    no threshold every nonzero pivot is let through. *)
Lemma kept_nonzero {T : pivot_test} p :
  numerically_zero p = false -> p <> 0%R.
Proof. intros H ->. rewrite zero_is_rejected in H. discriminate. Qed.

Lemma exactly_zero_keeps p :
  p <> 0%R -> @numerically_zero exactly_zero p = false.
Proof.
  intros Hp. unfold numerically_zero, exactly_zero.
  destruct (Req_dec_T p 0); [contradiction|reflexivity].
Qed.

Lemma eliminate_kills N m A v :
  kills N A v -> (m < N)%nat -> kills N (eliminate m A A) v.
Proof.
  intros Hk Hm r Hr. unfold eliminate.
  destruct (Nat.eqb_spec r m) as [->|Hne]; [now apply Hk|].
  rewrite (sum_n_ext _ (fun c => A r c * v c
                                 + (- (A r m / A m m)) * (A m c * v c))%R)
    by (intros; ring).
  rewrite sum_n_plus, sum_n_scale, (Hk r Hr), (Hk m Hm). ring.
Qed.

Lemma eliminate_cleared N m A :
  cleared N A m -> A m m <> 0%R -> (m < N)%nat ->
  cleared N (eliminate m A A) (S m).
Proof.
  intros Hc Hp Hm c Hcm. unfold eliminate.
  destruct (Nat.eq_dec c m) as [->|Hne].
  - rewrite Nat.eqb_refl. split; [assumption|].
    intros r Hr Hrm. destruct (Nat.eqb_spec r m); [contradiction|].
    field. assumption.
  - assert (Hlt : (c < m)%nat) by lia.
    destruct (Hc c Hlt) as [Hd Hz].
    assert (Hmc : A m c = 0%R) by (apply Hz; lia).
    split.
    + destruct (Nat.eqb_spec c m); [contradiction|].
      rewrite Hmc. lra.
    + intros r Hr Hrc. destruct (Nat.eqb_spec r m) as [->|Hrm].
      * assumption.
      * rewrite Hmc, (Hz r Hr Hrc). lra.
Qed.

Lemma gauss_jordan_reduces {T : pivot_test} N v : forall k m A U A' U',
  (m + k = N)%nat ->
  gauss_jordan (seq m k) A U = Some (A', U') ->
  kills N A v -> cleared N A m ->
  kills N A' v /\ cleared N A' N.
Proof.
  induction k as [|k IH]; intros m A U A' U' Hmk Hgj Hk Hc.
  - simpl in Hgj. injection Hgj as <- <-.
    rewrite Nat.add_0_r in Hmk. subst m. auto.
  - simpl in Hgj.
    destruct (numerically_zero (A m m)) eqn:Hz; [discriminate|].
    pose proof (kept_nonzero _ Hz) as Hp.
    apply (IH (S m)) in Hgj; auto; try lia.
    + apply eliminate_kills; auto; lia.
    + apply eliminate_cleared; auto; lia.
Qed.

(** A matrix with a nonzero vector in its kernel is reported singular. *)
Lemma gauss_jordan_singular {T : pivot_test} N A U v :
  kills N A v -> (exists i, (i < N)%nat /\ v i <> 0%R) ->
  gauss_jordan (seq 0 N) A U = None.
Proof.
  intros Hk (i & Hi & Hv).
  destruct (gauss_jordan (seq 0 N) A U) as [[A' U']|] eqn:Hgj; auto.
  exfalso. apply (gauss_jordan_reduces N v N 0) in Hgj; auto.
  - destruct Hgj as [Hk' Hc']. apply Hv.
    specialize (Hk' i Hi).
    rewrite (sum_n_single _ N i) in Hk'; auto.
    + destruct (Hc' i Hi) as [Hd _].
      apply Rmult_integral in Hk'. tauto.
    + intros c Hc Hne. destruct (Hc' c Hc) as [_ Hz].
      rewrite (Hz i Hi) by auto. ring.
  - intros c Hc; lia.
Qed.

(** ** The inverter on the matrices of the fitter *)

Lemma of_flat_gram x n deg r c :
  0 <= deg -> (r <= Z.to_nat deg)%nat -> (c <= Z.to_nat deg)%nat ->
  of_flat (Z.to_nat (deg + 1)) (gram_flat x n deg) r c
  = gram x n (Z.of_nat r) (Z.of_nat c).
Proof.
  intros Hdeg Hr Hc. unfold of_flat.
  change (nth ?k ?d 0%R) with (nth k d 0%R).
  rewrite <- (Nat2Z.id (r * Z.to_nat (deg + 1) + c)).
  fold (get (gram_flat x n deg)
            (Z.of_nat (r * Z.to_nat (deg + 1) + c))).
  replace (Z.of_nat (r * Z.to_nat (deg + 1) + c))
    with (Z.of_nat r * (deg + 1) + Z.of_nat c) by lia.
  apply get_gram_flat; lia.
Qed.

Lemma gram_sum_n x n r c :
  gram x n (Z.of_nat r) (Z.of_nat c)
  = sum_n (fun k => get x (Z.of_nat k) ^ r * get x (Z.of_nat k) ^ c)%R
          (Z.to_nat n).
Proof. unfold gram, sumZ. now rewrite !Nat2Z.id. Qed.

Lemma sum_n_two f N :
  (2 <= N)%nat -> (forall c, (2 <= c < N)%nat -> f c = 0%R) ->
  sum_n f N = (f 0%nat + f 1%nat)%R.
Proof.
  induction N as [|N IH]; intros HN Hz; [lia|].
  destruct (Nat.eq_dec N 1) as [->|Hne].
  - simpl. ring.
  - simpl. rewrite IH by (try lia; intros; apply Hz; lia).
    rewrite (Hz N) by lia. ring.
Qed.

(** Identical sample points make the product matrix singular as soon as the
    degree is at least 1. *)
Lemma gram_singular_constant {T : pivot_test} x n deg c0 :
  0 <= n -> 1 <= deg ->
  (forall k, 0 <= k < n -> get x k = c0) ->
  fst (linalg_invert_matrix (gram_flat x n deg) (deg + 1)) = false.
Proof.
  intros Hn Hdeg Hx. unfold linalg_invert_matrix.
  set (v := fun i : nat =>
              match i with
              | O => c0
              | S O => (-1)%R
              | _ => 0%R
              end).
  rewrite (gauss_jordan_singular _ _ _ v); [reflexivity| |].
  - intros r Hr. rewrite sum_n_two; try lia.
    + rewrite !of_flat_gram by lia. unfold gram, v.
      rewrite (sumZ_ext _ (fun _ => c0 ^ r * 1)%R).
      2:{ intros k Hk. rewrite Hx by lia. rewrite Nat2Z.id. reflexivity. }
      rewrite (sumZ_ext (fun k => _ ^ _ * _ ^ Z.to_nat (Z.of_nat 1))%R
                        (fun _ => c0 ^ r * (c0 * 1))%R).
      2:{ intros k Hk. rewrite Hx by lia. rewrite Nat2Z.id. reflexivity. }
      rewrite !sumZ_const by lia. ring.
    + intros c Hc. unfold v. destruct c as [|[|c]]; try lia. ring.
  - exists 1%nat. split; [lia|]. unfold v. lra.
Qed.

(** The inverter on a 2 by 2 block whose pivots pass the test returns a
    left inverse. *)
Lemma invert_2x2 {T : pivot_test} p00 p01 p10 p11 :
  numerically_zero p00 = false ->
  numerically_zero (p11 - p10 / p00 * p01)%R = false ->
  exists i00 i01 i10 i11,
    linalg_invert_matrix [p00; p01; p10; p11] 2
    = (true, [i00; i01; i10; i11]) /\
    (i00 * p00 + i01 * p10 = 1)%R /\ (i00 * p01 + i01 * p11 = 0)%R /\
    (i10 * p00 + i11 * p10 = 0)%R /\ (i10 * p01 + i11 * p11 = 1)%R.
Proof.
  intros K0 K1.
  pose proof (kept_nonzero _ K0) as H0. pose proof (kept_nonzero _ K1) as H1.
  unfold linalg_invert_matrix.
  change (Z.to_nat 2) with 2%nat. cbn [seq gauss_jordan].
  change (of_flat 2 [p00; p01; p10; p11] 0%nat 0%nat) with p00.
  rewrite K0.
  change (eliminate 0 (of_flat 2 [p00; p01; p10; p11])
                    (of_flat 2 [p00; p01; p10; p11]) 1%nat 1%nat)
    with (p11 - p10 / p00 * p01)%R.
  rewrite K1.
  do 4 eexists. split; [reflexivity|].
  unfold normalise, eliminate, of_flat, identity.
  cbn [Nat.eqb nth Nat.mul Nat.add].
  assert (D : (p11 * p00 - p10 * p01)%R <> 0%R).
  { intros E. apply H1.
    replace (p11 - p10 / p00 * p01)%R
      with ((p11 * p00 - p10 * p01) / p00)%R by (field; auto).
    rewrite E. field; auto. }
  assert (D' : (p00 * (p11 * p00 - p10 * p01)
                - p01 * p00 * (p10 - p10))%R <> 0%R).
  { replace (p00 * (p11 * p00 - p10 * p01) - p01 * p00 * (p10 - p10))%R
      with (p00 * (p11 * p00 - p10 * p01))%R by ring.
    now apply Rmult_integral_contrapositive_currified. }
  repeat split; field; auto.
Qed.

(** ** What the fitter can raise *)

Lemma quiet_load b i : quiet (load b i).
Proof.
  unfold quiet, load; intros e; destruct (in_bounds b i); discriminate.
Qed.

Lemma quiet_store b i v : quiet (store b i v).
Proof.
  unfold quiet, store; intros e; destruct (in_bounds b i); discriminate.
Qed.

Lemma quiet_ok {A : Type} (a : A) : quiet (Ok a).
Proof. intros e; discriminate. Qed.

Lemma quiet_rbind {A B : Type} (r : result A) (f : A -> result B) :
  quiet r -> (forall a, quiet (f a)) -> quiet (rbind r f).
Proof.
  unfold quiet; intros Hr Hf e. destruct r; simpl; try discriminate.
  - apply Hf.
  - intros H; apply (Hr e0); reflexivity.
Qed.

Lemma quiet_for_loop {S : Type} wrap bound (body : Z -> S -> result S) :
  (forall i s, quiet (body i s)) ->
  forall fuel i s, quiet (for_loop wrap fuel i bound body s).
Proof.
  intros Hb fuel; induction fuel as [|fuel IH]; intros i s; simpl.
  - intros e; discriminate.
  - destruct (i <? bound); [|apply quiet_ok].
    apply quiet_rbind; auto.
Qed.

Lemma quiet_store_each wrap (f : R -> result R) items :
  (forall c, quiet (f c)) ->
  forall buf i, quiet (store_each wrap f buf i items).
Proof.
  intros Hf; induction items as [|c rest IH]; intros buf i; simpl.
  - apply quiet_ok.
  - apply quiet_rbind; auto. intros v.
    apply quiet_rbind; auto using quiet_store.
Qed.

Ltac quiet_loops :=
  repeat first
    [ apply quiet_for_loop; intros
    | apply quiet_rbind; [|intros]
    | apply quiet_load | apply quiet_store | apply quiet_ok ].

Lemma quiet_build_XT fuel x lenx leny deg XT :
  quiet (build_XT fuel x lenx leny deg XT).
Proof. unfold build_XT; quiet_loops. Qed.

Lemma quiet_build_prod fuel XT lenx deg prod :
  quiet (build_prod fuel XT lenx deg prod).
Proof. unfold build_prod; quiet_loops. Qed.

Lemma quiet_build_XTy fuel XT y lenx deg x :
  quiet (build_XTy fuel XT y lenx deg x).
Proof. unfold build_XTy; quiet_loops. Qed.

Lemma quiet_build_beta fuel prod x deg betav :
  quiet (build_beta fuel prod x deg betav).
Proof. unfold build_beta; quiet_loops. Qed.

Lemma quiet_reverse_beta fuel deg betav : quiet (reverse_beta fuel deg betav).
Proof. unfold reverse_beta; quiet_loops. Qed.

Lemma quiet_fill_indices fuel lenx x : quiet (fill_indices fuel lenx x).
Proof. unfold fill_indices; quiet_loops. Qed.

Lemma quiet_fill_array_iterable array items :
  quiet (fill_array_iterable array items).
Proof.
  unfold fill_array_iterable. apply quiet_store_each. intros; apply quiet_ok.
Qed.

(** Past its checks, the only exception [polyfit] raises is the one of
    line 158. *)
Lemma fit_solve_raise {T : pivot_test} fuel s h e :
  outcome (fit_solve fuel s h) = Raise e -> e = ValueError msg_singular.
Proof.
  unfold fit_solve, outcome, bind, m_new, m_del, lift, ret,
    create_new_ndarray, mp_raise_ValueError.
  destruct (build_XT fuel (s_x s) (s_lenx s) (s_leny s) (s_deg s) _)
    eqn:E1; cbn [fst]; try discriminate;
    [|intros _; exfalso; eapply quiet_build_XT; exact E1].
  destruct (build_prod fuel a (s_lenx s) (s_deg s) _)
    eqn:E2; cbn [fst]; try discriminate;
    [|intros _; exfalso; eapply quiet_build_prod; exact E2].
  destruct (fst (linalg_invert_matrix a0 (s_deg s + 1))); cbn [negb fst].
  2:{ intros H; injection H as <-; reflexivity. }
  destruct (build_XTy fuel a (s_y s) (s_lenx s) (s_deg s) (s_x s))
    eqn:E3; cbn [fst]; try discriminate;
    [|intros _; exfalso; eapply quiet_build_XTy; exact E3].
  cbn [nd_items].
  destruct (build_beta fuel _ a1 (s_deg s) _)
    eqn:E4; cbn [fst]; try discriminate;
    [|intros _; exfalso; eapply quiet_build_beta; exact E4].
  destruct (reverse_beta fuel (s_deg s) a2)
    eqn:E5; cbn [fst]; try discriminate.
  intros _; exfalso; eapply quiet_reverse_beta; exact E5.
Qed.

Lemma fit_prologue_quiet_fit2 fuel ys degree h :
  u8 degree <= u16 (len ys) ->
  quiet (outcome (fit_prologue fuel (Fit2 ys degree) h)).
Proof.
  intros Hd. unfold fit_prologue. fold (len ys).
  replace (u16 (len ys) <? u8 degree) with false by lia.
  unfold outcome, bind, m_new, lift, ret.
  destruct (fill_indices fuel _ _) eqn:E1; cbn [fst];
    try (intros e; discriminate);
    [|exfalso; eapply quiet_fill_indices; exact E1].
  destruct (fill_array_iterable _ ys) eqn:E2; cbn [fst];
    try (intros e; discriminate).
  exfalso; eapply quiet_fill_array_iterable; exact E2.
Qed.

Lemma fit_prologue_quiet_fit3 fuel xs ys degree h :
  u16 (len xs) = u16 (len ys) -> u8 degree <= u16 (len ys) ->
  quiet (outcome (fit_prologue fuel (Fit3 xs ys degree) h)).
Proof.
  intros Hx Hd. unfold fit_prologue. fold (len ys). fold (len xs).
  rewrite Hx, Z.eqb_refl. cbn [negb].
  replace (u16 (len ys) <? u8 degree) with false by lia.
  unfold outcome, bind, m_new, lift, ret.
  destruct (fill_array_iterable _ xs) eqn:E1; cbn [fst];
    try (intros e; discriminate);
    [|exfalso; eapply quiet_fill_array_iterable; exact E1].
  destruct (fill_array_iterable _ ys) eqn:E2; cbn [fst];
    try (intros e; discriminate).
  exfalso; eapply quiet_fill_array_iterable; exact E2.
Qed.

Lemma poly_polyfit_raise {T : pivot_test} fuel args h e :
  quiet (outcome (fit_prologue fuel args h)) ->
  outcome (poly_polyfit fuel args h) = Raise e -> e = ValueError msg_singular.
Proof.
  intros Hq. unfold poly_polyfit, bind.
  unfold outcome in Hq.
  destruct (fit_prologue fuel args h) as [[s| | |] h1] eqn:E;
    cbn [fst] in *; try discriminate.
  - apply fit_solve_raise.
  - intros _. exfalso. eapply Hq; reflexivity.
Qed.

(** ** The checks of the fitter *)

Lemma u8_le_u16 n : 0 <= n -> u8 n <= u16 n.
Proof.
  intros Hn. unfold u8, u16.
  rewrite <- (Z.mod_mod_divide n 65536 256) by (exists 256; reflexivity).
  apply Z.mod_le; [apply Z.mod_pos_bound|]; lia.
Qed.

(** C10: the degree reaches the code through [(uint8_t)]: a call with degree
    [d] is the call with degree [d mod 256], in both modes. *)
Theorem polyfit_degree_is_taken_mod_256 {T : pivot_test} :
  forall (fuel : nat) (xs ys : list R) (d : Z) (h : ledger),
    poly_polyfit fuel (Fit2 ys d) h
    = poly_polyfit fuel (Fit2 ys (d mod 256)) h /\
    poly_polyfit fuel (Fit3 xs ys d) h
    = poly_polyfit fuel (Fit3 xs ys (d mod 256)) h.
Proof.
  intros fuel xs ys d h.
  unfold poly_polyfit, fit_prologue.
  replace (u8 (d mod 256)) with (u8 d)
    by (unfold u8; now rewrite Z.mod_mod).
  split; reflexivity.
Qed.

(** C5, on the values the code compares, the lengths as [uint16_t] and the
    degree as [uint8_t]: the three-argument mode raises when the lengths
    differ; both modes raise when the length is below the degree; when the
    degree is at most the length no check raises, the one exception left to
    the call being that of line 158; and the degree is at most the length
    whenever it equals the number of samples. *)
Theorem polyfit_precondition_checks {T : pivot_test} :
  forall (fuel : nat) (xs ys : list R) (degree : Z) (h : ledger),
    (u16 (len xs) <> u16 (len ys) ->
     poly_polyfit fuel (Fit3 xs ys degree) h
     = (Raise (ValueError msg_lengths), h)) /\
    (u16 (len xs) = u16 (len ys) -> u16 (len ys) < u8 degree ->
     poly_polyfit fuel (Fit3 xs ys degree) h
     = (Raise (ValueError msg_degrees), h)) /\
    (u16 (len ys) < u8 degree ->
     poly_polyfit fuel (Fit2 ys degree) h
     = (Raise (ValueError msg_degrees), h)) /\
    (u8 degree <= u16 (len ys) ->
     (forall e, outcome (poly_polyfit fuel (Fit2 ys degree) h) = Raise e ->
                e = ValueError msg_singular) /\
     (u16 (len xs) = u16 (len ys) ->
      forall e, outcome (poly_polyfit fuel (Fit3 xs ys degree) h) = Raise e ->
                e = ValueError msg_singular)) /\
    (degree = len ys -> u8 degree <= u16 (len ys)).
Proof.
  intros fuel xs ys degree h.
  split; [|split; [|split; [|split]]].
  - intros Hne. unfold poly_polyfit, bind, fit_prologue.
    fold (len xs). fold (len ys).
    destruct (Z.eqb_spec (u16 (len xs)) (u16 (len ys))); [contradiction|].
    reflexivity.
  - intros He Hlt. unfold poly_polyfit, bind, fit_prologue.
    fold (len xs). fold (len ys).
    rewrite He, Z.eqb_refl. cbn [negb].
    replace (u16 (len ys) <? u8 degree) with true by lia. reflexivity.
  - intros Hlt. unfold poly_polyfit, bind, fit_prologue. fold (len ys).
    replace (u16 (len ys) <? u8 degree) with true by lia. reflexivity.
  - intros Hle. split.
    + intros e. apply poly_polyfit_raise.
      now apply fit_prologue_quiet_fit2.
    + intros He e. apply poly_polyfit_raise.
      now apply fit_prologue_quiet_fit3.
  - intros ->. apply u8_le_u16, len_nonneg.
Qed.

Lemma invert_1x1 {T : pivot_test} p :
  numerically_zero p = false ->
  linalg_invert_matrix [p] 1 = (true, [(1 / p)%R]).
Proof.
  intros Hp. unfold linalg_invert_matrix.
  change (Z.to_nat 1) with 1%nat. cbn [seq gauss_jordan].
  change (of_flat 1 [p] 0%nat 0%nat) with p.
  rewrite Hp. reflexivity.
Qed.

(** Degree 0 on two samples, when the test lets the pivot 2 through: the
    fit is their mean. *)
Lemma fit_solve_mean {T : pivot_test} fuel x0 x1 y0 y1 h :
  numerically_zero (0 + 1 * 1 + 1 * 1)%R = false ->
  (2 < fuel)%nat ->
  fit_solve fuel (mk_samples 2 2 0 [x0; x1] [y0; y1])
            (("y", 2) :: ("x", 2) :: h)
  = (Ok (mk_ndarray 1 1 [((y0 + y1) / 2)%R]), ("beta", 1) :: h).
Proof.
  intros Hk Hf.
  assert (Hg : gram_flat [x0; x1] 2 0 = [(0 + 1 * 1 + 1 * 1)%R])
    by reflexivity.
  assert (Hi : linalg_invert_matrix (gram_flat [x0; x1] 2 0) (0 + 1)
               = (true, [(1 / (0 + 1 * 1 + 1 * 1))%R])).
  { rewrite Hg. now apply invert_1x1. }
  rewrite fit_solve_regular; try (unfold len; simpl; lia).
  - unfold fit_beta. rewrite Hi. cbn [snd].
    change ((0 + 1) * 1) with 1.
    do 3 f_equal.
    change (Z.to_nat (0 + 1)) with 1%nat. cbn [seq map].
    f_equal. unfold sumZ, moment, sumZ. 
    change (Z.to_nat (0 + 1)) with 1%nat.
    change (Z.to_nat 2) with 2%nat. cbn [sum_n].
    unfold get. simpl. field.
  - now rewrite Hi.
Qed.

(** C5 as stated fails on a degree that does not fit 8 bits: two samples
    are fewer than the degree 256, and the call is accepted and fits the
    degree 0 (the pivot is 2, here under the test with no threshold). *)
Lemma polyfit_degree_256_not_rejected :
  poly_polyfit (T := exactly_zero) 3 (Fit2 [1; 1]%R 256) []
  = (Ok (mk_ndarray 1 1 [((1 + 1) / 2)%R]), [("beta", 1)]).
Proof.
  unfold poly_polyfit, bind.
  rewrite fit_prologue_fit2.
  - apply (fit_solve_mean 3 _ _ 1%R 1%R []); [|lia].
    apply exactly_zero_keeps. lra.
  - unfold len; simpl; lia.
  - change (u8 256) with 0. unfold len; simpl; lia.
  - unfold len; simpl; lia.
Qed.

(** ** The fitter as a whole *)

Lemma fit_prologue_ledger fuel args h s h1 :
  fit_prologue fuel args h = (Ok s, h1) ->
  h1 = ("y", s_leny s) :: ("x", s_lenx s) :: h.
Proof.
  unfold fit_prologue, mp_raise_ValueError, bind, m_new, lift, ret.
  destruct args as [ys degree|xs ys degree].
  - destruct (_ <? _); [discriminate|].
    destruct (fill_indices _ _ _); try discriminate.
    destruct (fill_array_iterable _ _); try discriminate.
    intros H; injection H as <- <-. reflexivity.
  - destruct (negb _); [discriminate|].
    destruct (_ <? _); [discriminate|].
    destruct (fill_array_iterable _ xs); try discriminate.
    destruct (fill_array_iterable _ ys); try discriminate.
    intros H; injection H as <- <-. reflexivity.
Qed.

(** The two ways a call that passed its checks ends, on at most 255
    samples, more than the degree. *)
Lemma fit_solve_cases {T : pivot_test} fuel x y n deg h :
  0 <= n <= 255 -> 0 <= deg <= 254 -> deg < n -> len x = n -> len y = n ->
  (256 < fuel)%nat ->
  fit_solve fuel (mk_samples n n deg x y) (("y", n) :: ("x", n) :: h)
  = (Raise (ValueError msg_singular), h) \/
  fit_solve fuel (mk_samples n n deg x y) (("y", n) :: ("x", n) :: h)
  = (Ok (mk_ndarray (deg + 1) 1 (fit_beta x y n deg)),
     ("beta", (deg + 1) * 1) :: h).
Proof.
  intros Hn Hdeg Hle Hx Hy Hf.
  destruct (fst (linalg_invert_matrix (gram_flat x n deg) (deg + 1)))
    eqn:Hinv.
  - right. apply fit_solve_regular; auto; lia.
  - left. apply fit_solve_singular; auto; lia.
Qed.

(** C6: when the inverter reports failure, whatever its test for a zero
    pivot, the call ends in the [ValueError] of line 158 with the ledger as
    it found it: [XT], [x], [y] and [prod] are released and nothing is
    returned. *)
Theorem polyfit_singular_releases_buffers {T : pivot_test} :
  forall (fuel : nat) (args : fit_args) (h h1 : ledger) (s : samples)
         (XT prod : buffer),
    fit_prologue fuel args h = (Ok s, h1) ->
    build_XT fuel (s_x s) (s_lenx s) (s_leny s) (s_deg s)
             (repeat 0%R (Z.to_nat ((s_deg s + 1) * s_leny s))) = Ok XT ->
    build_prod fuel XT (s_lenx s) (s_deg s)
               (repeat 0%R (Z.to_nat ((s_deg s + 1) * (s_deg s + 1))))
    = Ok prod ->
    fst (linalg_invert_matrix prod (s_deg s + 1)) = false ->
    poly_polyfit fuel args h = (Raise (ValueError msg_singular), h).
Proof.
  intros fuel args h h1 s XT prod Hp HXT Hprod Hinv.
  pose proof (fit_prologue_ledger _ _ _ _ _ Hp) as ->.
  unfold poly_polyfit, bind. rewrite Hp.
  unfold fit_solve, bind, m_new, lift.
  rewrite HXT, Hprod, Hinv. reflexivity.
Qed.

(** Both sample points at 0 and the degree 1: the second pivot is the
    exact zero, which every test refuses. *)
Lemma polyfit_singular_releases_buffers_witness :
  poly_polyfit (T := exactly_zero) 257 (Fit3 [0; 0]%R [1; 2]%R 1) []
  = (Raise (ValueError msg_singular), []).
Proof.
  destruct (fit_design 257 [0; 0]%R 2 1) as [XT (E & L & G & P)];
    try (unfold len; simpl; lia).
  refine (polyfit_singular_releases_buffers
            (T := exactly_zero) 257%nat (Fit3 [0; 0]%R [1; 2]%R 1) [] _
            (mk_samples 2 2 1 [0; 0]%R [1; 2]%R) XT
            (gram_flat [0; 0]%R 2 1) _ E P _).
  - apply (fit_prologue_fit3 257 [0; 0]%R [1; 2]%R 1 []);
      unfold len; simpl; try reflexivity; change (u8 1) with 1; lia.
  - apply (gram_singular_constant _ _ _ 0%R); try lia.
    intros k Hk. assert (k = 0 \/ k = 1) as [-> | ->] by lia; reflexivity.
Defined.

(** C6 as stated fails on a degree that does not fit 8 bits: with both x
    samples equal and the degree 256, the call fits the degree 0 and
    returns the mean (the pivot is 2, here under the test with no
    threshold). *)
Lemma polyfit_identical_x_degree_256_returns :
  poly_polyfit (T := exactly_zero) 3 (Fit3 [1; 1]%R [1; 1]%R 256) []
  = (Ok (mk_ndarray 1 1 [((1 + 1) / 2)%R]), [("beta", 1)]).
Proof.
  unfold poly_polyfit, bind.
  rewrite fit_prologue_fit3.
  - apply (fit_solve_mean 3 _ _ 1%R 1%R []); [|lia].
    apply exactly_zero_keeps. lra.
  - unfold len; simpl; lia.
  - reflexivity.
  - change (u8 256) with 0. unfold len; simpl; lia.
Qed.

(** C9: the claim fails with as many samples as the degree.  The checks
    of lines 98 and 118 let [leny == deg] through, and past them the call
    ends well only when the inverter refuses the product matrix.  When the
    inverter accepts it, lines 162-168 store [deg + 1] sums in the block
    [x], which has [lenx == deg] cells: the loop runs inside its blocks up
    to [i == deg] and then writes [x[deg]] past the end of [x]. *)
Theorem polyfit_as_many_samples_as_degree_overruns_x :
  forall (fuel : nat) (XT y x : buffer) (n : Z),
    0 <= n <= 254 -> len x = n -> len y = n -> len XT = (n + 1) * n ->
    (Z.to_nat n + 1 < fuel)%nat ->
    build_XTy fuel XT y n n x = Fault.
Proof.
  intros fuel XT y x n Hn Hx Hy HXT Hf. unfold build_XTy.
  assert (Hsum : forall i, 0 <= i <= n ->
            for_loop u16 fuel 0 n
              (fun j sum => a <- load XT (i * n + j) ;;
                            b <- load y j ;;
                            Ok (sum + a * b)%R)%res 0%R
            = Ok (sumZ (fun j => get XT (i * n + j) * get y j)%R n)).
  { intros i Hi.
    apply (sum_loop u16 fuel XT y (fun j => i * n + j) (fun j => j));
      try lia.
    - intros z Hz; apply u16_small; lia.
    - intros k Hk. nia. }
  replace fuel with (Z.to_nat n + (1 + (fuel - Z.to_nat n - 1)))%nat at 1
    by lia.
  match goal with
  | |- for_loop _ _ _ _ ?body _ = _ =>
      destruct (for_loop_prefix u16 (fun _ b => len b = n) (n + 1) body 0 n)
        with (k := Z.to_nat n) (fuel := (1 + (fuel - Z.to_nat n - 1))%nat)
             (i := 0) (s := x) as [x1 [L1 E1]]
  end.
  - lia.
  - intros z Hz; apply u16_small; lia.
  - intros i b Hi Hb. cbv beta. rewrite Hsum by lia. cbn [rbind].
    rewrite store_ok by lia.
    eexists; split; [reflexivity|]. now rewrite len_upd.
  - lia.
  - lia.
  - assumption.
  - rewrite E1. change (1 + (fuel - Z.to_nat n - 1))%nat
      with (S (fuel - Z.to_nat n - 1)).
    rewrite for_loop_step by lia.
    rewrite Hsum by lia. cbn [rbind].
    rewrite store_fault by lia. reflexivity.
Qed.

Lemma polyfit_as_many_samples_as_degree_overruns_x_witness :
  build_XTy 3 [1; 3]%R [1%R] 1 1 [3%R] = Fault.
Proof.
  refine (polyfit_as_many_samples_as_degree_overruns_x
            3%nat [1; 3]%R [1%R] [3%R] 1 _ _ _ _ _);
    unfold len; simpl; lia.
Defined.

(** ** Fitting a line *)

Lemma len_linear_samples a b n : 0 <= n -> len (linear_samples a b n) = n.
Proof. intros; unfold linear_samples; rewrite len_map_seq; lia. Qed.

Lemma get_linear_samples a b n k :
  0 <= k < n -> get (linear_samples a b n) k = (a * IZR k + b)%R.
Proof.
  intros Hk; unfold linear_samples. rewrite get_map_seq by lia.
  now rewrite Z2Nat.id by lia.
Qed.

Lemma sum_indices n :
  0 <= n -> (2 * sumZ IZR n = IZR n * (IZR n - 1))%R.
Proof.
  intros Hn. rewrite <- (Z2Nat.id n) by assumption.
  induction (Z.to_nat n) as [|m IH].
  - rewrite sumZ_0. simpl. ring.
  - rewrite Nat2Z.inj_succ. unfold Z.succ.
    rewrite sumZ_succ, plus_IZR by lia.
    replace (2 * (sumZ IZR (Z.of_nat m) + IZR (Z.of_nat m)))%R
      with (2 * sumZ IZR (Z.of_nat m) + 2 * IZR (Z.of_nat m))%R by ring.
    rewrite IH. ring.
Qed.

Lemma sum_squares n :
  0 <= n ->
  (6 * sumZ (fun k => IZR k * IZR k) n
   = (IZR n - 1) * IZR n * (2 * IZR n - 1))%R.
Proof.
  intros Hn. rewrite <- (Z2Nat.id n) by assumption.
  induction (Z.to_nat n) as [|m IH].
  - rewrite sumZ_0. simpl. ring.
  - rewrite Nat2Z.inj_succ. unfold Z.succ.
    rewrite sumZ_succ, plus_IZR by lia.
    set (r := IZR (Z.of_nat m)) in *.
    set (s := sumZ (fun k => IZR k * IZR k)%R (Z.of_nat m)) in *.
    replace (6 * (s + r * r))%R with (6 * s + 6 * (r * r))%R by ring.
    rewrite IH. ring.
Qed.

Lemma gram_indices n :
  0 <= n ->
  gram (indices n) n 0 0 = IZR n /\
  gram (indices n) n 0 1 = sumZ IZR n /\
  gram (indices n) n 1 0 = sumZ IZR n /\
  gram (indices n) n 1 1 = sumZ (fun k => IZR k * IZR k)%R n.
Proof.
  intros Hn. unfold gram. repeat split.
  - rewrite (sumZ_ext _ (fun _ => 1%R)) by (intros; simpl; ring).
    rewrite sumZ_const by lia. ring.
  - apply sumZ_ext. intros k Hk. rewrite get_indices by lia. simpl. ring.
  - apply sumZ_ext. intros k Hk. rewrite get_indices by lia. simpl. ring.
  - apply sumZ_ext. intros k Hk. rewrite get_indices by lia. simpl. ring.
Qed.

Lemma moment_linear a b n :
  0 <= n ->
  moment (indices n) (linear_samples a b n) n 0
  = (a * sumZ IZR n + b * IZR n)%R /\
  moment (indices n) (linear_samples a b n) n 1
  = (a * sumZ (fun k => IZR k * IZR k) n + b * sumZ IZR n)%R.
Proof.
  intros Hn. unfold moment. split.
  - rewrite (sumZ_ext _ (fun k => a * IZR k + b)%R).
    2:{ intros k Hk. rewrite get_linear_samples by lia. simpl. ring. }
    rewrite sumZ_plus, sumZ_scale, sumZ_const by lia. ring.
  - rewrite (sumZ_ext _ (fun k => a * (IZR k * IZR k) + b * IZR k)%R).
    2:{ intros k Hk. rewrite get_linear_samples, get_indices by lia.
        simpl. ring. }
    rewrite sumZ_plus, !sumZ_scale. ring.
Qed.

(** The pivots of the fit of a line on [0, ..., n-1] are [n] and
    [(n-1) n (n+1) / 12], both at least 1/2. *)
Lemma fit_line_beta {T : pivot_test} a b n :
  (forall p, (/ 2 <= p)%R -> numerically_zero p = false) ->
  2 <= n ->
  fst (linalg_invert_matrix (gram_flat (indices n) n 1) (1 + 1)) = true /\
  fit_beta (indices n) (linear_samples a b n) n 1 = [a; b].
Proof.
  intros Hkeep Hn.
  destruct (gram_indices n) as (G00 & G01 & G10 & G11); [lia|].
  destruct (moment_linear a b n) as (M0 & M1); [lia|].
  pose proof (sum_indices n ltac:(lia)) as S1.
  pose proof (sum_squares n ltac:(lia)) as S2.
  assert (Hr : (2 <= IZR n)%R) by (apply IZR_le; lia).
  set (r := IZR n) in *.
  set (t1 := sumZ IZR n) in *.
  set (t2 := sumZ (fun k => IZR k * IZR k)%R n) in *.
  assert (Hg : gram_flat (indices n) n 1 = [r; t1; t1; t2]).
  { change (gram_flat (indices n) n 1)
      with [gram (indices n) n 0 0; gram (indices n) n 0 1;
            gram (indices n) n 1 0; gram (indices n) n 1 1].
    now rewrite G00, G01, G10, G11. }
  assert (Hp : (/ 2 <= t2 - t1 / r * t1)%R).
  { assert (E : (12 * (t2 - t1 / r * t1) = (r - 1) * r * (r + 1))%R).
    { replace t1 with (r * (r - 1) / 2)%R by lra.
      replace t2 with ((r - 1) * r * (2 * r - 1) / 6)%R by lra.
      field. lra. }
    assert (6 <= (r - 1) * r * (r + 1))%R by nra.
    lra. }
  destruct (invert_2x2 r t1 t1 t2)
    as (i00 & i01 & i10 & i11 & Ei & I1 & I2 & I3 & I4);
    [apply Hkeep; lra|apply Hkeep; exact Hp|].
  change (1 + 1) with 2. unfold fit_beta. change (1 + 1) with 2.
  rewrite Hg, Ei. cbn [fst snd]. split; [reflexivity|].
  change (Z.to_nat 2) with 2%nat. cbn [seq map]. unfold sumZ.
  change (Z.to_nat 2) with 2%nat. cbn [sum_n].
  change (Z.of_nat 0) with 0. change (Z.of_nat 1) with 1.
  change (get [i00; i01; i10; i11] ((1 - 0) * 2 + 0)) with i10.
  change (get [i00; i01; i10; i11] ((1 - 0) * 2 + 1)) with i11.
  change (get [i00; i01; i10; i11] ((1 - 1) * 2 + 0)) with i00.
  change (get [i00; i01; i10; i11] ((1 - 1) * 2 + 1)) with i01.
  rewrite M0, M1. f_equal; [|f_equal].
  - replace (0 + i10 * (a * t1 + b * r) + i11 * (a * t2 + b * t1))%R
      with (a * (i10 * t1 + i11 * t2) + b * (i10 * r + i11 * t1))%R by ring.
    rewrite I3, I4. ring.
  - replace (0 + i00 * (a * t1 + b * r) + i01 * (a * t2 + b * t1))%R
      with (a * (i00 * t1 + i01 * t2) + b * (i00 * r + i01 * t1))%R by ring.
    rewrite I1, I2. ring.
Qed.

(** C3: the claim fails from 256 samples on.  The row counter of lines
    129-134 is 8 bits wide and its bound, the sample count, 16 bits: with
    the 256 samples of the line [y = i] the counter wraps to 0 before it
    reaches the bound, and the call never returns, whatever the pivot
    test. *)
Theorem fit_256_samples_never_returns {T : pivot_test} :
  never_returns
    (fun fuel => poly_polyfit fuel (Fit2 (linear_samples 1 0 256) 1) []).
Proof.
  intros fuel. cbv beta.
  assert (Hlen : len (linear_samples 1 0 256) = 256)
    by (apply len_linear_samples; lia).
  destruct (le_lt_dec fuel 256) as [Hsmall|Hbig].
  - unfold poly_polyfit, bind, fit_prologue, outcome.
    fold (len (linear_samples 1 0 256)). rewrite Hlen.
    change (u16 256 <? u8 1) with false. cbv iota.
    change (u16 256) with 256.
    unfold bind, m_new, lift, fill_indices.
    rewrite (for_loop_starve usize (fun _ x => len x = 256) 256 _ 0).
    + reflexivity.
    + intros z Hz; apply usize_small; lia.
    + intros i x Hi Hx. rewrite store_ok by lia.
      eexists; split; [reflexivity|]. now rewrite len_upd.
    + lia.
    + lia.
    + now rewrite len_repeat.
  - unfold poly_polyfit, bind.
    rewrite fit_prologue_fit2; rewrite ?Hlen; try lia;
      try (change (u8 1) with 1; lia).
    unfold fit_solve, bind, m_new, lift, outcome.
    cbn [s_lenx s_leny s_deg s_x].
    unfold build_XT.
    rewrite (for_loop_spin u8 (fun XT => len XT = 512) 256).
    + reflexivity.
    + intros z. apply u8_range.
    + intros i XT Hi HXT. right.
      rewrite store_ok by lia. cbn [rbind].
      match goal with
      | |- exists s', for_loop _ _ _ _ ?body ?s0 = _ /\ _ =>
          destruct (for_loop_inv u8 (fun _ XT => len XT = 512)
                                 (u8 1 + 1) body 1)
            with (fuel := fuel) (i := 1) (s := s0) as [XT' [E L]]
      end.
      * intros z Hz. apply u8_small. change (u8 1) with 1 in Hz. lia.
      * change (u8 1) with 1. intros j XT1 Hj HXT1.
        assert (j = 1) as -> by lia.
        rewrite !load_ok by (rewrite ?len_indices; lia). cbn [rbind].
        rewrite store_ok by lia.
        eexists; split; [reflexivity|]. now rewrite len_upd.
      * change (u8 1) with 1. lia.
      * now rewrite len_upd.
      * change (u8 1) with 1. lia.
      * exists XT'. split; assumption.
    + lia.
    + now rewrite len_repeat.
Qed.

(* ================================================================== *)
(** * Part III: further properties                                     *)
(* ================================================================== *)

(** ** The evaluator beyond one point *)

(** An index past the end of the block stops the walk with a fault. *)
Lemma store_each_overflow wrap (f : R -> result R) (g : R -> R) items :
  (forall c, In c items -> f c = Ok (g c)) ->
  forall buf i,
    0 <= i <= len buf -> len buf < i + len items ->
    (forall z, i < z <= len buf -> wrap z = z) ->
    store_each wrap f buf i items = Fault.
Proof.
  induction items as [|c rest IH]; intros Hf buf i Hi Hb Hw.
  - change (len []) with 0 in Hb. lia.
  - assert (Hlen : len (c :: rest) = len rest + 1)
      by (unfold len; simpl length; lia).
    rewrite Hlen in *. simpl. rewrite Hf by (now left). simpl.
    destruct (Z.eq_dec i (len buf)) as [->|Hne].
    + rewrite store_fault by lia. reflexivity.
    + rewrite store_ok by lia. simpl. rewrite Hw by lia.
      apply IH; rewrite ?len_upd; try lia.
      * intros c0 H; apply Hf; now right.
      * intros z Hz; apply Hw; lia.
Qed.

(** A walk whose index stays below [B] leaves the cells from [B] on as
    they were. *)
Lemma store_each_untouched wrap (f : R -> result R) B items :
  (forall c, exists v, f c = Ok v) ->
  (forall z, 0 <= wrap z < B) ->
  forall buf i,
    B <= len buf -> 0 <= i < B ->
    exists buf', store_each wrap f buf i items = Ok buf' /\
      len buf' = len buf /\
      forall k, B <= k -> get buf' k = get buf k.
Proof.
  intros Hf Hw. induction items as [|c rest IH]; intros buf i HB Hi.
  - exists buf. simpl. auto.
  - simpl. destruct (Hf c) as [v ->]. cbn [rbind].
    rewrite store_ok by lia. cbn [rbind].
    destruct (IH (upd (Z.to_nat i) v buf) (wrap (i + 1)))
      as (b' & E & L & G); rewrite ?len_upd; auto.
    exists b'. split; [exact E|]. split; [now rewrite L, len_upd|].
    intros k Hk. rewrite G by assumption.
    apply get_upd_other; lia.
Qed.

(** X1: on 1 to 255 coefficients and at most 65535 points, as many as the
    result has cells, [polyval] returns an array of the shape lines 36-45
    read from the points argument (the shape of an ndarray, one row of
    [ix->len] items otherwise), holding in order the polynomial at each
    point; the block [p] is released and the result is the one block the
    call leaves allocated. *)
Theorem polyval_one_value_per_point :
  forall (c : list R) (o_x : points) (fuel : nat) (h : ledger),
    c <> [] -> (length c <= 255)%nat ->
    len (points_items o_x) = points_m o_x * points_n o_x ->
    len (points_items o_x) <= 65535 ->
    (length c <= fuel)%nat ->
    poly_polyval fuel c o_x h
    = (Ok (mk_ndarray (points_m o_x) (points_n o_x)
                      (map (direct_sum c) (points_items o_x))),
       ("out", points_m o_x * points_n o_x) :: h).
Proof.
  intros c o_x fuel h Hne Hc Hmn Hx Hf.
  apply poly_polyval_spec; auto; unfold len in *.
  - destruct c; [congruence|simpl length in *; lia].
  - lia.
Qed.

Lemma polyval_one_value_per_point_witness :
  poly_polyval 2 [1; 1]%R (nd_points 3 1 [0; 2; 5]%R) []
  = (Ok (mk_ndarray (points_m (nd_points 3 1 [0; 2; 5]%R))
                    (points_n (nd_points 3 1 [0; 2; 5]%R))
                    (map (direct_sum [1; 1]%R)
                         (points_items (nd_points 3 1 [0; 2; 5]%R)))),
     [("out", points_m (nd_points 3 1 [0; 2; 5]%R)
              * points_n (nd_points 3 1 [0; 2; 5]%R))]).
Proof.
  refine (polyval_one_value_per_point
            [1; 1]%R (nd_points 3 1 [0; 2; 5]%R) 2%nat [] _ _ _ _ _);
    [discriminate | simpl; lia | reflexivity | unfold len; simpl; lia
    | simpl; lia].
Defined.

(** X2: more than 255 coefficients never reach Horner's scheme: the block
    [p] holds [len mod 256] cells, fewer than there are coefficients, and
    the copy of lines 61-64 runs past its end, whatever the points. *)
Theorem polyval_more_than_255_coefficients_fault :
  forall (c : list R) (o_x : points) (fuel : nat) (h : ledger),
    (255 < length c)%nat -> outcome (poly_polyval fuel c o_x h) = Fault.
Proof.
  intros c o_x fuel h Hc.
  unfold poly_polyval, outcome, bind, create_new_ndarray, m_new, lift.
  unfold read_coefficients. fold (len c).
  pose proof (u8_range (len c)) as Hr.
  rewrite (store_each_overflow u16 _ (fun a => a)).
  - reflexivity.
  - reflexivity.
  - rewrite len_repeat. lia.
  - rewrite len_repeat. unfold len in *. lia.
  - rewrite len_repeat. intros z Hz. apply u16_small. lia.
Qed.

Lemma polyval_more_than_255_coefficients_fault_witness :
  outcome (poly_polyval 0 (repeat 2%R 300) (other_points 1 [1%R]) [])
  = Fault.
Proof.
  refine (polyval_more_than_255_coefficients_fault
            (repeat 2%R 300) (other_points 1 [1%R]) 0%nat [] _).
  rewrite repeat_length. lia.
Defined.

(** X3: the output index of lines 66-74 is 16 bits wide.  Whatever the
    block [outf] holds when the loop starts and however many points the
    iterator yields, the loop writes below index 65536 only: on a block of
    65536 cells or more it never faults, and every cell from index 65536 on
    keeps what it held, so the values of the points past the first 65536
    land on cells already written. *)
Theorem polyval_cells_past_65535_unwritten :
  forall (c outf xs : list R) (fuel : nat),
    c <> [] -> (length c <= 255)%nat -> (length c <= fuel)%nat ->
    65536 <= len outf ->
    exists outf',
      eval_points fuel c (len c) outf xs = Ok outf' /\
      len outf' = len outf /\
      forall k, 65536 <= k -> get outf' k = get outf k.
Proof.
  intros c outf xs fuel Hne Hc Hf Hx.
  assert (Hlc : 1 <= len c <= 255).
  { unfold len. destruct c; [congruence|simpl length in *; lia]. }
  unfold eval_points.
  apply (store_each_untouched u16 (horner fuel c (len c)) 65536 xs).
  - intros x. eexists. apply horner_direct_sum; [assumption|unfold len; lia].
  - intros z. apply u16_range_lt.
  - assumption.
  - lia.
Qed.

Lemma polyval_cells_past_65535_unwritten_witness :
  exists outf',
    eval_points 1 [7%R] (len [7%R]) (repeat 5%R (Z.to_nat 65537)) [1; 2]%R
    = Ok outf' /\
    len outf' = len (repeat 5%R (Z.to_nat 65537)) /\
    forall k, 65536 <= k ->
              get outf' k = get (repeat 5%R (Z.to_nat 65537)) k.
Proof.
  refine (polyval_cells_past_65535_unwritten
            [7%R] (repeat 5%R (Z.to_nat 65537)) [1; 2]%R 1%nat _ _ _ _).
  - discriminate.
  - simpl; lia.
  - simpl; lia.
  - rewrite len_repeat. lia.
Defined.

(** ** The interpolator on any knots *)

Lemma valid_knots_lengths xp fp :
  well_formed xp -> well_formed fp -> ~ invalid_knots xp fp ->
  interp_rejects xp fp = false /\
  2 <= len (nd_items xp) /\ len (nd_items fp) = len (nd_items xp).
Proof.
  intros Hxp Hfp Hval.
  pose proof (interp_rejects_spec xp fp Hxp Hfp) as Hrej.
  destruct (interp_rejects xp fp) eqn:Hr; [exfalso; tauto|].
  split; [reflexivity|].
  unfold interp_rejects in Hr.
  rewrite !orb_false_iff, !negb_false_iff, !Z.ltb_ge, Z.eqb_eq in Hr.
  destruct Hr as [[[[_ _] H1] H2] H3]. unfold alen in *. lia.
Qed.

(** X4: the search loop of lines 239-248 needs no order on the knots to be
    safe: started on [left < right] inside the array, it reads inside the
    array only and ends on two adjacent indices between them; and when
    [xp[left] < x <= xp[right]] holds at the start, it holds for the pair
    the loop ends on. *)
Theorem bsearch_ends_on_adjacent_pair :
  forall (xp : buffer) (x : R) (l r : Z),
    0 <= l -> l < r -> r < len xp ->
    exists lo,
      bsearch xp x l r = Ok (lo, lo + 1) /\ l <= lo /\ lo + 1 <= r /\
      ((get xp l < x)%R -> (x <= get xp r)%R ->
       (get xp lo < x)%R /\ (x <= get xp (lo + 1))%R).
Proof. intros xp x l r. apply bsearch_bracket. Qed.

Lemma bsearch_ends_on_adjacent_pair_witness :
  exists lo,
    bsearch [3; 1; 2; 0]%R 1%R 0 3 = Ok (lo, lo + 1) /\
    0 <= lo /\ lo + 1 <= 3 /\
    ((get [3; 1; 2; 0]%R 0 < 1)%R -> (1 <= get [3; 1; 2; 0]%R 3)%R ->
     (get [3; 1; 2; 0]%R lo < 1)%R /\ (1 <= get [3; 1; 2; 0]%R (lo + 1))%R).
Proof.
  refine (bsearch_ends_on_adjacent_pair [3; 1; 2; 0]%R 1%R 0 3 _ _ _).
  - lia.
  - lia.
  - unfold len; simpl; lia.
Defined.

(** X5: past its validation [interp] cannot fail, whether the knots are
    sorted or not: for a well-formed query array it returns an array of the
    query's shape, one item per query item, each depending on the query
    item at its index only, and the result is the one block the call leaves
    allocated. *)
Theorem interp_total_on_any_knots :
  forall (x xp fp : ndarray) (left right : option R) (h : ledger),
    well_formed x -> well_formed xp -> well_formed fp ->
    ~ invalid_knots xp fp ->
    exists ys,
      poly_interp x xp fp left right h
      = (Ok (mk_ndarray (nd_m x) (nd_n x) ys),
         ("y", nd_m x * nd_n x) :: h) /\
      len ys = alen x /\
      forall i, 0 <= i < alen x ->
        get ys i = interp_value (nd_items xp) (nd_items fp) left right
                                (get (nd_items x) i).
Proof.
  intros x xp fp left right h Hx Hxp Hfp Hval.
  destruct (valid_knots_lengths xp fp Hxp Hfp Hval) as (Hr & _ & _).
  rewrite poly_interp_spec by assumption.
  eexists; split; [reflexivity|]. split; [apply len_map|].
  intros i Hi. apply get_map. exact Hi.
Qed.

Lemma interp_total_on_any_knots_witness :
  exists ys,
    poly_interp (mk_ndarray 2 1 [4; 0]%R) (mk_ndarray 1 3 [5; 1; 3]%R)
                (mk_ndarray 3 1 [0; 9; 2]%R) None (Some 1%R) []
    = (Ok (mk_ndarray 2 1 ys), [("y", 2 * 1)]) /\
    len ys = alen (mk_ndarray 2 1 [4; 0]%R) /\
    forall i, 0 <= i < alen (mk_ndarray 2 1 [4; 0]%R) ->
      get ys i = interp_value [5; 1; 3]%R [0; 9; 2]%R None (Some 1%R)
                              (get [4; 0]%R i).
Proof.
  refine (interp_total_on_any_knots
            (mk_ndarray 2 1 [4; 0]%R) (mk_ndarray 1 3 [5; 1; 3]%R)
            (mk_ndarray 3 1 [0; 9; 2]%R) None (Some 1%R) [] _ _ _ _).
  - unfold well_formed, alen, len; simpl; lia.
  - unfold well_formed, alen, len; simpl; lia.
  - unfold well_formed, alen, len; simpl; lia.
  - unfold invalid_knots, alen, len; simpl; lia.
Defined.

Lemma nondecreasing_le fp : nondecreasing fp ->
  forall d i, 0 <= i -> i + Z.of_nat d < len fp ->
              (get fp i <= get fp (i + Z.of_nat d))%R.
Proof.
  intros Hm d; induction d as [|d IH]; intros i Hi Hd.
  - rewrite Z.add_0_r. lra.
  - apply Rle_trans with (get fp (i + Z.of_nat d)).
    + apply IH; lia.
    + replace (i + Z.of_nat (S d)) with (i + Z.of_nat d + 1) by lia.
      apply Hm; lia.
Qed.

Lemma nondecreasing_pair fp i j :
  nondecreasing fp -> 0 <= i -> i <= j -> j < len fp ->
  (get fp i <= get fp j)%R.
Proof.
  intros Hm Hi Hij Hj.
  replace j with (i + Z.of_nat (Z.to_nat (j - i))) by lia.
  apply nondecreasing_le; auto; lia.
Qed.

(** Inside the knots the interpolant is a weighted mean of the two values
    of its segment. *)
Lemma interp_value_segment xp fp x :
  2 <= len xp -> len fp = len xp -> ascending xp ->
  (get xp 0 < x)%R -> (x < get xp (len xp - 1))%R ->
  exists lo,
    bracket xp x lo /\
    interp_value xp fp None None x
    = (get fp lo + (x - get xp lo) * (get fp (lo + 1) - get fp lo)
                   / (get xp (lo + 1) - get xp lo))%R.
Proof.
  intros Hn Hfp Ha H0 H1.
  destruct (interp_value_spec xp fp None None x Hn Hfp Ha)
    as (_ & _ & Hmid).
  destruct (Hmid H0 H1) as (lo & Hb & _ & _ & Hv).
  exists lo. split; assumption.
Qed.

Lemma segment_between (fl fr xl xr x m M : R) :
  (xl < x)%R -> (x <= xr)%R ->
  (m <= fl <= M)%R -> (m <= fr <= M)%R ->
  (m <= fl + (x - xl) * (fr - fl) / (xr - xl) <= M)%R.
Proof.
  intros H0 H1 Hl Hr.
  assert (Hd : (0 < xr - xl)%R) by lra.
  set (t := ((x - xl) / (xr - xl))%R).
  assert (Ht : (0 <= t <= 1)%R).
  { unfold t. split.
    - apply Rmult_le_pos; [lra|]. left. now apply Rinv_0_lt_compat.
    - apply Rmult_le_reg_r with (xr - xl)%R; [assumption|].
      unfold Rdiv. rewrite Rmult_assoc, Rinv_l by lra. lra. }
  replace (fl + (x - xl) * (fr - fl) / (xr - xl))%R
    with (fl + t * (fr - fl))%R by (unfold t; field; lra).
  split; nra.
Qed.

(** X6: with no [left]/[right] override and valid, strictly ascending
    knots, no item of the result leaves the range of [fp]: bounds [m] and
    [M] on every value of [fp] bound every item [interp] returns. *)
Theorem interp_stays_in_range_of_fp :
  forall (x xp fp : ndarray) (m M : R) (h : ledger),
    well_formed x -> well_formed xp -> well_formed fp ->
    ~ invalid_knots xp fp -> ascending (nd_items xp) ->
    (forall k, 0 <= k < alen fp -> (m <= get (nd_items fp) k <= M)%R) ->
    exists ys,
      outcome (poly_interp x xp fp None None h)
      = Ok (mk_ndarray (nd_m x) (nd_n x) ys) /\
      forall i, 0 <= i < alen x -> (m <= get ys i <= M)%R.
Proof.
  intros x xp fp m M h Hx Hxp Hfp Hval Ha Hrange.
  destruct (valid_knots_lengths xp fp Hxp Hfp Hval) as (Hr & Hn & Hl).
  rewrite poly_interp_spec by assumption.
  eexists; split; [reflexivity|].
  intros i Hi. unfold alen in *. rewrite get_map by assumption.
  set (q := get (nd_items x) i).
  destruct (interp_value_spec (nd_items xp) (nd_items fp) None None q)
    as (Hlow & Hhigh & _); auto.
  destruct (Rle_dec q (get (nd_items xp) 0)) as [H0|H0].
  { rewrite Hlow by assumption. cbn [default]. apply Hrange; lia. }
  destruct (Rge_dec q (get (nd_items xp) (len (nd_items xp) - 1)))
    as [H1|H1].
  { rewrite Hhigh by assumption. cbn [default]. apply Hrange; lia. }
  destruct (interp_value_segment (nd_items xp) (nd_items fp) q)
    as (lo & (B0 & B1 & B2 & B3) & ->); auto; try lra.
  apply segment_between; auto; apply Hrange; lia.
Qed.

Lemma interp_stays_in_range_of_fp_witness :
  exists ys,
    outcome (poly_interp (mk_ndarray 1 2 [1; 7]%R)
                         (mk_ndarray 1 3 [0; 2; 4]%R)
                         (mk_ndarray 1 3 [5; 3; 8]%R) None None [])
    = Ok (mk_ndarray 1 2 ys) /\
    forall i, 0 <= i < alen (mk_ndarray 1 2 [1; 7]%R) ->
              (3 <= get ys i <= 8)%R.
Proof.
  refine (interp_stays_in_range_of_fp
            (mk_ndarray 1 2 [1; 7]%R) (mk_ndarray 1 3 [0; 2; 4]%R)
            (mk_ndarray 1 3 [5; 3; 8]%R) 3%R 8%R [] _ _ _ _ _ _).
  - unfold well_formed, alen, len; simpl; lia.
  - unfold well_formed, alen, len; simpl; lia.
  - unfold well_formed, alen, len; simpl; lia.
  - unfold invalid_knots, alen, len; simpl; lia.
  - unfold ascending, len; simpl. intros i H0 H1.
    assert (i = 0 \/ i = 1) as [-> | ->] by lia; unfold get; simpl; lra.
  - unfold alen, len; simpl. intros k Hk.
    assert (k = 0 \/ k = 1 \/ k = 2) as [-> | [-> | ->]] by lia;
      unfold get; simpl; lra.
Defined.

(** X7: [interp] reproduces a line: when [fp[k] = a * xp[k] + b] at every
    knot of valid, strictly ascending knots, every query item between the
    first and the last knot is mapped to [a * x + b]. *)
Theorem interp_exact_on_a_line :
  forall (x xp fp : ndarray) (a b : R) (h : ledger),
    well_formed x -> well_formed xp -> well_formed fp ->
    ~ invalid_knots xp fp -> ascending (nd_items xp) ->
    (forall k, 0 <= k < alen xp ->
               get (nd_items fp) k = (a * get (nd_items xp) k + b)%R) ->
    exists ys,
      outcome (poly_interp x xp fp None None h)
      = Ok (mk_ndarray (nd_m x) (nd_n x) ys) /\
      forall i, 0 <= i < alen x ->
        (get (nd_items xp) 0 <= get (nd_items x) i)%R ->
        (get (nd_items x) i <= get (nd_items xp) (alen xp - 1))%R ->
        get ys i = (a * get (nd_items x) i + b)%R.
Proof.
  intros x xp fp a b h Hx Hxp Hfp Hval Ha Hline.
  destruct (valid_knots_lengths xp fp Hxp Hfp Hval) as (Hr & Hn & Hl).
  rewrite poly_interp_spec by assumption.
  eexists; split; [reflexivity|].
  intros i Hi Hge Hle. unfold alen in *. rewrite get_map by assumption.
  set (q := get (nd_items x) i) in *.
  destruct (interp_value_spec (nd_items xp) (nd_items fp) None None q)
    as (Hlow & Hhigh & _); auto.
  destruct (Rle_dec q (get (nd_items xp) 0)) as [H0|H0].
  { rewrite Hlow by assumption. cbn [default].
    rewrite Hline by lia. f_equal. f_equal. lra. }
  destruct (Rge_dec q (get (nd_items xp) (len (nd_items xp) - 1)))
    as [H1|H1].
  { rewrite Hhigh by assumption. cbn [default].
    rewrite Hl, Hline by lia. f_equal. f_equal. lra. }
  destruct (interp_value_segment (nd_items xp) (nd_items fp) q)
    as (lo & (B0 & B1 & B2 & B3) & ->); auto; try lra.
  rewrite !Hline by lia.
  assert (Hd : (get (nd_items xp) lo < get (nd_items xp) (lo + 1))%R)
    by (apply Ha; lia).
  field. lra.
Qed.

Lemma interp_exact_on_a_line_witness :
  exists ys,
    outcome (poly_interp (mk_ndarray 1 2 [1; 3]%R)
                         (mk_ndarray 1 3 [0; 2; 4]%R)
                         (mk_ndarray 1 3 [1; 5; 9]%R) None None [])
    = Ok (mk_ndarray 1 2 ys) /\
    forall i, 0 <= i < alen (mk_ndarray 1 2 [1; 3]%R) ->
      (get [0; 2; 4]%R 0 <= get [1; 3]%R i)%R ->
      (get [1; 3]%R i
       <= get [0; 2; 4]%R (alen (mk_ndarray 1 3 [0; 2; 4]%R) - 1))%R ->
      get ys i = (2 * get [1; 3]%R i + 1)%R.
Proof.
  refine (interp_exact_on_a_line
            (mk_ndarray 1 2 [1; 3]%R) (mk_ndarray 1 3 [0; 2; 4]%R)
            (mk_ndarray 1 3 [1; 5; 9]%R) 2%R 1%R [] _ _ _ _ _ _).
  - unfold well_formed, alen, len; simpl; lia.
  - unfold well_formed, alen, len; simpl; lia.
  - unfold well_formed, alen, len; simpl; lia.
  - unfold invalid_knots, alen, len; simpl; lia.
  - unfold ascending, len; simpl. intros i H0 H1.
    assert (i = 0 \/ i = 1) as [-> | ->] by lia; unfold get; simpl; lra.
  - unfold alen, len; simpl. intros k Hk.
    assert (k = 0 \/ k = 1 \/ k = 2) as [-> | [-> | ->]] by lia;
      unfold get; simpl; lra.
Defined.

Lemma ascending_le xp i j :
  ascending xp -> 0 <= i -> i <= j -> j < len xp ->
  (get xp i <= get xp j)%R.
Proof.
  intros Ha Hi Hij Hj. destruct (Z.eq_dec i j) as [->|Hne]; [lra|].
  left. apply ascending_pair; auto; lia.
Qed.

(** The value at any query point, with its segment when there is one. *)
Lemma interp_value_cases xp fp q :
  2 <= len xp -> len fp = len xp -> ascending xp ->
  ((q <= get xp 0)%R /\ interp_value xp fp None None q = get fp 0) \/
  ((q >= get xp (len xp - 1))%R /\
   interp_value xp fp None None q = get fp (len xp - 1)) \/
  ((get xp 0 < q)%R /\ (q < get xp (len xp - 1))%R /\
   exists lo,
     bracket xp q lo /\
     interp_value xp fp None None q
     = (get fp lo + (q - get xp lo) * (get fp (lo + 1) - get fp lo)
                    / (get xp (lo + 1) - get xp lo))%R).
Proof.
  intros Hn Hl Ha.
  destruct (interp_value_spec xp fp None None q Hn Hl Ha)
    as (Hlow & Hhigh & _).
  destruct (Rle_dec q (get xp 0)) as [H0|H0].
  { left. split; [assumption|]. now rewrite Hlow. }
  destruct (Rge_dec q (get xp (len xp - 1))) as [H1|H1].
  { right; left. split; [assumption|]. rewrite Hhigh by assumption.
    cbn [default]. now rewrite Hl. }
  right; right. split; [lra|]. split; [lra|].
  apply interp_value_segment; auto; lra.
Qed.

Lemma interp_value_bounds xp fp q :
  2 <= len xp -> len fp = len xp -> ascending xp -> nondecreasing fp ->
  (get fp 0 <= interp_value xp fp None None q <= get fp (len xp - 1))%R.
Proof.
  intros Hn Hl Ha Hm.
  assert (Hends : (get fp 0 <= get fp (len xp - 1))%R)
    by (apply nondecreasing_pair; auto; lia).
  destruct (interp_value_cases xp fp q Hn Hl Ha)
    as [[_ ->]|[[_ ->]|(_ & _ & lo & (B0 & B1 & B2 & B3) & ->)]];
    try lra.
  apply segment_between; auto; split;
    apply nondecreasing_pair; auto; lia.
Qed.

(** X8: with no override, valid and strictly ascending knots, and values
    [fp] that never decrease, [interp] never decreases either: a query
    item no larger than another is mapped to a value no larger. *)
Theorem interp_is_monotone :
  forall (x xp fp : ndarray) (h : ledger),
    well_formed x -> well_formed xp -> well_formed fp ->
    ~ invalid_knots xp fp -> ascending (nd_items xp) ->
    nondecreasing (nd_items fp) ->
    exists ys,
      outcome (poly_interp x xp fp None None h)
      = Ok (mk_ndarray (nd_m x) (nd_n x) ys) /\
      forall i j, 0 <= i < alen x -> 0 <= j < alen x ->
        (get (nd_items x) i <= get (nd_items x) j)%R ->
        (get ys i <= get ys j)%R.
Proof.
  intros x xp fp h Hx Hxp Hfp Hval Ha Hm.
  destruct (valid_knots_lengths xp fp Hxp Hfp Hval) as (Hr & Hn & Hl).
  rewrite poly_interp_spec by assumption.
  eexists; split; [reflexivity|].
  intros i j Hi Hj Hle. unfold alen in *. rewrite !get_map by assumption.
  set (q := get (nd_items x) i) in *. set (q' := get (nd_items x) j) in *.
  set (kn := nd_items xp) in *. set (fv := nd_items fp) in *.
  pose proof (interp_value_bounds kn fv q Hn Hl Ha Hm) as Bq.
  pose proof (interp_value_bounds kn fv q' Hn Hl Ha Hm) as Bq'.
  destruct (interp_value_cases kn fv q Hn Hl Ha)
    as [[_ E]|[[G E]|(L0 & L1 & lo & (B0 & B1 & B2 & B3) & E)]].
  { rewrite E. lra. }
  { destruct (interp_value_cases kn fv q' Hn Hl Ha)
      as [[G' E']|[[_ E']|(L0' & L1' & _)]]; try lra.
    assert (get kn 0 < get kn (len kn - 1))%R
      by (apply ascending_pair; auto; lia).
    lra. }
  destruct (interp_value_cases kn fv q' Hn Hl Ha)
    as [[G' E']|[[_ E']|(L0' & L1' & lo' & (B0' & B1' & B2' & B3') & E')]].
  { lra. }
  { rewrite E'. lra. }
  destruct (Z_lt_dec lo' lo) as [Hlt|Hge].
  { assert (get kn (lo' + 1) <= get kn lo)%R
      by (apply ascending_le; auto; lia).
    lra. }
  assert (Hseg : (get fv lo <= get fv (lo + 1))%R) by (apply Hm; lia).
  assert (Hseg' : (get fv lo' <= get fv (lo' + 1))%R) by (apply Hm; lia).
  destruct (Z.eq_dec lo lo') as [<-|Hne].
  - rewrite E, E'.
    assert (Hd : (0 < get kn (lo + 1) - get kn lo)%R) by lra.
    apply Rplus_le_compat_l. unfold Rdiv.
    apply Rmult_le_compat_r; [left; now apply Rinv_0_lt_compat|].
    apply Rmult_le_compat_r; lra.
  - assert (S1 : (get fv lo <= interp_value kn fv None None q
                  <= get fv (lo + 1))%R)
      by (rewrite E; apply segment_between; auto; lra).
    assert (S2 : (get fv lo' <= interp_value kn fv None None q'
                  <= get fv (lo' + 1))%R)
      by (rewrite E'; apply segment_between; auto; lra).
    assert (S3 : (get fv (lo + 1) <= get fv lo')%R)
      by (apply nondecreasing_pair; auto; lia).
    lra.
Qed.

Lemma interp_is_monotone_witness :
  exists ys,
    outcome (poly_interp (mk_ndarray 1 3 [3; 1; 9]%R)
                         (mk_ndarray 1 3 [0; 2; 4]%R)
                         (mk_ndarray 1 3 [1; 1; 6]%R) None None [])
    = Ok (mk_ndarray 1 3 ys) /\
    forall i j,
      0 <= i < alen (mk_ndarray 1 3 [3; 1; 9]%R) ->
      0 <= j < alen (mk_ndarray 1 3 [3; 1; 9]%R) ->
      (get [3; 1; 9]%R i <= get [3; 1; 9]%R j)%R ->
      (get ys i <= get ys j)%R.
Proof.
  refine (interp_is_monotone
            (mk_ndarray 1 3 [3; 1; 9]%R) (mk_ndarray 1 3 [0; 2; 4]%R)
            (mk_ndarray 1 3 [1; 1; 6]%R) [] _ _ _ _ _ _).
  - unfold well_formed, alen, len; simpl; lia.
  - unfold well_formed, alen, len; simpl; lia.
  - unfold well_formed, alen, len; simpl; lia.
  - unfold invalid_knots, alen, len; simpl; lia.
  - unfold ascending, len; simpl. intros i H0 H1.
    assert (i = 0 \/ i = 1) as [-> | ->] by lia; unfold get; simpl; lra.
  - unfold nondecreasing, len; simpl. intros i H0 H1.
    assert (i = 0 \/ i = 1) as [-> | ->] by lia; unfold get; simpl; lra.
Defined.

(** ** The blocks of the fitter on every exit *)

Lemma store_len b i v b' : store b i v = Ok b' -> len b' = len b.
Proof.
  unfold store. destruct (in_bounds b i); [|discriminate].
  intros H; injection H as <-. apply len_upd.
Qed.

Lemma for_loop_preserves {S : Type} (P : S -> Prop) wrap bound
      (body : Z -> S -> result S) :
  (forall i s s', P s -> body i s = Ok s' -> P s') ->
  forall fuel i s s',
    P s -> for_loop wrap fuel i bound body s = Ok s' -> P s'.
Proof.
  intros Hb fuel; induction fuel as [|fuel IH]; intros i s s' HP; simpl.
  - discriminate.
  - destruct (i <? bound).
    + destruct (body i s) as [s1| | |] eqn:E; simpl; try discriminate.
      apply IH. eapply Hb; eauto.
    + intros H; injection H as <-. assumption.
Qed.

Lemma build_beta_len fuel prod x deg betav betav' :
  build_beta fuel prod x deg betav = Ok betav' -> len betav' = len betav.
Proof.
  unfold build_beta.
  apply (for_loop_preserves (fun b => len b = len betav)); [|reflexivity].
  intros i s s' Hs.
  destruct (for_loop u16 fuel 0 (deg + 1) _ 0%R); simpl; try discriminate.
  intros H. apply store_len in H. lia.
Qed.

Lemma reverse_beta_len fuel deg betav betav' :
  reverse_beta fuel deg betav = Ok betav' -> len betav' = len betav.
Proof.
  unfold reverse_beta.
  apply (for_loop_preserves (fun b => len b = len betav)); [|reflexivity].
  intros i s s' Hs.
  destruct (load s i); simpl; try discriminate.
  destruct (load s (deg - i)); simpl; try discriminate.
  destruct (store s i a0) eqn:E1; simpl; try discriminate.
  intros H. apply store_len in H. apply store_len in E1. lia.
Qed.

Ltac dead_end :=
  let H := fresh in
  intros H; injection H as <- <-; split; intros; discriminate.

(** Every way out of lines 128-191 that raises or returns. *)
Lemma fit_solve_exit {T : pivot_test} fuel s h r h' :
  0 <= s_deg s ->
  fit_solve fuel s (("y", s_leny s) :: ("x", s_lenx s) :: h) = (r, h') ->
  (forall e, r = Raise e -> h' = h) /\
  (forall beta, r = Ok beta ->
     h' = ("beta", (s_deg s + 1) * 1) :: h /\
     nd_m beta = s_deg s + 1 /\ nd_n beta = 1 /\
     len (nd_items beta) = s_deg s + 1).
Proof.
  intros Hdeg.
  unfold fit_solve, bind, m_new, m_del, lift, ret, create_new_ndarray,
    mp_raise_ValueError.
  destruct (build_XT fuel (s_x s) (s_lenx s) (s_leny s) (s_deg s) _)
    as [XT|e1| |] eqn:E1; cbv beta iota zeta;
    [|exfalso; eapply quiet_build_XT; exact E1|dead_end ..].
  destruct (build_prod fuel XT (s_lenx s) (s_deg s) _)
    as [prod|e2| |] eqn:E2; cbv beta iota zeta;
    [|exfalso; eapply quiet_build_prod; exact E2|dead_end ..].
  destruct (fst (linalg_invert_matrix prod (s_deg s + 1))); cbn [negb];
    cbv beta iota zeta.
  2:{ intros H; injection H as <- <-. split; intros; [|discriminate].
      reflexivity. }
  destruct (build_XTy fuel XT (s_y s) (s_lenx s) (s_deg s) (s_x s))
    as [x'|e3| |] eqn:E3; cbv beta iota zeta;
    [|exfalso; eapply quiet_build_XTy; exact E3|dead_end ..].
  cbn [nd_items].
  destruct (build_beta fuel _ x' (s_deg s) _) as [b|e4| |] eqn:E4;
    cbv beta iota zeta;
    [|exfalso; eapply quiet_build_beta; exact E4|dead_end ..].
  destruct (reverse_beta fuel (s_deg s) b) as [b'|e5| |] eqn:E5;
    cbv beta iota zeta;
    [|exfalso; eapply quiet_reverse_beta; exact E5|dead_end ..].
  intros H; injection H as <- <-. split; intros e He; [discriminate|].
  injection He as <-.
  cbn [nd_m nd_n nd_items]. split; [reflexivity|].
  apply reverse_beta_len in E5. apply build_beta_len in E4.
  rewrite len_repeat in E4. repeat split. lia.
Qed.

Lemma fit_prologue_exit fuel args h r h' :
  fit_prologue fuel args h = (r, h') ->
  (forall e, r = Raise e -> h' = h) /\
  (forall s, r = Ok s ->
     h' = ("y", s_leny s) :: ("x", s_lenx s) :: h /\
     s_deg s = u8 (fit_degree args)).
Proof.
  intros H. split.
  - intros e ->. revert H.
    unfold fit_prologue, mp_raise_ValueError, bind, m_new, lift, ret.
    destruct args as [ys degree|xs ys degree].
    + destruct (_ <? _); [intros H; now injection H|].
      destruct (fill_indices _ _ _) eqn:E1; try discriminate;
        [|exfalso; eapply quiet_fill_indices; exact E1].
      destruct (fill_array_iterable _ _) eqn:E2; try discriminate.
      exfalso; eapply quiet_fill_array_iterable; exact E2.
    + destruct (negb _); [intros H; now injection H|].
      destruct (_ <? _); [intros H; now injection H|].
      destruct (fill_array_iterable _ xs) eqn:E1; try discriminate;
        [|exfalso; eapply quiet_fill_array_iterable; exact E1].
      destruct (fill_array_iterable _ ys) eqn:E2; try discriminate.
      exfalso; eapply quiet_fill_array_iterable; exact E2.
  - intros s ->. split; [eapply fit_prologue_ledger; exact H|].
    revert H.
    unfold fit_prologue, mp_raise_ValueError, bind, m_new, lift, ret.
    destruct args as [ys degree|xs ys degree]; cbn [fit_degree].
    + destruct (_ <? _); [discriminate|].
      destruct (fill_indices _ _ _); try discriminate.
      destruct (fill_array_iterable _ _); try discriminate.
      intros H; injection H as <- _. reflexivity.
    + destruct (negb _); [discriminate|].
      destruct (_ <? _); [discriminate|].
      destruct (fill_array_iterable _ xs); try discriminate.
      destruct (fill_array_iterable _ ys); try discriminate.
      intros H; injection H as <- _. reflexivity.
Qed.

Lemma poly_polyfit_exit {T : pivot_test} fuel args h r h' :
  poly_polyfit fuel args h = (r, h') ->
  (forall e, r = Raise e -> h' = h) /\
  (forall beta, r = Ok beta ->
     h' = ("beta", (u8 (fit_degree args) + 1) * 1) :: h /\
     nd_m beta = u8 (fit_degree args) + 1 /\ nd_n beta = 1 /\
     len (nd_items beta) = u8 (fit_degree args) + 1).
Proof.
  unfold poly_polyfit, bind.
  destruct (fit_prologue fuel args h) as [[s|e0| |] h1] eqn:Ep.
  - destruct (fit_prologue_exit _ _ _ _ _ Ep) as [_ Hs].
    destruct (Hs s eq_refl) as [-> Hd].
    intros H. rewrite <- Hd. apply (fit_solve_exit fuel s h r h'); auto.
    rewrite Hd. apply u8_range.
  - destruct (fit_prologue_exit _ _ _ _ _ Ep) as [He _].
    intros H; injection H as <- <-. split; intros; [|discriminate].
    eapply He; reflexivity.
  - intros H; injection H as <- <-. split; intros; discriminate.
  - intros H; injection H as <- <-. split; intros; discriminate.
Qed.

(** X9: whatever its arguments and however it ends, a call of [polyfit]
    that raises leaves the allocation ledger as it found it, and a call
    that returns leaves exactly its result beside it: a column of
    [(degree mod 256) + 1] items.  The blocks [x], [y], [XT] and [prod] do
    not outlive the call on either exit. *)
Theorem polyfit_exits_leave_no_block {T : pivot_test} :
  forall (fuel : nat) (n_args : Z) (arg0 arg1 : mp_obj) (degree : Z)
         (h : ledger),
    (forall e,
        outcome (poly_polyfit_entry fuel n_args arg0 arg1 degree h)
        = Raise e ->
        snd (poly_polyfit_entry fuel n_args arg0 arg1 degree h) = h) /\
    (forall beta,
        outcome (poly_polyfit_entry fuel n_args arg0 arg1 degree h)
        = Ok beta ->
        snd (poly_polyfit_entry fuel n_args arg0 arg1 degree h)
        = ("beta", (u8 degree + 1) * 1) :: h /\
        nd_m beta = u8 degree + 1 /\ nd_n beta = 1 /\
        len (nd_items beta) = u8 degree + 1).
Proof.
  intros fuel n_args arg0 arg1 degree h.
  unfold poly_polyfit_entry, outcome, mp_raise_ValueError, lift.
  destruct (negb (n_args =? 2) && negb (n_args =? 3));
    [split; intros; [reflexivity|discriminate]|].
  destruct (negb (object_is_nditerable arg0));
    [split; intros; [reflexivity|discriminate]|].
  destruct (n_args =? 2).
  - destruct (poly_polyfit fuel (Fit2 (ob_items arg0) degree) h)
      as [r h'] eqn:E.
    destruct (poly_polyfit_exit _ _ _ _ _ E) as [H1 H2].
    cbn [fst snd fit_degree] in *. split; auto.
  - destruct (negb (object_is_nditerable arg1));
      [split; intros; [reflexivity|discriminate]|].
    destruct (poly_polyfit fuel
                (Fit3 (ob_items arg0) (ob_items arg1) degree) h)
      as [r h'] eqn:E.
    destruct (poly_polyfit_exit _ _ _ _ _ E) as [H1 H2].
    cbn [fst snd fit_degree] in *. split; auto.
Qed.

(** ** The exceptions of the fitter *)

(** X10: the checks of [polyfit], in their order.  Each check raises its
    [ValueError], with nothing allocated, as soon as the checks before it
    have passed: first the number of arguments; then the type of [args[0]];
    then, for a call with three arguments, the type of [args[1]] and the
    two lengths as 16-bit numbers; last the 16-bit length against the 8-bit
    degree.  A call that passes them all raises nothing but the
    [ValueError] of the inversion. *)
Theorem polyfit_checks_in_order {T : pivot_test} :
  forall (fuel : nat) (n_args : Z) (arg0 arg1 : mp_obj) (degree : Z)
         (h : ledger),
    (n_args <> 2 -> n_args <> 3 ->
     poly_polyfit_entry fuel n_args arg0 arg1 degree h
     = (Raise (ValueError msg_nargs), h)) /\
    (n_args = 2 \/ n_args = 3 -> object_is_nditerable arg0 = false ->
     poly_polyfit_entry fuel n_args arg0 arg1 degree h
     = (Raise (ValueError msg_iterable), h)) /\
    (object_is_nditerable arg0 = true ->
     (object_is_nditerable arg1 = false ->
      poly_polyfit_entry fuel 3 arg0 arg1 degree h
      = (Raise (ValueError msg_iterable), h)) /\
     (object_is_nditerable arg1 = true ->
      u16 (len (ob_items arg0)) <> u16 (len (ob_items arg1)) ->
      poly_polyfit_entry fuel 3 arg0 arg1 degree h
      = (Raise (ValueError msg_lengths), h)) /\
     (object_is_nditerable arg1 = true ->
      u16 (len (ob_items arg0)) = u16 (len (ob_items arg1)) ->
      u16 (len (ob_items arg1)) < u8 degree ->
      poly_polyfit_entry fuel 3 arg0 arg1 degree h
      = (Raise (ValueError msg_degrees), h)) /\
     (u16 (len (ob_items arg0)) < u8 degree ->
      poly_polyfit_entry fuel 2 arg0 arg1 degree h
      = (Raise (ValueError msg_degrees), h)) /\
     (object_is_nditerable arg1 = true ->
      u16 (len (ob_items arg0)) = u16 (len (ob_items arg1)) ->
      u8 degree <= u16 (len (ob_items arg1)) ->
      forall e,
        outcome (poly_polyfit_entry fuel 3 arg0 arg1 degree h) = Raise e ->
        e = ValueError msg_singular) /\
     (u8 degree <= u16 (len (ob_items arg0)) ->
      forall e,
        outcome (poly_polyfit_entry fuel 2 arg0 arg1 degree h) = Raise e ->
        e = ValueError msg_singular)).
Proof.
  intros fuel n_args arg0 arg1 degree h.
  split; [|split].
  - intros N2 N3. unfold poly_polyfit_entry.
    destruct (Z.eqb_spec n_args 2); [contradiction|].
    destruct (Z.eqb_spec n_args 3); [contradiction|]. reflexivity.
  - intros Hn T0. unfold poly_polyfit_entry. rewrite T0.
    destruct Hn as [-> | ->]; reflexivity.
  - intros T0. unfold poly_polyfit_entry. rewrite T0.
    cbn [Z.eqb Pos.eqb negb andb].
    split; [|split; [|split; [|split; [|split]]]].
    + intros T1. rewrite T1. reflexivity.
    + intros T1 Hne. rewrite T1. cbn [negb].
      unfold poly_polyfit, bind, fit_prologue.
      fold (len (ob_items arg0)). fold (len (ob_items arg1)).
      destruct (Z.eqb_spec (u16 (len (ob_items arg0)))
                           (u16 (len (ob_items arg1)))); [contradiction|].
      reflexivity.
    + intros T1 He Hlt. rewrite T1. cbn [negb].
      unfold poly_polyfit, bind, fit_prologue.
      fold (len (ob_items arg0)). fold (len (ob_items arg1)).
      rewrite He, Z.eqb_refl. cbn [negb].
      replace (u16 (len (ob_items arg1)) <? u8 degree) with true by lia.
      reflexivity.
    + intros Hlt.
      unfold poly_polyfit, bind, fit_prologue.
      fold (len (ob_items arg0)).
      replace (u16 (len (ob_items arg0)) <? u8 degree) with true by lia.
      reflexivity.
    + intros T1 He Hle e. rewrite T1. cbn [negb].
      apply poly_polyfit_raise. now apply fit_prologue_quiet_fit3.
    + intros Hle e.
      apply poly_polyfit_raise. now apply fit_prologue_quiet_fit2.
Qed.

(** ** The two calling conventions *)

(** X11: the call with two arguments is the call with three arguments on
    the sample points [0, 1, ..., n-1], for up to 65535 samples and fuel
    for the loop that writes the points. *)
Theorem polyfit_two_arguments_fit_the_indices {T : pivot_test} :
  forall (fuel : nat) (ys : list R) (degree : Z) (h : ledger),
    len ys <= 65535 -> (Z.to_nat (len ys) < fuel)%nat ->
    poly_polyfit fuel (Fit2 ys degree) h
    = poly_polyfit fuel (Fit3 (indices (len ys)) ys degree) h.
Proof.
  intros fuel ys degree h Hn Hf. pose proof (len_nonneg ys) as H0.
  unfold poly_polyfit, bind.
  destruct (Z_lt_dec (len ys) (u8 degree)) as [Hlt|Hge].
  - unfold fit_prologue. fold (len ys). fold (len (indices (len ys))).
    rewrite len_indices by lia.
    rewrite Z.eqb_refl. cbn [negb].
    rewrite (u16_small (len ys)) by lia.
    replace (len ys <? u8 degree) with true by lia. reflexivity.
  - rewrite fit_prologue_fit2, fit_prologue_fit3;
      rewrite ?len_indices; auto; lia.
Qed.

Lemma polyfit_two_arguments_fit_the_indices_witness :
  poly_polyfit (T := exactly_zero) 4 (Fit2 [1; 3; 2]%R 1) []
  = poly_polyfit (T := exactly_zero) 4 (Fit3 (indices (len [1; 3; 2]%R)) [1; 3; 2]%R 1) [].
Proof.
  refine (polyfit_two_arguments_fit_the_indices 4%nat [1; 3; 2]%R 1 [] _ _);
    unfold len; simpl; lia.
Defined.

(** ** The fit of degree 0 *)

(** The one pivot of a fit of degree 0 is the number of samples. *)
Lemma fit_beta_degree_0 {T : pivot_test} x y n :
  (forall p, (1 <= p)%R -> numerically_zero p = false) ->
  1 <= n -> len y = n ->
  fst (linalg_invert_matrix (gram_flat x n 0) (0 + 1)) = true /\
  fit_beta x y n 0 = [mean y].
Proof.
  intros Hkeep Hn Hy.
  assert (Hr : (1 <= IZR n)%R) by (apply IZR_le; lia).
  assert (Hg : gram_flat x n 0 = [(IZR n * (1 * 1))%R]).
  { change (gram_flat x n 0) with [gram x n 0 0]. unfold gram.
    change (Z.to_nat 0) with 0%nat.
    rewrite (sumZ_ext _ (fun _ => (1 * 1)%R)) by (intros; simpl; ring).
    now rewrite sumZ_const by lia. }
  assert (Hi : linalg_invert_matrix (gram_flat x n 0) (0 + 1)
               = (true, [(1 / (IZR n * (1 * 1)))%R])).
  { rewrite Hg. apply invert_1x1. apply Hkeep. lra. }
  split; [now rewrite Hi|].
  unfold fit_beta. rewrite Hi. cbn [snd].
  change (Z.to_nat (0 + 1)) with 1%nat. cbn [seq map]. f_equal.
  unfold sumZ at 1. change (Z.to_nat (0 + 1)) with 1%nat. cbn [sum_n].
  change (get [(1 / (IZR n * (1 * 1)))%R] ((0 - Z.of_nat 0) * (0 + 1)
                                           + Z.of_nat 0))
    with (1 / (IZR n * (1 * 1)))%R.
  unfold mean, moment. rewrite Hy.
  rewrite (sumZ_ext (fun k => (get x k ^ Z.to_nat (Z.of_nat 0) * get y k)%R)
                    (fun k => get y k)) by (intros; simpl; ring).
  field. lra.
Qed.

(** X12: a fit of degree 0 returns the mean of the samples, whatever the
    sample points, for 1 to 255 samples, under every pivot test that lets
    the pivots from 1 on through (the pivot is the number of samples). *)
Theorem polyfit_degree_0_is_the_mean {T : pivot_test} :
  forall (fuel : nat) (xs ys : list R) (degree : Z) (h : ledger),
    (forall p, (1 <= p)%R -> numerically_zero p = false) ->
    u8 degree = 0 -> 1 <= len ys <= 255 -> (256 < fuel)%nat ->
    poly_polyfit fuel (Fit2 ys degree) h
    = (Ok (mk_ndarray 1 1 [mean ys]), ("beta", 1) :: h) /\
    (len xs = len ys ->
     poly_polyfit fuel (Fit3 xs ys degree) h
     = (Ok (mk_ndarray 1 1 [mean ys]), ("beta", 1) :: h)).
Proof.
  intros fuel xs ys degree h Hkeep Hd Hn Hf.
  assert (Hsolve : forall x, len x = len ys ->
            fit_solve fuel (mk_samples (len ys) (len ys) 0 x ys)
                      (("y", len ys) :: ("x", len ys) :: h)
            = (Ok (mk_ndarray 1 1 [mean ys]), ("beta", 1) :: h)).
  { intros x Hx.
    destruct (fit_beta_degree_0 x ys (len ys)) as [Hinv Hbeta];
      [exact Hkeep|lia|reflexivity|].
    rewrite fit_solve_regular; auto; try lia.
    now rewrite Hbeta. }
  split.
  - unfold poly_polyfit, bind.
    rewrite fit_prologue_fit2 by lia. rewrite Hd.
    apply Hsolve. apply len_indices; lia.
  - intros Hx. unfold poly_polyfit, bind.
    rewrite fit_prologue_fit3 by lia. rewrite Hd.
    now apply Hsolve.
Qed.

Lemma polyfit_degree_0_is_the_mean_witness :
  poly_polyfit (T := exactly_zero) 257 (Fit2 [1; 2; 6]%R 0) []
  = (Ok (mk_ndarray 1 1 [mean [1; 2; 6]%R]), [("beta", 1)]) /\
  (len [0; 5; 7]%R = len [1; 2; 6]%R ->
   poly_polyfit (T := exactly_zero) 257 (Fit3 [0; 5; 7]%R [1; 2; 6]%R 0) []
   = (Ok (mk_ndarray 1 1 [mean [1; 2; 6]%R]), [("beta", 1)])).
Proof.
  refine (polyfit_degree_0_is_the_mean
            257%nat [0; 5; 7]%R [1; 2; 6]%R 0 [] _ _ _ _).
  - intros p Hp. apply exactly_zero_keeps. lra.
  - reflexivity.
  - unfold len; simpl; lia.
  - lia.
Defined.

(** ** Counters narrower than their bounds *)

Lemma fit_prologue_runs fuel args h :
  fit_count args <= 65535 ->
  match args with Fit2 _ _ => True | Fit3 xs ys _ => len xs = len ys end ->
  u8 (fit_degree args) <= fit_count args ->
  outcome (fit_prologue fuel args h) = Timeout \/
  exists x y,
    len x = fit_count args /\ len y = fit_count args /\
    fit_prologue fuel args h
    = (Ok (mk_samples (fit_count args) (fit_count args)
                      (u8 (fit_degree args)) x y),
       ("y", fit_count args) :: ("x", fit_count args) :: h).
Proof.
  destruct args as [ys degree|xs ys degree]; cbn [fit_count fit_degree];
    intros Hn Hx Hd.
  - pose proof (len_nonneg ys) as H0.
    destruct (le_lt_dec fuel (Z.to_nat (len ys))) as [Hs|Hl].
    + left. unfold fit_prologue, outcome. fold (len ys).
      rewrite (u16_small (len ys)) by lia.
      replace (len ys <? u8 degree) with false by lia.
      unfold bind, m_new, lift, fill_indices.
      rewrite (for_loop_starve usize (fun _ x => len x = len ys)
                               (len ys) _ 0).
      * reflexivity.
      * intros z Hz; apply usize_small; lia.
      * intros i x Hi Hlx. rewrite store_ok by lia.
        eexists; split; [reflexivity|]. now rewrite len_upd.
      * lia.
      * lia.
      * rewrite len_repeat; lia.
    + right. exists (indices (len ys)), ys.
      split; [apply len_indices; lia|]. split; [reflexivity|].
      apply fit_prologue_fit2; lia.
  - right. rewrite Hx, Z.max_id in *. exists xs, ys.
    split; [assumption|]. split; [reflexivity|].
    apply fit_prologue_fit3; lia.
Qed.

(** From 256 samples on the 8-bit row counter of line 129 stays below its
    bound for ever. *)
Lemma build_XT_spins fuel x n deg XT0 :
  256 <= n -> 0 <= deg <= 254 -> len x = n -> len XT0 = (deg + 1) * n ->
  build_XT fuel x n n deg XT0 = Timeout.
Proof.
  intros Hn Hdeg Hx HXT. unfold build_XT.
  apply (for_loop_spin u8 (fun XT => len XT = (deg + 1) * n) n).
  - intros z. pose proof (u8_range z). lia.
  - intros i XT Hi HL.
    rewrite store_ok by nia. cbn [rbind].
    match goal with
    | |- for_loop _ _ _ _ ?body ?s0 = _ \/ _ =>
        destruct (for_loop_runs u8 (fun _ XT => len XT = (deg + 1) * n)
                                (deg + 1) body 1)
          with (fuel := fuel) (i := 1) (s := s0) as [E|[XT' [E L]]]
    end.
    + intros z Hz. apply u8_small. lia.
    + intros j XT1 Hj HL1.
      rewrite !load_ok by nia. cbn [rbind].
      rewrite store_ok by nia.
      eexists; split; [reflexivity|]. now rewrite len_upd.
    + lia.
    + now rewrite len_upd.
    + now left.
    + right. exists XT'. split; assumption.
  - lia.
  - assumption.
Qed.

(** X14: from 256 samples on, up to 65535, a call that passes its checks
    with an 8-bit degree of at most 254 never returns: no amount of fuel
    lets the loop of lines 129-134 end, because its 8-bit counter [i]
    wraps to 0 before it reaches the 16-bit sample count. *)
Theorem polyfit_from_256_samples_never_returns {T : pivot_test} :
  forall (args : fit_args) (h : ledger),
    256 <= fit_count args <= 65535 ->
    match args with Fit2 _ _ => True | Fit3 xs ys _ => len xs = len ys end ->
    u8 (fit_degree args) <= 254 ->
    never_returns (fun fuel => poly_polyfit fuel args h).
Proof.
  intros args h Hn Hx Hd fuel. cbv beta.
  pose proof (u8_range (fit_degree args)) as Hd0.
  destruct (fit_prologue_runs fuel args h) as [E|(x & y & Lx & Ly & E)];
    auto; try lia.
  - unfold poly_polyfit, bind, outcome in *.
    destruct (fit_prologue fuel args h) as [[s|e| |] h1];
      cbn [fst] in *; try discriminate. reflexivity.
  - unfold poly_polyfit, bind. rewrite E.
    unfold fit_solve, bind, m_new, lift, outcome.
    cbn [s_lenx s_leny s_deg s_x].
    rewrite build_XT_spins; auto; try lia.
    rewrite len_repeat. nia.
Qed.

Lemma polyfit_from_256_samples_never_returns_witness :
  never_returns
    (fun fuel => poly_polyfit (T := exactly_zero) fuel (Fit2 (repeat 1%R 300) 2) []).
Proof.
  refine (polyfit_from_256_samples_never_returns
            (Fit2 (repeat 1%R 300) 2) [] _ _ _).
  - unfold fit_count, len. rewrite repeat_length. lia.
  - exact I.
  - unfold fit_degree. change (u8 2) with 2. lia.
Defined.

(** With the 8-bit degree 255 the column counter of line 131 wraps to 0
    below its bound 256, and line 132 reads [XT[i - leny]]. *)
Lemma build_XT_degree_255 fuel x n XT0 :
  1 <= n -> len x = n -> len XT0 = 256 * n -> (256 <= fuel)%nat ->
  build_XT fuel x n n 255 XT0 = Fault.
Proof.
  intros Hn Hx HXT Hf. unfold build_XT.
  destruct fuel as [|fuel]; [lia|].
  rewrite for_loop_step by lia.
  rewrite store_ok by lia. cbn [rbind].
  replace (S fuel) with (254 + (2 + (fuel - 255)))%nat at 1 by lia.
  match goal with
  | |- rbind (for_loop _ _ _ _ ?body ?s0) _ = _ =>
      destruct (for_loop_prefix u8 (fun _ XT => len XT = 256 * n)
                                (255 + 1) body 1 255)
        with (k := 254%nat) (fuel := (2 + (fuel - 255))%nat)
             (i := 1) (s := s0) as [XT1 [L1 E1]]
  end.
  - lia.
  - intros z Hz. apply u8_small. lia.
  - intros j XT1 Hj HL1.
    rewrite !load_ok by nia. cbn [rbind].
    rewrite store_ok by nia.
    eexists; split; [reflexivity|]. now rewrite len_upd.
  - lia.
  - lia.
  - now rewrite len_upd.
  - rewrite E1. change (2 + (fuel - 255))%nat with (S (S (fuel - 255))).
    rewrite for_loop_step by lia.
    rewrite !load_ok by nia. cbn [rbind].
    rewrite store_ok by nia. cbn [rbind].
    change (u8 (255 + 1)) with 0.
    rewrite for_loop_step by lia.
    rewrite load_fault by lia. reflexivity.
Qed.

(** X15: a degree that is 255 as an 8-bit number, on 255 or more samples,
    sends the loop of lines 131-133 outside its block: its counter [j]
    wraps from 255 to 0 below the bound [deg + 1 = 256], and the read of
    [XT[i + (j-1) * leny]] falls before the start of [XT]. *)
Theorem polyfit_degree_255_reads_before_the_block {T : pivot_test} :
  forall (fuel : nat) (xs ys : list R) (degree : Z) (h : ledger),
    u8 degree = 255 -> 255 <= len ys <= 65535 ->
    (256 <= fuel)%nat -> (Z.to_nat (len ys) < fuel)%nat ->
    outcome (poly_polyfit fuel (Fit2 ys degree) h) = Fault /\
    (len xs = len ys ->
     outcome (poly_polyfit fuel (Fit3 xs ys degree) h) = Fault).
Proof.
  intros fuel xs ys degree h Hd Hn Hf1 Hf2.
  assert (Hsolve : forall x, len x = len ys ->
            outcome (fit_solve fuel (mk_samples (len ys) (len ys) 255 x ys)
                               (("y", len ys) :: ("x", len ys) :: h))
            = Fault).
  { intros x Hx. unfold fit_solve, bind, m_new, lift, outcome.
    cbn [s_lenx s_leny s_deg s_x].
    rewrite build_XT_degree_255; auto; try lia.
    rewrite len_repeat. lia. }
  split.
  - unfold poly_polyfit, bind.
    rewrite fit_prologue_fit2 by lia. rewrite Hd.
    apply Hsolve. apply len_indices; lia.
  - intros Hx. unfold poly_polyfit, bind.
    rewrite fit_prologue_fit3 by lia. rewrite Hd.
    now apply Hsolve.
Qed.

Lemma polyfit_degree_255_reads_before_the_block_witness :
  outcome (poly_polyfit (T := exactly_zero) 301 (Fit2 (repeat 1%R 300) 255) []) = Fault /\
  (len (repeat 2%R 300) = len (repeat 1%R 300) ->
   outcome (poly_polyfit (T := exactly_zero) 301 (Fit3 (repeat 2%R 300) (repeat 1%R 300) 255) [])
   = Fault).
Proof.
  refine (polyfit_degree_255_reads_before_the_block
            301%nat (repeat 2%R 300) (repeat 1%R 300) 255 [] _ _ _ _).
  - reflexivity.
  - unfold len. rewrite repeat_length. lia.
  - lia.
  - unfold len. rewrite repeat_length. lia.
Defined.

(** ** The inverse the inverter returns *)

Lemma mprod_identity N A r c :
  (r < N)%nat -> mprod N identity A r c = A r c.
Proof.
  intros Hr. unfold mprod.
  rewrite (sum_n_single _ N r); auto.
  - unfold identity. rewrite Nat.eqb_refl. ring.
  - intros k Hk Hne. unfold identity.
    destruct (Nat.eqb_spec r k); [congruence|ring].
Qed.

Lemma mprod_eliminate N m A U A0 r c :
  (forall r c, (r < N)%nat -> mprod N U A0 r c = A r c) ->
  (m < N)%nat -> (r < N)%nat ->
  mprod N (eliminate m A U) A0 r c = eliminate m A A r c.
Proof.
  intros HI Hm Hr. unfold mprod, eliminate.
  destruct (Nat.eqb_spec r m) as [->|Hne].
  - apply HI; assumption.
  - rewrite (sum_n_ext _ (fun k => U r k * A0 k c
                                   + (- (A r m / A m m)) * (U m k * A0 k c))%R)
      by (intros; ring).
    rewrite sum_n_plus, sum_n_scale.
    fold (mprod N U A0 r c). fold (mprod N U A0 m c).
    rewrite !HI by assumption. ring.
Qed.

(** The elimination keeps [U * A0 = A] and ends on a diagonal [A]. *)
Lemma gauss_jordan_tracks {T : pivot_test} N A0 : forall k m A U A' U',
  (m + k = N)%nat ->
  gauss_jordan (seq m k) A U = Some (A', U') ->
  (forall r c, (r < N)%nat -> mprod N U A0 r c = A r c) ->
  cleared N A m ->
  (forall r c, (r < N)%nat -> mprod N U' A0 r c = A' r c) /\
  cleared N A' N.
Proof.
  induction k as [|k IH]; intros m A U A' U' Hmk Hgj HI Hc.
  - simpl in Hgj. injection Hgj as <- <-.
    rewrite Nat.add_0_r in Hmk. subst m. auto.
  - simpl in Hgj.
    destruct (numerically_zero (A m m)) eqn:Hz; [discriminate|].
    pose proof (kept_nonzero _ Hz) as Hp.
    apply (IH (S m)) in Hgj; auto; try lia.
    + intros r c Hr. apply mprod_eliminate; auto; lia.
    + apply eliminate_cleared; auto; lia.
Qed.

Lemma gauss_jordan_left_inverse {T : pivot_test} N A0 A U :
  gauss_jordan (seq 0 N) A0 identity = Some (A, U) ->
  forall r c, (r < N)%nat -> (c < N)%nat ->
              mprod N (normalise A U) A0 r c = identity r c.
Proof.
  intros Hgj r c Hr Hc.
  destruct (gauss_jordan_tracks N A0 N 0 A0 identity A U) as [HI HC]; auto.
  - intros r' c' Hr'. now apply mprod_identity.
  - intros c' Hc'; lia.
  - unfold mprod, normalise.
    rewrite (sum_n_ext _ (fun k => / A r r * (U r k * A0 k c))%R)
      by (intros; unfold Rdiv; ring).
    rewrite sum_n_scale. fold (mprod N U A0 r c). rewrite HI by assumption.
    destruct (HC r Hr) as [Hd _]. unfold identity.
    destruct (Nat.eqb_spec r c) as [->|Hne].
    + field. assumption.
    + destruct (HC c Hc) as [_ Hz]. rewrite (Hz r Hr Hne). ring.
Qed.

Lemma nth_rows (M : matrix) N c : forall k a i,
  (i < k)%nat -> (c < N)%nat ->
  nth (i * N + c)
      (flat_map (fun r => map (fun c => M r c) (seq 0 N)) (seq a k)) 0%R
  = M (a + i)%nat c.
Proof.
  induction k as [|k IH]; intros a i Hi Hc; [lia|].
  cbn [seq flat_map].
  destruct i as [|i].
  - rewrite app_nth1 by (rewrite length_map, length_seq; lia).
    rewrite (nth_indep _ 0%R (M a 0%nat))
      by (rewrite length_map, length_seq; lia).
    rewrite (map_nth (fun c => M a c)), seq_nth by lia.
    now rewrite Nat.add_0_r.
  - rewrite app_nth2 by (rewrite length_map, length_seq; simpl; lia).
    rewrite length_map, length_seq.
    replace (S i * N + c - N)%nat with (i * N + c)%nat by (simpl; lia).
    rewrite IH by lia. f_equal. lia.
Qed.

Lemma get_to_flat N (M : matrix) r c :
  (r < N)%nat -> (c < N)%nat ->
  get (to_flat N M) (Z.of_nat r * Z.of_nat N + Z.of_nat c) = M r c.
Proof.
  intros Hr Hc. unfold get, to_flat.
  replace (Z.to_nat (Z.of_nat r * Z.of_nat N + Z.of_nat c))
    with (r * N + c)%nat by lia.
  now rewrite nth_rows.
Qed.

(** The block the inverter leaves is a left inverse of the product
    matrix. *)
Lemma invert_gram {T : pivot_test} x n deg :
  0 <= deg ->
  fst (linalg_invert_matrix (gram_flat x n deg) (deg + 1)) = true ->
  exists L : matrix,
    (forall r j, 0 <= r <= deg -> 0 <= j <= deg ->
       get (snd (linalg_invert_matrix (gram_flat x n deg) (deg + 1)))
           (r * (deg + 1) + j) = L (Z.to_nat r) (Z.to_nat j)) /\
    (forall r c, (r <= Z.to_nat deg)%nat -> (c <= Z.to_nat deg)%nat ->
       sum_n (fun k => L r k * gram x n (Z.of_nat k) (Z.of_nat c))%R
             (Z.to_nat (deg + 1))
       = identity r c).
Proof.
  intros Hdeg. unfold linalg_invert_matrix.
  destruct (gauss_jordan _ _ _) as [[A U]|] eqn:Hgj; cbn [fst snd];
    [intros _|discriminate].
  exists (normalise A U). split.
  - intros r j Hr Hj.
    replace (r * (deg + 1) + j)
      with (Z.of_nat (Z.to_nat r) * Z.of_nat (Z.to_nat (deg + 1))
            + Z.of_nat (Z.to_nat j)) by lia.
    apply get_to_flat; lia.
  - intros r c Hr Hc.
    rewrite <- (gauss_jordan_left_inverse _ _ _ _ Hgj r c) by lia.
    unfold mprod. apply sum_n_ext. intros k Hk.
    now rewrite of_flat_gram by lia.
Qed.

(** ** Polynomials as sums of powers *)

Lemma direct_sum_coef c t :
  direct_sum c t = sum_n (fun s => coef c s * t ^ s)%R (length c).
Proof.
  induction c as [|a c IH]; [reflexivity|].
  cbn [direct_sum length sum_n]. rewrite IH.
  assert (Ha : coef (a :: c) (length c) = a).
  { unfold coef. cbn [length].
    replace (S (length c) - 1 - length c)%nat with 0%nat by lia.
    reflexivity. }
  rewrite Ha, Rplus_comm. f_equal.
  apply sum_n_ext. intros s Hs. unfold coef. cbn [length].
  replace (S (length c) - 1 - s)%nat with (S (length c - 1 - s)) by lia.
  reflexivity.
Qed.

Lemma gram_symmetric x n r c : gram x n r c = gram x n c r.
Proof. unfold gram. apply sumZ_ext. intros; ring. Qed.

(** The moments of samples of a polynomial are the product matrix applied
    to its coefficients. *)
Lemma moment_polynomial x c n j :
  len x = n ->
  moment x (map (direct_sum c) x) n (Z.of_nat j)
  = sum_n (fun s => gram x n (Z.of_nat j) (Z.of_nat s) * coef c s)%R
          (length c).
Proof.
  intros Hx. unfold moment.
  rewrite (sumZ_ext _
             (fun k => sum_n (fun s => get x k ^ j * get x k ^ s
                                       * coef c s)%R (length c))).
  2:{ intros k Hk. rewrite get_map by lia. rewrite direct_sum_coef.
      rewrite Nat2Z.id, <- sum_n_scale. apply sum_n_ext; intros; ring. }
  unfold sumZ. rewrite sum_n_swap.
  apply sum_n_ext. intros s Hs.
  unfold gram, sumZ. rewrite !Nat2Z.id.
  rewrite (sum_n_ext _ (fun k => coef c s
                                 * (get x (Z.of_nat k) ^ j
                                    * get x (Z.of_nat k) ^ s))%R)
    by (intros; ring).
  rewrite sum_n_scale. ring.
Qed.

(** When the inversion succeeds on samples of a polynomial, the
    coefficients the call computes are the polynomial's. *)
Lemma fit_beta_polynomial {T : pivot_test} x c n :
  1 <= len c -> len x = n ->
  fst (linalg_invert_matrix (gram_flat x n (len c - 1)) (len c - 1 + 1))
  = true ->
  fit_beta x (map (direct_sum c) x) n (len c - 1) = c.
Proof.
  intros Hc Hx Hinv.
  destruct (invert_gram x n (len c - 1)) as (L & HL & HI); [lia|exact Hinv|].
  apply buffer_ext.
  { unfold fit_beta. rewrite len_map_seq. lia. }
  intros k Hk. unfold fit_beta in *. rewrite len_map_seq in Hk.
  rewrite get_map_seq by lia.
  set (deg := len c - 1) in *.
  assert (HN : Z.to_nat (deg + 1) = length c) by (unfold deg, len; lia).
  rewrite Z2Nat.id by lia.
  unfold sumZ. rewrite HN.
  rewrite (sum_n_ext _
             (fun j => sum_n (fun s => L (Z.to_nat (deg - k)) j
                                       * gram x n (Z.of_nat j) (Z.of_nat s)
                                       * coef c s)%R (length c))).
  2:{ intros j Hj. rewrite HL by (unfold len in *; lia).
      rewrite Nat2Z.id, moment_polynomial by assumption.
      rewrite <- sum_n_scale. apply sum_n_ext; intros; ring. }
  rewrite sum_n_swap.
  rewrite (sum_n_ext _ (fun s => identity (Z.to_nat (deg - k)) s
                                 * coef c s)%R).
  2:{ intros s Hs. rewrite <- HI by (unfold len in *; lia).
      rewrite HN, Rmult_comm, <- sum_n_scale.
      apply sum_n_ext; intros; ring. }
  rewrite (sum_n_single _ _ (Z.to_nat (deg - k))).
  - unfold identity. rewrite Nat.eqb_refl. unfold coef, get.
    replace (length c - 1 - Z.to_nat (deg - k))%nat with (Z.to_nat k)
      by (unfold deg, len in *; lia).
    ring.
  - unfold deg, len in *; lia.
  - intros s Hs Hne. unfold identity.
    destruct (Nat.eqb_spec (Z.to_nat (deg - k)) s); [congruence|ring].
Qed.

(** X16: on samples of a polynomial, taken at any points, a fit of the
    polynomial's degree gives the polynomial back whenever it gives
    anything: the call ends in the [ValueError] of the inversion, or it
    returns the coefficients the samples were computed from, highest
    power first. *)
Theorem polyfit_recovers_a_polynomial {T : pivot_test} :
  forall (fuel : nat) (xs c : list R) (h : ledger),
    1 <= len c <= 255 -> len c <= len xs <= 255 -> (256 < fuel)%nat ->
    poly_polyfit fuel (Fit3 xs (map (direct_sum c) xs) (len c - 1)) h
    = (Raise (ValueError msg_singular), h) \/
    poly_polyfit fuel (Fit3 xs (map (direct_sum c) xs) (len c - 1)) h
    = (Ok (mk_ndarray (len c) 1 c), ("beta", len c * 1) :: h).
Proof.
  intros fuel xs c h Hc Hn Hf.
  assert (Hy : len (map (direct_sum c) xs) = len xs) by apply len_map.
  assert (Hd : u8 (len c - 1) = len c - 1) by (apply u8_small; lia).
  unfold poly_polyfit, bind.
  rewrite fit_prologue_fit3; rewrite ?Hy, ?Hd; try lia.
  destruct (fst (linalg_invert_matrix (gram_flat xs (len xs) (len c - 1))
                                      (len c - 1 + 1))) eqn:Hinv.
  - right. rewrite fit_solve_regular; auto; try lia.
    rewrite fit_beta_polynomial; auto; try lia.
    replace (len c - 1 + 1) with (len c) by lia. reflexivity.
  - left. apply fit_solve_singular; auto; lia.
Qed.

Lemma polyfit_recovers_a_polynomial_witness :
  poly_polyfit (T := exactly_zero) 257 (Fit3 [0; 1; 2]%R
                         (map (direct_sum [2; 5]%R) [0; 1; 2]%R)
                         (len [2; 5]%R - 1)) []
  = (Raise (ValueError msg_singular), []) \/
  poly_polyfit (T := exactly_zero) 257 (Fit3 [0; 1; 2]%R
                         (map (direct_sum [2; 5]%R) [0; 1; 2]%R)
                         (len [2; 5]%R - 1)) []
  = (Ok (mk_ndarray (len [2; 5]%R) 1 [2; 5]%R),
     [("beta", len [2; 5]%R * 1)]).
Proof.
  refine (polyfit_recovers_a_polynomial
            257%nat [0; 1; 2]%R [2; 5]%R [] _ _ _);
    unfold len; simpl; lia.
Defined.

(** ** Least squares *)

Lemma identity_sym r c : identity r c = identity c r.
Proof. unfold identity. now rewrite Nat.eqb_sym. Qed.

Lemma sum_n_identity_l f N r :
  (r < N)%nat -> sum_n (fun k => identity r k * f k)%R N = f r.
Proof.
  intros Hr. rewrite (sum_n_single _ N r); auto.
  - unfold identity. rewrite Nat.eqb_refl. ring.
  - intros k Hk Hne. unfold identity.
    destruct (Nat.eqb_spec r k); [congruence|ring].
Qed.

(** A left inverse of a symmetric matrix is a right inverse. *)
Lemma symmetric_left_inverse N (G L : matrix) :
  (forall r c, G r c = G c r) ->
  (forall r c, (r < N)%nat -> (c < N)%nat -> mprod N L G r c = identity r c) ->
  forall r c, (r < N)%nat -> (c < N)%nat -> mprod N G L r c = identity r c.
Proof.
  intros Hs HL.
  assert (HA : forall r c, (r < N)%nat -> (c < N)%nat ->
             sum_n (fun k => G r k * L c k)%R N = identity r c).
  { intros r c Hr Hc. rewrite identity_sym, <- (HL c r) by assumption.
    unfold mprod. apply sum_n_ext. intros k Hk. rewrite (Hs k r). ring. }
  assert (HB : forall r c, (r < N)%nat -> (c < N)%nat -> L r c = L c r).
  { intros r c Hr Hc.
    transitivity (sum_n (fun j => L r j * identity j c)%R N).
    { rewrite (sum_n_single _ N c); auto.
      - unfold identity. rewrite Nat.eqb_refl. ring.
      - intros k Hk Hne. unfold identity.
        destruct (Nat.eqb_spec k c); [congruence|ring]. }
    rewrite (sum_n_ext _ (fun j => sum_n (fun k => L r j * G j k * L c k)%R
                                         N)).
    2:{ intros j Hj. rewrite <- (HA j c) by assumption.
        rewrite <- sum_n_scale. apply sum_n_ext; intros; ring. }
    rewrite sum_n_swap.
    rewrite (sum_n_ext _ (fun k => identity r k * L c k)%R).
    2:{ intros k Hk. rewrite <- (HL r k) by assumption. unfold mprod.
        rewrite Rmult_comm, <- sum_n_scale. apply sum_n_ext; intros; ring. }
    now apply sum_n_identity_l. }
  intros r c Hr Hc. rewrite <- (HA r c) by assumption.
  unfold mprod. apply sum_n_ext. intros k Hk. now rewrite (HB k c).
Qed.

Lemma coef_get b s :
  (s < length b)%nat -> coef b s = get b (len b - 1 - Z.of_nat s).
Proof.
  intros Hs. unfold coef, get, len. f_equal. lia.
Qed.

(** The coefficients the call computes solve the normal equations. *)
Lemma fit_beta_normal_equations {T : pivot_test} x y n deg r :
  0 <= deg ->
  fst (linalg_invert_matrix (gram_flat x n deg) (deg + 1)) = true ->
  (r <= Z.to_nat deg)%nat ->
  sum_n (fun s => gram x n (Z.of_nat r) (Z.of_nat s)
                  * coef (fit_beta x y n deg) s)%R (Z.to_nat (deg + 1))
  = moment x y n (Z.of_nat r).
Proof.
  intros Hdeg Hinv Hr.
  destruct (invert_gram x n deg Hdeg Hinv) as (L & HL & HI).
  set (N := Z.to_nat (deg + 1)) in *.
  assert (Hlen : len (fit_beta x y n deg) = deg + 1).
  { unfold fit_beta. rewrite len_map_seq. lia. }
  assert (HR : forall r c, (r < N)%nat -> (c < N)%nat ->
             mprod N (fun r c => gram x n (Z.of_nat r) (Z.of_nat c)) L r c
             = identity r c).
  { apply symmetric_left_inverse.
    - intros; apply gram_symmetric.
    - intros r' c' Hr' Hc'. unfold mprod. apply HI; lia. }
  rewrite (sum_n_ext _
             (fun s => sum_n (fun j => gram x n (Z.of_nat r) (Z.of_nat s)
                                       * L s j * moment x y n (Z.of_nat j))%R
                             N)).
  2:{ intros s Hs. rewrite coef_get by (unfold len in Hlen; lia).
      rewrite Hlen. unfold fit_beta.
      rewrite get_map_seq by lia. rewrite Z2Nat.id by lia.
      unfold sumZ. fold N. rewrite <- sum_n_scale.
      apply sum_n_ext. intros j Hj.
      rewrite HL by lia.
      replace (Z.to_nat (deg - (deg + 1 - 1 - Z.of_nat s))) with s by lia.
      rewrite Nat2Z.id. ring. }
  rewrite sum_n_swap.
  rewrite (sum_n_ext _ (fun j => identity r j * moment x y n (Z.of_nat j))%R).
  2:{ intros j Hj. rewrite <- (HR r j) by lia. unfold mprod.
      rewrite Rmult_comm, <- sum_n_scale. apply sum_n_ext; intros; ring. }
  apply sum_n_identity_l. lia.
Qed.

(** The residual of the fit is orthogonal to every power up to the
    degree. *)
Lemma fit_beta_residual {T : pivot_test} x y n deg r :
  0 <= deg -> 0 <= n -> len x = n ->
  fst (linalg_invert_matrix (gram_flat x n deg) (deg + 1)) = true ->
  (r <= Z.to_nat deg)%nat ->
  sum_n (fun k => get x (Z.of_nat k) ^ r
                  * (get y (Z.of_nat k)
                     - direct_sum (fit_beta x y n deg) (get x (Z.of_nat k))))%R
        (Z.to_nat n)
  = 0%R.
Proof.
  intros Hdeg Hn Hx Hinv Hr.
  pose proof (fit_beta_normal_equations x y n deg r Hdeg Hinv Hr) as HN.
  assert (Hlen : length (fit_beta x y n deg) = Z.to_nat (deg + 1)).
  { unfold fit_beta. now rewrite length_map, length_seq. }
  rewrite (sum_n_ext _
             (fun k => get x (Z.of_nat k) ^ r * get y (Z.of_nat k)
                       + (-1) * sum_n (fun s =>
                                  get x (Z.of_nat k) ^ r
                                  * get x (Z.of_nat k) ^ s
                                  * coef (fit_beta x y n deg) s)
                                      (Z.to_nat (deg + 1)))%R).
  2:{ intros k Hk. rewrite direct_sum_coef, Hlen.
      rewrite (sum_n_ext
                 (fun s => get x (Z.of_nat k) ^ r * get x (Z.of_nat k) ^ s
                           * coef (fit_beta x y n deg) s)%R
                 (fun s => get x (Z.of_nat k) ^ r
                           * (coef (fit_beta x y n deg) s
                              * get x (Z.of_nat k) ^ s))%R)
        by (intros; ring).
      rewrite sum_n_scale. ring. }
  rewrite sum_n_plus, sum_n_scale, sum_n_swap.
  unfold moment, sumZ in HN. rewrite Nat2Z.id in HN. rewrite <- HN.
  rewrite (sum_n_ext
             (fun c => sum_n (fun k => get x (Z.of_nat k) ^ r
                                       * get x (Z.of_nat k) ^ c
                                       * coef (fit_beta x y n deg) c)%R
                             (Z.to_nat n))
             (fun s => gram x n (Z.of_nat r) (Z.of_nat s)
                       * coef (fit_beta x y n deg) s)%R).
  - ring.
  - intros s Hs. rewrite gram_sum_n, Rmult_comm, <- sum_n_scale.
    apply sum_n_ext; intros; ring.
Qed.

Lemma sum_n_nonneg f n :
  (forall k, (k < n)%nat -> (0 <= f k)%R) -> (0 <= sum_n f n)%R.
Proof.
  induction n as [|n IH]; intros H; simpl; [lra|].
  assert (0 <= sum_n f n)%R by (apply IH; intros; apply H; lia).
  assert (0 <= f n)%R by (apply H; lia). lra.
Qed.

(** No polynomial of the degree is closer to the samples than the fit. *)
Lemma fit_beta_least_squares {T : pivot_test} x y n deg q :
  0 <= deg -> 0 <= n -> len x = n ->
  fst (linalg_invert_matrix (gram_flat x n deg) (deg + 1)) = true ->
  len q = deg + 1 ->
  (squared_error (fit_beta x y n deg) x y <= squared_error q x y)%R.
Proof.
  intros Hdeg Hn Hx Hinv Hq.
  set (b := fit_beta x y n deg).
  assert (Hlen : length b = Z.to_nat (deg + 1)).
  { unfold b, fit_beta. now rewrite length_map, length_seq. }
  assert (Hlq : length q = Z.to_nat (deg + 1)) by (unfold len in Hq; lia).
  set (e := fun k : nat => (get y (Z.of_nat k)
                            - direct_sum b (get x (Z.of_nat k)))%R).
  set (d := fun k : nat => (direct_sum b (get x (Z.of_nat k))
                            - direct_sum q (get x (Z.of_nat k)))%R).
  assert (Hcross : sum_n (fun k => e k * d k)%R (Z.to_nat n) = 0%R).
  { rewrite (sum_n_ext _
               (fun k => sum_n (fun s => (coef b s - coef q s)
                                         * (get x (Z.of_nat k) ^ s * e k))%R
                               (Z.to_nat (deg + 1)))).
    2:{ intros k Hk. unfold d. rewrite !direct_sum_coef, Hlen, Hlq.
        rewrite Rmult_comm.
        replace (sum_n (fun s => coef b s * get x (Z.of_nat k) ^ s)
                       (Z.to_nat (deg + 1))
                 - sum_n (fun s => coef q s * get x (Z.of_nat k) ^ s)
                         (Z.to_nat (deg + 1)))%R
          with (sum_n (fun s => (coef b s - coef q s)
                                * get x (Z.of_nat k) ^ s)
                      (Z.to_nat (deg + 1)))%R.
        2:{ rewrite (sum_n_ext _
                       (fun s => coef b s * get x (Z.of_nat k) ^ s
                                 + (-1) * (coef q s
                                           * get x (Z.of_nat k) ^ s))%R)
              by (intros; ring).
            rewrite sum_n_plus, sum_n_scale. ring. }
        rewrite Rmult_comm, <- sum_n_scale.
        apply sum_n_ext; intros; ring. }
    rewrite sum_n_swap.
    rewrite (sum_n_ext _ (fun _ => 0%R)); [apply sum_n_zero|].
    intros s Hs. rewrite sum_n_scale.
    unfold e, b. rewrite fit_beta_residual; auto; [ring|lia]. }
  unfold squared_error, sumZ. rewrite Hx.
  fold b.
  rewrite (sum_n_ext
             (fun k => (get y (Z.of_nat k) - direct_sum q (get x (Z.of_nat k)))
                       * (get y (Z.of_nat k)
                          - direct_sum q (get x (Z.of_nat k))))%R
             (fun k => e k * e k + (2 * (e k * d k) + d k * d k))%R)
    by (intros; unfold e, d; ring).
  rewrite !sum_n_plus, sum_n_scale, Hcross.
  assert (0 <= sum_n (fun k => d k * d k)%R (Z.to_nat n))%R.
  { apply sum_n_nonneg. intros k _. apply Rle_0_sqr. }
  fold (e 0%nat). change (sum_n (fun k => _) (Z.to_nat n))
    with (sum_n (fun k => e k * e k)%R (Z.to_nat n)) at 1.
  lra.
Qed.

(** X17: the fit is a least-squares fit.  Whenever a call on at most 255
    samples, more than the degree, returns, no polynomial of that degree
    has a smaller sum of squared distances to the samples than the one it
    returns; the only other way the call ends is the [ValueError] of the
    inversion. *)
Theorem polyfit_minimises_the_squared_error {T : pivot_test} :
  forall (fuel : nat) (xs ys : list R) (degree : Z) (h : ledger),
    u8 degree < len ys <= 255 -> len xs = len ys -> (256 < fuel)%nat ->
    poly_polyfit fuel (Fit3 xs ys degree) h
    = (Raise (ValueError msg_singular), h) \/
    exists b,
      poly_polyfit fuel (Fit3 xs ys degree) h
      = (Ok (mk_ndarray (u8 degree + 1) 1 b),
         ("beta", (u8 degree + 1) * 1) :: h) /\
      forall q, len q = u8 degree + 1 ->
                (squared_error b xs ys <= squared_error q xs ys)%R.
Proof.
  intros fuel xs ys degree h Hn Hx Hf.
  pose proof (u8_range degree) as Hd.
  unfold poly_polyfit, bind.
  rewrite fit_prologue_fit3 by lia.
  destruct (fst (linalg_invert_matrix (gram_flat xs (len ys) (u8 degree))
                                      (u8 degree + 1))) eqn:Hinv.
  - right. exists (fit_beta xs ys (len ys) (u8 degree)).
    split; [apply fit_solve_regular; auto; lia|].
    intros q Hq. apply fit_beta_least_squares; auto; lia.
  - left. apply fit_solve_singular; auto; lia.
Qed.

Lemma polyfit_minimises_the_squared_error_witness :
  poly_polyfit (T := exactly_zero) 257 (Fit3 [0; 1; 2]%R [1; 3; 2]%R 1) []
  = (Raise (ValueError msg_singular), []) \/
  exists b,
    poly_polyfit (T := exactly_zero) 257 (Fit3 [0; 1; 2]%R [1; 3; 2]%R 1) []
    = (Ok (mk_ndarray (u8 1 + 1) 1 b), [("beta", (u8 1 + 1) * 1)]) /\
    forall q, len q = u8 1 + 1 ->
              (squared_error b [0; 1; 2]%R [1; 3; 2]%R
               <= squared_error q [0; 1; 2]%R [1; 3; 2]%R)%R.
Proof.
  refine (polyfit_minimises_the_squared_error
            257%nat [0; 1; 2]%R [1; 3; 2]%R 1 [] _ _ _).
  - change (u8 1) with 1. unfold len; simpl; lia.
  - reflexivity.
  - lia.
Defined.

(** ** Away from as many samples as the degree *)

(** X20: on at most 255 samples and an 8-bit degree of at most 254 that is
    not the number of samples, every loop of [polyfit] runs to its end once
    the fuel exceeds 256 rounds, whatever the pivot test: the call returns
    an array of [degree + 1] coefficients in one column, or raises a
    [ValueError]. *)
Theorem polyfit_ends_unless_as_many_samples_as_degree {T : pivot_test} :
  forall (fuel : nat) (args : fit_args) (h : ledger),
    fit_count args <= 255 -> u8 (fit_degree args) <= 254 ->
    u8 (fit_degree args) <> fit_count args ->
    (256 < fuel)%nat ->
    (exists beta,
        outcome (poly_polyfit fuel args h) = Ok beta /\
        nd_m beta = u8 (fit_degree args) + 1 /\ nd_n beta = 1 /\
        len (nd_items beta) = u8 (fit_degree args) + 1) \/
    (exists msg, outcome (poly_polyfit fuel args h) = Raise (ValueError msg)).
Proof.
  intros fuel args h Hn Hd Hne Hf.
  pose proof (u8_range (fit_degree args)) as Hd0.
  assert (Hsolve : forall x y n,
             0 <= n <= 255 -> u8 (fit_degree args) < n ->
             len x = n -> len y = n ->
             (exists beta,
                 outcome (fit_solve fuel
                            (mk_samples n n (u8 (fit_degree args)) x y)
                            (("y", n) :: ("x", n) :: h)) = Ok beta /\
                 nd_m beta = u8 (fit_degree args) + 1 /\ nd_n beta = 1 /\
                 len (nd_items beta) = u8 (fit_degree args) + 1) \/
             (exists msg,
                 outcome (fit_solve fuel
                            (mk_samples n n (u8 (fit_degree args)) x y)
                            (("y", n) :: ("x", n) :: h))
                 = Raise (ValueError msg))).
  { intros x y n Hn' Hlt Hx Hy.
    destruct (fit_solve_cases fuel x y n (u8 (fit_degree args)) h)
      as [E|E]; auto; try lia; rewrite E.
    - right. eexists; reflexivity.
    - left. eexists; split; [reflexivity|]. cbn [nd_m nd_n nd_items].
      repeat split. unfold fit_beta. rewrite len_map_seq. lia. }
  destruct args as [ys degree|xs ys degree];
    cbn [fit_count fit_degree] in *.
  - pose proof (len_nonneg ys).
    destruct (Z_lt_dec (len ys) (u8 degree)) as [Hlt|Hge].
    + right. exists msg_degrees.
      unfold poly_polyfit, bind, fit_prologue. fold (len ys).
      rewrite (u16_small (len ys)) by lia.
      replace (len ys <? u8 degree) with true by lia. reflexivity.
    + unfold poly_polyfit, bind.
      rewrite fit_prologue_fit2 by lia.
      apply Hsolve; try lia.
      apply len_indices; lia.
  - pose proof (len_nonneg ys). pose proof (len_nonneg xs).
    destruct (Z.eq_dec (len xs) (len ys)) as [He|Hne'].
    + destruct (Z_lt_dec (len ys) (u8 degree)) as [Hlt|Hge].
      * right. exists msg_degrees.
        unfold poly_polyfit, bind, fit_prologue.
        fold (len ys). fold (len xs).
        rewrite He, (u16_small (len ys)), Z.eqb_refl by lia. cbn [negb].
        replace (len ys <? u8 degree) with true by lia. reflexivity.
      * unfold poly_polyfit, bind.
        rewrite fit_prologue_fit3 by lia.
        apply Hsolve; lia.
    + right. exists msg_lengths.
      unfold poly_polyfit, bind, fit_prologue.
      fold (len ys). fold (len xs).
      rewrite (u16_small (len ys)), (u16_small (len xs)) by lia.
      destruct (Z.eqb_spec (len xs) (len ys)); [contradiction|].
      reflexivity.
Qed.

Lemma polyfit_ends_unless_as_many_samples_as_degree_witness :
  (exists beta,
      outcome (poly_polyfit (T := exactly_zero) 257 (Fit2 [1; 2; 4]%R 1) [])
      = Ok beta /\
      nd_m beta = u8 1 + 1 /\ nd_n beta = 1 /\
      len (nd_items beta) = u8 1 + 1) \/
  (exists msg,
      outcome (poly_polyfit (T := exactly_zero) 257 (Fit2 [1; 2; 4]%R 1) [])
      = Raise (ValueError msg)).
Proof.
  refine (polyfit_ends_unless_as_many_samples_as_degree
            257%nat (Fit2 [1; 2; 4]%R 1) [] _ _ _ _).
  - unfold fit_count, len; simpl; lia.
  - unfold fit_degree. change (u8 1) with 1. lia.
  - unfold fit_count, fit_degree, len. change (u8 1) with 1. simpl; lia.
  - lia.
Defined.

(** ** The fit of a line *)

(** X21: for 2 to 255 noise-free samples of the line [a * i + b] at
    [i = 0, ..., n-1], the fit of degree 1 with two arguments returns the
    coefficients [a; b] in one column and leaves only them allocated, under
    every pivot test that lets the pivots from 1/2 on through (the pivots
    are [n] and [(n-1) n (n+1) / 12]). *)
Theorem polyfit_recovers_a_line {T : pivot_test} :
  forall (n : Z) (a b : R) (fuel : nat) (h : ledger),
    (forall p, (/ 2 <= p)%R -> numerically_zero p = false) ->
    2 <= n <= 255 -> (Z.to_nat n < fuel)%nat ->
    poly_polyfit fuel (Fit2 (linear_samples a b n) 1) h
    = (Ok (mk_ndarray 2 1 [a; b]), ("beta", 2) :: h).
Proof.
  intros n a b fuel h Hkeep Hn Hf.
  destruct (fit_line_beta a b n Hkeep) as [Hinv Hbeta]; [lia|].
  unfold poly_polyfit, bind.
  rewrite fit_prologue_fit2; rewrite ?len_linear_samples by lia;
    try (change (u8 1) with 1; lia).
  change (u8 1) with 1.
  rewrite fit_solve_regular;
    rewrite ?len_linear_samples, ?len_indices by lia; try lia; auto.
  now rewrite Hbeta.
Qed.

Lemma polyfit_recovers_a_line_witness :
  poly_polyfit (T := exactly_zero) 4 (Fit2 (linear_samples 2 5 3) 1) []
  = (Ok (mk_ndarray 2 1 [2; 5]%R), [("beta", 2)]).
Proof.
  refine (polyfit_recovers_a_line 3 2%R 5%R 4%nat [] _ _ _).
  - intros p Hp. apply exactly_zero_keeps. lra.
  - lia.
  - lia.
Defined.
